(** * pdm_utils.classes.databasetree: a shallow embedding and its properties

    The module keeps a MySQL schema as a graph of [Node] objects (a database
    node, table nodes, column nodes) that reference each other through the
    mutable lists [parents] and [children].  Python objects are shared and
    compared by identity, so the embedding keeps an explicit object store:
    an object is an address into a list of records, and every method is a
    computation over that store.  Exceptions are results of the computation,
    and the statements sent to the MySQL handle are logged in the state. *)

From Stdlib Require Import ZArith String Ascii List Lia Bool.
From stdpp Require Import base option list strings relations.

Open Scope string_scope.
Open Scope list_scope.
Open Scope nat_scope.

(** ** Values, rows and exceptions *)

(** What the connector hands back in a result row: text or a number. *)
Inductive value :=
  | VStr (s : string)
  | VInt (z : Z).

#[global] Instance value_eq_dec : EqDecision value.
Proof. solve_decision. Defined.

(** A result row is a dictionary from field name to value. *)
Definition row := list (string * value).

(** The Python exceptions the module can raise.  [DanglingRef] has no Python
    counterpart (a Python reference always designates an object): it is the
    result of reading an address the store does not hold. *)
Inductive exn :=
  | AttributeError
  | ValueError
  | KeyError
  | IndexError
  | TypeError
  | DanglingRef.

#[global] Instance exn_eq_dec : EqDecision exn.
Proof. solve_decision. Defined.

(** The outcome of a call: a returned value, a raised exception, or
    [Starved] when the recursion budget of the embedding ran out. *)
Inductive res (A : Type) :=
  | Ok (a : A)
  | Raise (e : exn)
  | Starved.
Arguments Ok {A} a.
Arguments Raise {A} e.
Arguments Starved {A}.

(** ** Objects and the store *)

(** An object is designated by its position in the store. *)
Abbreviation addr := nat (only parsing).

(** The class of an object and the attributes its constructor adds:
    [TableNode.__init__] sets [primary_key = None]; [ColumnNode.__init__]
    stores [type], [null], [key] and sets [group = "Undefined"]. *)
Inductive kind :=
  | PlainNode
  | DatabaseNode
  | TableNode (primary_key : option addr)
  | ColumnNode (type : option string) (null : option bool)
               (key : option string) (group : string).

Record Node := mkNode {
  id : string;
  parents : list addr;
  children : list addr;
  cls : kind
}.

(** The MySQL handle: the database name and the rows the server answers to a
    statement. *)
Record MySQLConnectionHandler := mkHandle {
  database : string;
  answer : string -> list row
}.

(** The state threaded through every call: the object store and the
    statements sent so far, oldest first. *)
Record state := mkState {
  heap : list Node;
  sent : list string
}.

Definition M (A : Type) : Type := state -> res A * state.

Definition ret {A} (a : A) : M A := fun st => (Ok a, st).
Definition raise {A} (e : exn) : M A := fun st => (Raise e, st).
Definition starve {A} : M A := fun st => (Starved, st).
Definition bind {A B} (m : M A) (f : A -> M B) : M B :=
  fun st =>
    match m st with
    | (Ok a, st') => f a st'
    | (Raise e, st') => (Raise e, st')
    | (Starved, st') => (Starved, st')
    end.

#[global] Instance M_ret : MRet M := @ret.
#[global] Instance M_bind : MBind M := fun A B f m => bind m f.

Definition load (a : addr) : M Node :=
  fun st =>
    match heap st !! a with
    | Some n => (Ok n, st)
    | None => (Raise DanglingRef, st)
    end.

Definition store (a : addr) (n : Node) : M unit :=
  fun st => (Ok tt, mkState (<[a := n]> (heap st)) (sent st)).

Definition alloc (n : Node) : M addr :=
  fun st => (Ok (length (heap st)), mkState (heap st ++ [n]) (sent st)).

(** [sql_handle.execute_query(query)] *)
Definition execute_query (sql_handle : MySQLConnectionHandler)
    (query : string) : M (list row) :=
  fun st =>
    (Ok (answer sql_handle query), mkState (heap st) (sent st ++ [query])).

(** ** Python list and dictionary primitives *)

(** [l.remove(x)]: drops the first occurrence, [None] when there is none
    (Python raises ValueError). *)
Fixpoint list_remove (x : addr) (l : list addr) : option (list addr) :=
  match l with
  | [] => None
  | y :: l' =>
      if decide (x = y) then Some l'
      else match list_remove x l' with
           | Some r => Some (y :: r)
           | None => None
           end
  end.

(** [d[k]] on a result row. *)
Fixpoint row_get (r : row) (k : string) : option value :=
  match r with
  | [] => None
  | (k', v) :: r' => if decide (k' = k) then Some v else row_get r' k
  end.

Definition getitem (r : row) (k : string) : M value :=
  match row_get r k with
  | Some v => ret v
  | None => raise KeyError
  end.

(** The catalog's name fields are text; a number in their place is outside
    what the connector returns and is reported as TypeError. *)
Definition gettext (r : row) (k : string) : M string :=
  v ← getitem r k;
  match v with
  | VStr s => ret s
  | VInt _ => raise TypeError
  end.

(** [x in l] for a list of objects (identity) and for a list of strings. *)
Definition mem_addr (x : addr) (l : list addr) : bool := bool_decide (x ∈ l).
Definition mem_str (x : string) (l : list string) : bool := bool_decide (x ∈ l).

(** [sep.join(l)] *)
Fixpoint join (sep : string) (l : list string) : string :=
  match l with
  | [] => ""
  | [x] => x
  | x :: l' => x +:+ sep +:+ join sep l'
  end.

(** ** class Node *)

Definition set_parents (n : Node) (ps : list addr) : Node :=
  mkNode (id n) ps (children n) (cls n).
Definition set_children (n : Node) (cs : list addr) : Node :=
  mkNode (id n) (parents n) cs (cls n).
Definition set_cls (n : Node) (k : kind) : Node :=
  mkNode (id n) (parents n) (children n) k.

(** [o.parents.append(x)] and [o.children.append(x)] *)
Definition parents_append (o x : addr) : M unit :=
  n ← load o; store o (set_parents n (parents n ++ [x])).
Definition children_append (o x : addr) : M unit :=
  n ← load o; store o (set_children n (children n ++ [x])).

(** [o.parents.remove(x)] and [o.children.remove(x)] *)
Definition parents_remove (o x : addr) : M unit :=
  n ← load o;
  match list_remove x (parents n) with
  | Some ps => store o (set_parents n ps)
  | None => raise ValueError
  end.
Definition children_remove (o x : addr) : M unit :=
  n ← load o;
  match list_remove x (children n) with
  | Some cs => store o (set_children n cs)
  | None => raise ValueError
  end.

(** [Node(id)], [DatabaseNode(id)], [TableNode(id)] and
    [ColumnNode(id, type, Null, key)] with the default [parents=None],
    [children=None], the only way the module constructs them. *)
Definition new_Node (i : string) : M addr := alloc (mkNode i [] [] PlainNode).
Definition new_DatabaseNode (i : string) : M addr :=
  alloc (mkNode i [] [] DatabaseNode).
Definition new_TableNode (i : string) : M addr :=
  alloc (mkNode i [] [] (TableNode None)).
Definition new_ColumnNode (i : string) (type : option string)
    (Null : option bool) (key : option string) : M addr :=
  alloc (mkNode i [] [] (ColumnNode type Null key "Undefined")).

Definition add_parent (self parent_node : addr) : M unit :=
  children_append parent_node self;;
  parents_append self parent_node.

Definition add_child (self child_node : addr) : M unit :=
  parents_append child_node self;;
  children_append self child_node.

Definition create_parent (self : addr) (parent_id : string) : M addr :=
  parent_node ← new_Node parent_id;
  add_parent self parent_node;;
  mret parent_node.

Definition create_child (self : addr) (child_id : string) : M addr :=
  child_node ← new_Node child_id;
  add_child self child_node;;
  mret child_node.

(** The loops of [show_parents]/[show_children]: the ids of the listed
    objects, in order. *)
Fixpoint ids_of (l : list addr) : M (list string) :=
  match l with
  | [] => mret []
  | a :: l' => n ← load a; r ← ids_of l'; mret (id n :: r)
  end.

Definition show_parents (self : addr) : M (list string) :=
  n ← load self; ids_of (parents n).
Definition show_children (self : addr) : M (list string) :=
  n ← load self; ids_of (children n).

Definition has_parent (self : addr) (parent : string) : M bool :=
  ps ← show_parents self; mret (mem_str parent ps).
Definition has_child (self : addr) (child : string) : M bool :=
  cs ← show_children self; mret (mem_str child cs).

(** The loop of [get_parent]/[get_child]: it does not stop at the first
    match, so the last object with the id wins. *)
Fixpoint scan_id (wanted : string) (l : list addr) (found : option addr)
    : M (option addr) :=
  match l with
  | [] => mret found
  | a :: l' =>
      n ← load a;
      scan_id wanted l' (if decide (id n = wanted) then Some a else found)
  end.

Definition get_parent (self : addr) (parent_id : string) : M (option addr) :=
  n ← load self; scan_id parent_id (parents n) None.
Definition get_child (self : addr) (child_id : string) : M (option addr) :=
  n ← load self; scan_id child_id (children n) None.

Definition remove_parent (self : addr) (parent_node : option addr)
    : M (option addr) :=
  match parent_node with
  | Some p => parents_remove self p;; children_remove p self;; mret (Some p)
  | None => mret None
  end.

Definition remove_child (self : addr) (child_node : option addr)
    : M (option addr) :=
  match child_node with
  | Some c => children_remove self c;; parents_remove c self;; mret (Some c)
  | None => mret None
  end.

(** Attribute reads and writes that only some classes have.  Reading an
    attribute an object lacks raises AttributeError.  The writes below are
    only reached, in this module, on an object whose class has the
    attribute. *)
Definition get_primary_key (t : addr) : M (option addr) :=
  n ← load t;
  match cls n with
  | TableNode pk => mret pk
  | _ => raise AttributeError
  end.

Definition set_primary_key (t : addr) (pk : option addr) : M unit :=
  n ← load t;
  match cls n with
  | TableNode _ => store t (set_cls n (TableNode pk))
  | _ => raise AttributeError
  end.

Definition get_type (c : addr) : M (option string) :=
  n ← load c;
  match cls n with
  | ColumnNode ty _ _ _ => mret ty
  | _ => raise AttributeError
  end.

Definition get_group (c : addr) : M string :=
  n ← load c;
  match cls n with
  | ColumnNode _ _ _ g => mret g
  | _ => raise AttributeError
  end.

Definition set_group (c : addr) (g : string) : M unit :=
  n ← load c;
  match cls n with
  | ColumnNode ty nl k _ => store c (set_cls n (ColumnNode ty nl k g))
  | _ => raise AttributeError
  end.

(** A method called on [None]. *)
Definition deref {A} (o : option A) : M A :=
  match o with
  | Some a => mret a
  | None => raise AttributeError
  end.

(** ** class DatabaseNode *)

Definition create_table (self : addr) (table : string) : M addr :=
  create_child self table.
Definition add_table (self table_node : addr) : M unit :=
  add_child self table_node.
Definition remove_table (self : addr) (table : option addr) : M (option addr) :=
  remove_child self table.
Definition show_tables (self : addr) : M (list string) := show_children self.
Definition has_table (self : addr) (table : string) : M bool :=
  has_child self table.
Definition get_table (self : addr) (table : string) : M (option addr) :=
  get_child self table.

(** ** class TableNode *)

Definition create_column (self : addr) (column : string) : M addr :=
  column_node ← new_ColumnNode column None None None;
  parents_append column_node self;;
  children_append self column_node;;
  mret column_node.

Definition add_column (self column_node : addr) : M unit :=
  add_child self column_node.
Definition remove_column (self : addr) (column_node : option addr)
    : M (option addr) :=
  remove_child self column_node.
Definition show_columns (self : addr) : M (list string) := show_children self.

(** [has_column] is a method of [TableNode] alone.  [build_values] calls it
    on whatever child of the root carries the table's name, which can be a
    plain [Node] made by [DatabaseNode.create_table]: the call then raises
    AttributeError.  The other methods of the classes are called, in this
    module, on objects of the class that defines them. *)
Definition has_column (self : addr) (column : string) : M bool :=
  n ← load self;
  match cls n with
  | TableNode _ => has_child self column
  | _ => raise AttributeError
  end.
Definition get_column (self : addr) (column : string) : M (option addr) :=
  get_child self column.

(** The loop of [get_foreign_keys]: the children other than the primary key
    that have more than one parent. *)
Fixpoint collect_foreign_keys (pk : option addr) (cols : list addr)
    (foreign_keys : list addr) : M (list addr) :=
  match cols with
  | [] => mret foreign_keys
  | column :: rest =>
      if decide (Some column = pk) then collect_foreign_keys pk rest foreign_keys
      else
        cn ← load column;
        if (1 <? length (parents cn))%nat
        then collect_foreign_keys pk rest (foreign_keys ++ [column])
        else collect_foreign_keys pk rest foreign_keys
  end.

Definition get_foreign_keys (self : addr) : M (list addr) :=
  n ← load self;
  pk ← get_primary_key self;
  collect_foreign_keys pk (children n) [].

Definition show_primary_key (self : addr) : M string :=
  pk ← get_primary_key self;
  p ← deref pk;
  n ← load p;
  mret (id n).

(** ** class ColumnNode *)

Definition column_create_table (self : addr) (table : string) : M addr :=
  table_node ← new_TableNode table;
  children_append table_node self;;
  parents_append self table_node;;
  mret table_node.

Definition column_add_table (self table_node : addr) : M unit :=
  add_parent self table_node.
Definition column_remove_table (self : addr) (table : option addr)
    : M (option addr) :=
  remove_parent self table.

(** [s.split(sep)[0]] for a one-character separator: the text before the
    first separator. *)
Fixpoint before (sep : ascii) (s : string) : string :=
  match s with
  | EmptyString => EmptyString
  | String c s' => if decide (c = sep) then EmptyString else String c (before sep s')
  end.

Definition parse_type (self : addr) : M string :=
  ty ← get_type self;
  t ← deref ty;
  mret (before " " (before "(" t)).

(** ** Loops *)

(** [for x in l: body(x)] over a list no statement of the body changes. *)
Fixpoint for_each {A} (l : list A) (body : A -> M unit) : M unit :=
  match l with
  | [] => mret tt
  | x :: l' => body x;; for_each l' body
  end.

(** [for x in o.attr: body(x)] when the body may change the list it iterates
    over: Python's list iterator keeps an index and reads the list again at
    every step, stopping when the index reaches the current length. *)
Fixpoint for_live (fuel : nat) (read : M (list addr)) (i : nat)
    (body : addr -> M unit) : M unit :=
  match fuel with
  | O => starve
  | S fuel' =>
      l ← read;
      match l !! i with
      | None => mret tt
      | Some x => body x;; for_live fuel' read (S i) body
      end
  end.

Definition read_parents (o : addr) : M (list addr) :=
  n ← load o; mret (parents n).
Definition read_children (o : addr) : M (list addr) :=
  n ← load o; mret (children n).

(** ** setup_db_tree_leaves *)

Definition table_query (sql_handle : MySQLConnectionHandler) : string :=
  "SELECT DISTINCT TABLE_NAME FROM INFORMATION_SCHEMA.COLUMNS "
  +:+ "WHERE TABLE_SCHEMA='" +:+ database sql_handle +:+ "'".

Definition column_query (table_name : string) : string :=
  "SHOW columns IN " +:+ table_name.

Definition leaf_column (table_node : addr) (column_dict : row) : M unit :=
  nl ← getitem column_dict "Null";
  let Null := bool_decide (nl = VStr "YES") in
  field ← gettext column_dict "Field";
  ty ← gettext column_dict "Type";
  key ← gettext column_dict "Key";
  column_node ← new_ColumnNode field (Some ty) (Some Null) (Some key);
  add_column table_node column_node;;
  if decide (key = "PRI")
  then set_primary_key table_node (Some column_node)
  else mret tt.

Definition leaf_table (sql_handle : MySQLConnectionHandler) (db_node : addr)
    (data_dict : row) : M unit :=
  name ← gettext data_dict "TABLE_NAME";
  table_node ← new_TableNode name;
  add_table db_node table_node;;
  column_dicts ← execute_query sql_handle (column_query name);
  for_each column_dicts (leaf_column table_node).

Definition setup_db_tree_leaves (sql_handle : MySQLConnectionHandler)
    (db_node : addr) : M unit :=
  table_dicts ← execute_query sql_handle (table_query sql_handle);
  for_each table_dicts (leaf_table sql_handle db_node).

(** ** setup_db_tree_webs *)

Definition foreign_key_query (sql_handle : MySQLConnectionHandler)
    (table_id : string) : string :=
  "SELECT TABLE_NAME, COLUMN_NAME, CONSTRAINT_NAME, "
  +:+ "REFERENCED_TABLE_NAME, REFERENCED_COLUMN_NAME "
  +:+ "FROM INFORMATION_SCHEMA.KEY_COLUMN_USAGE "
  +:+ "WHERE REFERENCED_TABLE_SCHEMA='" +:+ database sql_handle +:+ "' AND "
  +:+ "REFERENCED_TABLE_NAME='" +:+ table_id +:+ "'".

(** The body of [for parent in foreign_key_node.parents]. *)
Definition reparent (primary_key_node foreign_key_node parent : addr)
    : M unit :=
  pk ← load primary_key_node;
  if mem_addr parent (parents pk) then mret tt
  else
    column_add_table primary_key_node parent;;
    remove_column parent (Some foreign_key_node);;
    mret tt.

(** The body of [for dict in foreign_key_results]. *)
Definition web_constraint (fuel : nat) (db_node table : addr) (dict : row)
    : M unit :=
  column_name ← gettext dict "COLUMN_NAME";
  primary_key_node ← get_column table column_name;
  table_name ← gettext dict "TABLE_NAME";
  ref_table ← get_table db_node table_name;
  rt ← deref ref_table;
  column_name' ← gettext dict "COLUMN_NAME";
  foreign_key_node ← get_column rt column_name';
  pkn ← deref primary_key_node;
  column_add_table pkn rt;;
  ref_pk ← get_primary_key rt;
  (if decide (foreign_key_node = ref_pk)
   then set_primary_key rt primary_key_node
   else mret tt);;
  fkn ← deref foreign_key_node;
  for_live fuel (read_parents fkn) 0 (reparent pkn fkn);;
  remove_column rt foreign_key_node;;
  mret tt.

(** The body of [for table in db_node.children].  The test
    [foreign_key_results != ()] only skips a loop over no rows. *)
Definition web_table (fuel : nat) (sql_handle : MySQLConnectionHandler)
    (db_node table : addr) : M unit :=
  t ← load table;
  foreign_key_results ←
    execute_query sql_handle (foreign_key_query sql_handle (id t));
  for_each foreign_key_results (web_constraint fuel db_node table).

Definition setup_db_tree_webs (fuel : nat)
    (sql_handle : MySQLConnectionHandler) (db_node : addr) : M unit :=
  for_live fuel (read_children db_node) 0 (web_table fuel sql_handle db_node).

(** ** setup_grouping_options *)

Definition limited_sets : list string := ["varchar_sm"; "enum"; "char"; "tinyint"].
Definition str_sets : list string := ["blob"; "mediumblob"; "varchar"; "varchar_sm"].
Definition num_sets : list string :=
  ["int"; "decimal"; "mediumint"; "float"; "datetime"; "double"].

Definition is_digit (c : ascii) : bool :=
  (48 <=? nat_of_ascii c)%nat && (nat_of_ascii c <=? 57)%nat.

(** The first match of the pattern [[1234567890]+]: the first maximal run of
    digits, if the text has a digit. *)
Fixpoint digit_run (s : string) : string :=
  match s with
  | EmptyString => EmptyString
  | String c s' => if is_digit c then String c (digit_run s') else EmptyString
  end.

Fixpoint first_digits (s : string) : option string :=
  match s with
  | EmptyString => None
  | String c s' => if is_digit c then Some (digit_run s) else first_digits s'
  end.

(** [int(s)] on a run of digits. *)
Fixpoint int_of_digits (acc : Z) (s : string) : Z :=
  match s with
  | EmptyString => acc
  | String c s' =>
      int_of_digits (10 * acc + Z.of_nat (nat_of_ascii c - 48)) s'
  end.

Definition count_query (column_id table_id : string) : string :=
  "SELECT COUNT(DISTINCT " +:+ column_id +:+ ") FROM " +:+ table_id.
Definition count_field (column_id : string) : string :=
  "COUNT(DISTINCT " +:+ column_id +:+ ")".

(** The type name after the varchar size test. *)
Definition sized_type (column : addr) : M string :=
  type ← parse_type column;
  if decide (type = "varchar") then
    raw ← get_type column;
    raw' ← deref raw;
    match first_digits raw' with
    | None => raise IndexError
    | Some ds =>
        if (int_of_digits 0 ds <=? 15)%Z then mret "varchar_sm" else mret type
    end
  else mret type.

(** The body of [for column in table.children]. *)
Definition group_column (sql_handle : MySQLConnectionHandler)
    (table column : addr) : M unit :=
  type ← sized_type column;
  (if mem_str type str_sets then set_group column "str_set"
   else if mem_str type num_sets then set_group column "num_set"
   else mret tt);;
  if mem_str type limited_sets then
    c ← load column;
    t ← load table;
    results ← execute_query sql_handle (count_query (id c) (id t));
    match results with
    | [] => raise IndexError
    | results_dict :: _ =>
        c' ← load column;
        n ← getitem results_dict (count_field (id c'));
        match n with
        | VInt z =>
            if (z <? 150)%Z then set_group column "limited_set" else mret tt
        | VStr _ => raise TypeError
        end
    end
  else mret tt.

Definition group_table (sql_handle : MySQLConnectionHandler) (table : addr)
    : M unit :=
  t ← load table;
  for_each (children t) (group_column sql_handle table).

Definition setup_grouping_options (sql_handle : MySQLConnectionHandler)
    (db_node : addr) : M unit :=
  d ← load db_node;
  for_each (children d) (group_table sql_handle).

(** ** class DatabaseTree *)

Record DatabaseTree := mkTree {
  sql_handle : MySQLConnectionHandler;
  db_node : addr
}.

(** [DatabaseTree.__init__] *)
Definition DatabaseTree_init (fuel : nat) (h : MySQLConnectionHandler)
    : M DatabaseTree :=
  d ← new_DatabaseNode (database h);
  setup_db_tree_leaves h d;;
  setup_db_tree_webs fuel h d;;
  setup_grouping_options h d;;
  mret (mkTree h d).

Definition tree_get_table (self : DatabaseTree) (table : string)
    : M (option addr) := get_table (db_node self) table.
Definition tree_has_table (self : DatabaseTree) (table : string) : M bool :=
  has_table (db_node self) table.
Definition tree_show_tables (self : DatabaseTree) : M (list string) :=
  show_tables (db_node self).
Definition get_root (self : DatabaseTree) : addr := db_node self.

(** A path is a list of hops [[table.id, link.id]]; [None] is Python's
    [None]. *)
Abbreviation hop := (string * string)%type (only parsing).
Abbreviation path := (list (string * string)) (only parsing).

Section find_path_loops.
(** [self.find_path(table, target_table, path)], the recursive call. *)
Variable recur : addr -> option path -> M (option path).
Variables curr_table target_table : addr.
Variable current_path : path.
Variable previous_tables : list string.

(** [for table in link.parents]; [Some p] is [return p], [None] is the
    loop running to its end. *)
Fixpoint walk_tables (link : addr) (tables : list addr)
    : M (option path) :=
  match tables with
  | [] => mret None
  | table :: rest =>
      t ← load table;
      if negb (mem_str (id t) previous_tables)
         && negb (bool_decide (table = curr_table))
      then
        l ← load link;
        found ← recur table (Some (current_path ++ [(id t, id l)]));
        match found with
        | Some p =>
            match last p with
            | None => raise IndexError
            | Some h =>
                tg ← load target_table;
                if decide (h.1 = id tg) then mret (Some p)
                else walk_tables link rest
            end
        | None => walk_tables link rest
        end
      else walk_tables link rest
  end.

(** [for link in table_links] *)
Fixpoint walk_links (table_links : list addr) : M (option path) :=
  match table_links with
  | [] => mret None
  | link :: rest =>
      l ← load link;
      if mem_addr target_table (parents l) then
        tg ← load target_table;
        mret (Some (current_path ++ [(id tg, id l)]))
      else
        r ← walk_tables link (parents l);
        match r with
        | Some p => mret (Some p)
        | None => walk_links rest
        end
  end.
End find_path_loops.

(** The candidate links of [find_path]: [get_foreign_keys()], with the
    primary key inserted in front when it has more than one parent. *)
Definition table_links (curr_table : addr) : M (list addr) :=
  links ← get_foreign_keys curr_table;
  pk ← get_primary_key curr_table;
  p ← deref pk;
  pn ← load p;
  if (1 <? length (parents pn))%nat then mret (p :: links) else mret links.

Fixpoint find_path (fuel : nat) (curr_table target_table : addr)
    (current_path : option path) : M (option path) :=
  match fuel with
  | O => starve
  | S fuel' =>
      let current_path := default [] current_path in
      let previous_tables := map fst current_path in
      if decide (curr_table = target_table) then mret (Some current_path)
      else
        links ← table_links curr_table;
        walk_links (fun t p => find_path fuel' t target_table p)
          curr_table target_table current_path previous_tables links
  end.

(** [build_values]: the WHERE clause. *)
Definition nonempty {A} (l : list A) : bool :=
  match l with [] => false | _ => true end.

Definition in_clause (key : string) (values : list string) : string :=
  key +:+ " IN ('" +:+ join "','" values +:+ "')".

Fixpoint column_of_rows (column : string) (rows : list row) : M (list value) :=
  match rows with
  | [] => mret []
  | result :: rest =>
      v ← getitem result column;
      vs ← column_of_rows column rest;
      mret (v :: vs)
  end.

Definition build_values (self : DatabaseTree) (table column : string)
    (values_column : option string) (queries values : list string)
    : M (list value) :=
  table_node ← tree_get_table self table;
  match table_node with
  | None => raise ValueError
  | Some tn =>
      has ← has_column tn column;
      if negb has then raise ValueError
      else
        let query := "SELECT " +:+ column +:+ " FROM " +:+ table in
        let query :=
          if nonempty queries || nonempty values then query +:+ " WHERE "
          else query in
        let query :=
          if nonempty queries then
            let query := query +:+ join " and " queries in
            if nonempty values then query +:+ " and " else query
          else query in
        query ←
          (if nonempty values then
             match values_column with
             | None =>
                 pk ← get_primary_key tn;
                 p ← deref pk;
                 pn ← load p;
                 mret (query +:+ in_clause (id pn) values)
             | Some vc => mret (query +:+ in_clause vc values)
             end
           else mret query);
        rows ← execute_query (sql_handle self) query;
        column_of_rows column rows
  end.

(** * Reading the store

    The notions the properties are stated with: what an address designates
    in a store, and what it means for a store to hold a graph. *)

Definition pars (h : list Node) (a : addr) : list addr :=
  from_option parents [] (h !! a).
Definition kids (h : list Node) (a : addr) : list addr :=
  from_option children [] (h !! a).
Definition name_of (h : list Node) (a : addr) : option string :=
  id <$> h !! a.
Definition primary_key_of (h : list Node) (a : addr) : option addr :=
  match h !! a with
  | Some (mkNode _ _ _ (TableNode pk)) => pk
  | _ => None
  end.
Definition group_of (h : list Node) (a : addr) : option string :=
  match h !! a with
  | Some (mkNode _ _ _ (ColumnNode _ _ _ g)) => Some g
  | _ => None
  end.

(** Every reference held by an object designates an object. *)
Definition closed (h : list Node) : Prop :=
  ∀ a n, h !! a = Some n →
    Forall (λ x, x < length h) (parents n) ∧
    Forall (λ x, x < length h) (children n).

(** What [get_child] finds: the last listed object that carries the id. *)
Definition has_name (h : list Node) (w : string) (a : addr) : bool :=
  bool_decide (name_of h a = Some w).
Definition lookup_id (h : list Node) (w : string) (l : list addr)
    : option addr :=
  last (filter (λ a, has_name h w a = true) l).
Definition resolve (h : list Node) (o : addr) (w : string) : option addr :=
  lookup_id h w (kids h o).

(** The candidate links of a table as the specification words them: the
    children with more than one parent other than the primary key, in child
    order, after the primary key itself when it has more than one parent. *)
Definition foreign_key_role (h : list Node) (pk : option addr) (c : addr)
    : Prop :=
  Some c ≠ pk ∧ 1 < length (pars h c).

#[global] Instance foreign_key_role_dec h pk c :
  Decision (foreign_key_role h pk c).
Proof. unfold foreign_key_role. apply _. Defined.

Definition link_candidates (h : list Node) (t : addr) : list addr :=
  let fks := filter (foreign_key_role h (primary_key_of h t)) (kids h t) in
  match primary_key_of h t with
  | Some pk => if decide (1 < length (pars h pk)) then pk :: fks else fks
  | None => fks
  end.

(** The statement of [build_values] as the specification words it: the
    SELECT, then, when there is a condition, WHERE and the conditions with
    [and] between them; the conditions are [queries] followed, when [values]
    is not empty, by the membership test of the key column [K] among the
    quoted values, with commas between them. *)
Definition quoted (v : string) : string := "'" +:+ v +:+ "'".

Definition separated (sep : string) (l : list string) : string :=
  match l with
  | [] => ""
  | x :: rest => fold_left (λ text y, text +:+ sep +:+ y) rest x
  end.

Definition membership_test (K : string) (values : list string) : string :=
  K +:+ " IN (" +:+ separated "," (quoted <$> values) +:+ ")".

Definition where_conditions (K : string) (queries values : list string)
    : list string :=
  queries ++ match values with
             | [] => []
             | _ :: _ => [membership_test K values]
             end.

Definition expected_sql (table column K : string)
    (queries values : list string) : string :=
  "SELECT " +:+ column +:+ " FROM " +:+ table +:+
  match where_conditions K queries values with
  | [] => ""
  | conditions => " WHERE " +:+ separated " and " conditions
  end.

(** The key column of the membership test: [values_column] when given, the
    id of the table's primary key otherwise. *)
Definition values_key (h : list Node) (tn : addr)
    (values_column : option string) : option string :=
  match values_column with
  | Some vc => Some vc
  | None =>
      match primary_key_of h tn with
      | Some pk => name_of h pk
      | None => None
      end
  end.

(** The column types the specification sends to the cardinality probe: the
    type name stripped of its parameters is enum, char or tinyint, or it is
    varchar with a declared size of at most 15. *)
Definition normalized (raw : string) : string := before " " (before "(" raw).

Definition declared_size (raw : string) : option Z :=
  int_of_digits 0 <$> first_digits raw.

Definition small_varchar (raw : string) : bool :=
  bool_decide (normalized raw = "varchar") &&
  match declared_size raw with
  | Some n => (n <=? 15)%Z
  | None => false
  end.

Definition probed (raw : string) : bool :=
  small_varchar raw ||
  bool_decide (normalized raw ∈ ["enum"; "char"; "tinyint"]).

(** The group such a column has when the probe starts: a small varchar has
    just been put in the text group, the other probed types are in neither
    the text nor the numeric list and still carry the group they had. *)
Definition group_before_probe (raw g0 : string) : string :=
  if small_varchar raw then "str_set" else g0.

Definition set_node_group (n : Node) (g : string) : Node :=
  match cls n with
  | ColumnNode ty nl k _ => set_cls n (ColumnNode ty nl k g)
  | _ => n
  end.

(** ** Graphs built through the methods

    The calls that create objects and add or remove edges, and the states a
    program reaches from the empty store by such calls on objects that
    exist. *)
Inductive call :=
  | NewNode (i : string)
  | NewDatabaseNode (i : string)
  | NewTableNode (i : string)
  | NewColumnNode (i : string) (type : option string) (Null : option bool)
                  (key : option string)
  | AddParent (self parent_node : addr)
  | AddChild (self child_node : addr)
  | CreateParent (self : addr) (parent_id : string)
  | CreateChild (self : addr) (child_id : string)
  | RemoveParent (self : addr) (parent_node : option addr)
  | RemoveChild (self : addr) (child_node : option addr)
  | DbCreateTable (self : addr) (table : string)
  | DbAddTable (self table_node : addr)
  | DbRemoveTable (self : addr) (table : option addr)
  | TableCreateColumn (self : addr) (column : string)
  | TableAddColumn (self column_node : addr)
  | TableRemoveColumn (self : addr) (column_node : option addr)
  | ColumnCreateTable (self : addr) (table : string)
  | ColumnAddTable (self table_node : addr)
  | ColumnRemoveTable (self : addr) (table : option addr).

Definition perform (c : call) : M unit :=
  match c with
  | NewNode i => new_Node i;; mret tt
  | NewDatabaseNode i => new_DatabaseNode i;; mret tt
  | NewTableNode i => new_TableNode i;; mret tt
  | NewColumnNode i ty nl k => new_ColumnNode i ty nl k;; mret tt
  | AddParent self p => add_parent self p
  | AddChild self c => add_child self c
  | CreateParent self i => create_parent self i;; mret tt
  | CreateChild self i => create_child self i;; mret tt
  | RemoveParent self p => remove_parent self p;; mret tt
  | RemoveChild self c => remove_child self c;; mret tt
  | DbCreateTable self i => create_table self i;; mret tt
  | DbAddTable self t => add_table self t
  | DbRemoveTable self t => remove_table self t;; mret tt
  | TableCreateColumn self i => create_column self i;; mret tt
  | TableAddColumn self c => add_column self c
  | TableRemoveColumn self c => remove_column self c;; mret tt
  | ColumnCreateTable self i => column_create_table self i;; mret tt
  | ColumnAddTable self t => column_add_table self t
  | ColumnRemoveTable self t => column_remove_table self t;; mret tt
  end.

(** The objects a call is made on or passed. *)
Definition call_objects (c : call) : list addr :=
  match c with
  | NewNode _ | NewDatabaseNode _ | NewTableNode _ | NewColumnNode _ _ _ _ => []
  | AddParent a b | AddChild a b | DbAddTable a b | TableAddColumn a b
  | ColumnAddTable a b => [a; b]
  | CreateParent a _ | CreateChild a _ | DbCreateTable a _
  | TableCreateColumn a _ | ColumnCreateTable a _ => [a]
  | RemoveParent a b | RemoveChild a b | DbRemoveTable a b
  | TableRemoveColumn a b | ColumnRemoveTable a b =>
      a :: match b with Some x => [x] | None => [] end
  end.

Inductive built : state → Prop :=
  | built_empty : built (mkState [] [])
  | built_call st c :
      built st →
      Forall (λ a, a < length (heap st)) (call_objects c) →
      built (perform c st).2.

(** Edges come in pairs: an object is listed among the children of another
    as many times as the other is listed among its parents. *)
Definition paired (h : list Node) : Prop :=
  ∀ p c, count_occ Nat.eq_dec (kids h p) c = count_occ Nat.eq_dec (pars h c) p.

(** What a call that only rewires edges leaves alone: the statements
    sent, the number of objects, and the id and class of every object. *)
Definition label (h : list Node) (a : addr) : option (string * kind) :=
  (λ n, (id n, cls n)) <$> h !! a.

Definition same_objects (st st' : state) : Prop :=
  sent st' = sent st ∧
  length (heap st') = length (heap st) ∧
  ∀ a, label (heap st') a = label (heap st) a.

(** The edge from parent [p] to child [c] was added at the end of both
    lists, and nothing else changed. *)
Definition edge_added (st st' : state) (p c : addr) : Prop :=
  same_objects st st' ∧
  (∀ a, kids (heap st') a =
        if decide (a = p) then kids (heap st) p ++ [c] else kids (heap st) a) ∧
  (∀ a, pars (heap st') a =
        if decide (a = c) then pars (heap st) c ++ [p] else pars (heap st) a).

(** The first listing of the edge from [p] to [c] was removed from both
    lists, and nothing else changed. *)
Definition edge_removed (st st' : state) (p c : addr) : Prop :=
  same_objects st st' ∧
  ∃ lk lp,
    list_remove c (kids (heap st) p) = Some lk ∧
    list_remove p (pars (heap st) c) = Some lp ∧
    (∀ a, kids (heap st') a = if decide (a = p) then lk else kids (heap st) a) ∧
    (∀ a, pars (heap st') a = if decide (a = c) then lp else pars (heap st) a).

(** ** Chains of shared keys

    Two tables are linked when some object with more than one parent lists
    both among its parents; a chain is a sequence of links. *)
Definition linked (h : list Node) (t t' : addr) : Prop :=
  ∃ c, 1 < length (pars h c) ∧ t ∈ pars h c ∧ t' ∈ pars h c.

Definition connected (h : list Node) : relation addr := rtc (linked h).

(** A table [find_path] can start from: it has a primary key, the primary
    key lists it as a parent once it is shared, and every child lists it as
    a parent. *)
Definition keyed_table (h : list Node) (t : addr) : Prop :=
  ∃ n pk,
    h !! t = Some n ∧ cls n = TableNode (Some pk) ∧ is_Some (h !! pk) ∧
    (1 < length (pars h pk) → t ∈ pars h pk) ∧
    (∀ c, c ∈ children n → t ∈ pars h c).

(** The ids of the store not yet on a path: what bounds the depth of
    [find_path]. *)
Definition unvisited (h : list Node) (previous_tables : list string) : nat :=
  length (filter (λ i, i ∉ previous_tables) (map id h)).

(** What the specification states about unreachable tables, in its words. *)
Definition unreachable_gives_no_path (st : state) (A B : addr) : Prop :=
  A ≠ B → ¬ connected (heap st) A B →
  ∃ fuel, find_path fuel A B None st = (Ok None, st).

(** ** A catalog fixture

    A server described by its tables (name and SHOW COLUMNS rows: Field,
    Type, Null, Key) and its foreign keys, answering the three kinds of
    introspection statements and nothing else. *)

Record table_desc := mkTable {
  t_name : string;
  t_columns : list (string * string * string * string)
}.

Record fk_desc := mkFk {
  fk_table : string;
  fk_column : string;
  fk_ref_table : string
}.

Definition column_row (c : string * string * string * string) : row :=
  let '(f, ty, nl, k) := c in
  [("Field", VStr f); ("Type", VStr ty); ("Null", VStr nl); ("Key", VStr k)].

Definition fk_row (f : fk_desc) : row :=
  [("TABLE_NAME", VStr (fk_table f)); ("COLUMN_NAME", VStr (fk_column f));
   ("CONSTRAINT_NAME", VStr (fk_table f +:+ "_ibfk"));
   ("REFERENCED_TABLE_NAME", VStr (fk_ref_table f));
   ("REFERENCED_COLUMN_NAME", VStr (fk_column f))].

Definition fks_to (fks : list fk_desc) (t : string) : list fk_desc :=
  filter (fun f => fk_ref_table f = t) fks.

Fixpoint catalog_lookup (db : string) (fks : list fk_desc)
    (tables : list table_desc) (q : string) : list row :=
  match tables with
  | [] => []
  | t :: rest =>
      if decide (q = column_query (t_name t)) then map column_row (t_columns t)
      else if decide (q = foreign_key_query (mkHandle db (fun _ => []))
                               (t_name t))
      then map fk_row (fks_to fks (t_name t))
      else catalog_lookup db fks rest q
  end.

Definition catalog (db : string) (tables : list table_desc)
    (fks : list fk_desc) : MySQLConnectionHandler :=
  mkHandle db (fun q =>
    if decide (q = table_query (mkHandle db (fun _ => [])))
    then map (fun t => [("TABLE_NAME", VStr (t_name t))]) tables
    else catalog_lookup db fks tables q).

Definition empty_state : state := mkState [] [].

#[global] Instance fk_desc_eq_dec : EqDecision fk_desc.
Proof. solve_decision. Defined.

(** ** Canonicalization of foreign keys

    What a result row of the constraint query tells the loop, and the
    objects a constraint names in a store: the referencing table, the
    referenced table, and the column of that name each of them resolves. *)
Definition row_says (r : row) (f : fk_desc) : Prop :=
  row_get r "TABLE_NAME" = Some (VStr (fk_table f)) ∧
  row_get r "COLUMN_NAME" = Some (VStr (fk_column f)).

Definition fk_key (f : fk_desc) : string * string :=
  (fk_table f, fk_column f).

Definition is_table (h : list Node) (a : addr) : Prop :=
  ∃ n pk, h !! a = Some n ∧ cls n = TableNode pk.

Record site := mkSite {
  s_ref : addr;
  s_table : addr;
  s_pk : addr;
  s_fk : addr
}.

Definition sited (h : list Node) (d : addr) (f : fk_desc) (s : site) : Prop :=
  resolve h d (fk_table f) = Some (s_ref s) ∧
  resolve h d (fk_ref_table f) = Some (s_table s) ∧
  resolve h (s_table s) (fk_column f) = Some (s_pk s) ∧
  resolve h (s_ref s) (fk_column f) = Some (s_fk s).

(** What the specification states about a constraint, in its words, and as the
    code has it: the referencing table resolves the column to the canonical
    vertex. *)
Definition canonical_as_claimed (h : list Node) (d : addr) (f : fk_desc)
    : Prop :=
  ∃ r t pk,
    resolve h d (fk_table f) = Some r ∧
    resolve h d (fk_ref_table f) = Some t ∧
    resolve h t (fk_column f) = Some pk ∧
    t ∈ pars h pk ∧ r ∈ pars h pk ∧
    resolve h r (fk_column f) = None.

Definition canonical (h : list Node) (d : addr) (f : fk_desc) : Prop :=
  ∃ r t pk,
    resolve h d (fk_table f) = Some r ∧
    resolve h d (fk_ref_table f) = Some t ∧
    resolve h t (fk_column f) = Some pk ∧
    t ∈ pars h pk ∧ r ∈ pars h pk ∧
    resolve h r (fk_column f) = Some pk.

(** What the specification states about a table without primary key, in
    its words: whatever the target, the call raises AttributeError. *)
Definition keyless_call_raises (st : state) (curr target : addr) : Prop :=
  is_table (heap st) curr → primary_key_of (heap st) curr = None →
  ∃ fuel, (find_path fuel curr target None st).1 = Raise AttributeError.

(** Objects keep their ids, and tables stay tables. *)
Definition same_names (h h' : list Node) : Prop :=
  length h' = length h ∧
  (∀ a, name_of h' a = name_of h a) ∧
  (∀ a, is_table h a → is_table h' a).

(** A populated tree whose constraints form no chain: every constraint
    names two tables that both have the column, the referencing column is
    still owned by its table alone, a table references at most one table
    through a given column, and no table is referenced through a column
    name it references another table with. *)
Record flat_schema (hd : MySQLConnectionHandler) (h : list Node) (d : addr)
    (fks : list fk_desc) : Prop := {
  fs_closed : closed h;
  fs_paired : paired h;
  fs_root : is_Some (h !! d);
  fs_root_apart : d ∉ kids h d;
  fs_tables_nodup : NoDup (kids h d);
  fs_tables_named :
    ∀ X, X ∈ kids h d → ∃ n, name_of h X = Some n ∧ resolve h d n = Some X;
  fs_answers :
    ∀ X n, X ∈ kids h d → name_of h X = Some n →
      Forall2 row_says (answer hd (foreign_key_query hd n)) (fks_to fks n);
  fs_sites :
    ∀ f, f ∈ fks →
      ∃ s, sited h d f s ∧ is_table h (s_ref s) ∧
           s_table s ∈ pars h (s_pk s) ∧ pars h (s_fk s) = [s_ref s];
  fs_keys : NoDup (map fk_key fks);
  fs_flat :
    ∀ f1 f2, f1 ∈ fks → f2 ∈ fks → fk_column f1 = fk_column f2 →
      fk_table f1 ≠ fk_ref_table f2
}.

(** The state of the graph between two constraints: [done] lists the
    constraints processed so far. *)
Record webs_inv (h0 : list Node) (d : addr) (fks done : list fk_desc)
    (h : list Node) : Prop := {
  wi_closed : closed h;
  wi_paired : paired h;
  wi_length : length h = length h0;
  wi_names : ∀ a, name_of h a = name_of h0 a;
  wi_tables : ∀ a, is_table h0 a → is_table h a;
  wi_root : kids h d = kids h0 d;
  wi_sites :
    ∀ f s, f ∈ fks → sited h0 d f s →
      resolve h (s_table s) (fk_column f) = Some (s_pk s) ∧
      s_table s ∈ pars h (s_pk s) ∧
      (f ∈ done →
         resolve h (s_ref s) (fk_column f) = Some (s_pk s) ∧
         s_ref s ∈ pars h (s_pk s) ∧ pars h (s_fk s) = []) ∧
      (f ∉ done →
         resolve h (s_ref s) (fk_column f) = Some (s_fk s) ∧
         pars h (s_fk s) = [s_ref s])
}.

(** The constraints whose referenced table is among the first [i] tables
    of the root. *)
Definition covered (h0 : list Node) (d : addr) (i : nat) (f : fk_desc)
    : Prop :=
  ∃ j X, j < i ∧ kids h0 d !! j = Some X ∧
         name_of h0 X = Some (fk_ref_table f).

(** A cut of the Actino_Draft schema: [gene] references [phage] through
    PhageID, and [version] has no primary key. *)
Definition actino : MySQLConnectionHandler :=
  catalog "Actino_Draft"
    [mkTable "gene" [("GeneID", "varchar(35)", "NO", "PRI");
                      ("PhageID", "varchar(25)", "NO", "MUL")];
     mkTable "phage" [("PhageID", "varchar(25)", "NO", "PRI");
                       ("Cluster", "varchar(5)", "YES", "")];
     mkTable "version" [("Version", "int(11)", "NO", "");
                         ("SchemaVersion", "int(11)", "NO", "")]]
    [mkFk "gene" "PhageID" "phage"].

(** A schema with a chain: [gene] and [tmrna] reference [phage], and
    [phage] references [sequenced], all through PhageID. *)
Definition chain : MySQLConnectionHandler :=
  catalog "Actino_Draft"
    [mkTable "gene" [("GeneID", "varchar(35)", "NO", "PRI");
                      ("PhageID", "varchar(25)", "NO", "MUL")];
     mkTable "phage" [("PhageID", "varchar(25)", "NO", "PRI")];
     mkTable "sequenced" [("PhageID", "varchar(25)", "NO", "PRI")];
     mkTable "tmrna" [("TmrnaID", "varchar(35)", "NO", "PRI");
                       ("PhageID", "varchar(25)", "NO", "MUL")]]
    [mkFk "gene" "PhageID" "phage"; mkFk "tmrna" "PhageID" "phage";
     mkFk "phage" "PhageID" "sequenced"].

(** The same schema with the two constraints on [phage] answered in the
    other order. *)
Definition chain_swapped : MySQLConnectionHandler :=
  catalog "Actino_Draft"
    [mkTable "gene" [("GeneID", "varchar(35)", "NO", "PRI");
                      ("PhageID", "varchar(25)", "NO", "MUL")];
     mkTable "phage" [("PhageID", "varchar(25)", "NO", "PRI")];
     mkTable "sequenced" [("PhageID", "varchar(25)", "NO", "PRI")];
     mkTable "tmrna" [("TmrnaID", "varchar(35)", "NO", "PRI");
                       ("PhageID", "varchar(25)", "NO", "MUL")]]
    [mkFk "tmrna" "PhageID" "phage"; mkFk "gene" "PhageID" "phage";
     mkFk "phage" "PhageID" "sequenced"].

(** The same server, answering one more statement. *)
Definition with_rows (h : MySQLConnectionHandler) (sql : string)
    (rows : list row) : MySQLConnectionHandler :=
  mkHandle (database h)
    (λ q, if decide (q = sql) then rows else answer h q).

(** The graph after the two introspection phases. *)
Definition build (fuel : nat) (h : MySQLConnectionHandler) : M addr :=
  d ← new_DatabaseNode (database h);
  setup_db_tree_leaves h d;;
  setup_db_tree_webs fuel h d;;
  mret d.

Definition built_state (h : MySQLConnectionHandler) : state :=
  (build (S (length (answer h (table_query h)))) h empty_state).2.

(** A decidable check that a store is closed. *)
Definition closedb (h : list Node) : bool :=
  forallb (λ n, forallb (λ x, x <? length h) (parents n) &&
                forallb (λ x, x <? length h) (children n)) h.

(** The tree after the first introspection phase only. *)
Definition leaves_state (h : MySQLConnectionHandler) : state :=
  ((d ← new_DatabaseNode (database h); setup_db_tree_leaves h d) empty_state).2.

(** Decidable checks on a concrete store: edges are paired, and a set of
    tables is closed under links. *)
Definition pairedb (h : list Node) : bool :=
  forallb (λ p,
    forallb (λ c,
      count_occ Nat.eq_dec (kids h p) c =? count_occ Nat.eq_dec (pars h c) p)
      (seq 0 (length h)))
    (seq 0 (length h)).

Definition component_closed (h : list Node) (S : list addr) : bool :=
  forallb (λ n,
    if 1 <? length (parents n) then
      if existsb (λ x, mem_addr x S) (parents n)
      then forallb (λ x, mem_addr x S) (parents n)
      else true
    else true) h.

(** Two plain nodes and one edge, built through the methods. *)
Definition two_nodes : state :=
  (perform (AddChild 0 1)
     (perform (NewNode "b") (perform (NewNode "a") (mkState [] [])).2).2).2.

(** The SELECT of the specification's example, and a server that answers
    it; a server that answers the cardinality probe of phage.Cluster. *)
Definition trixie_l5 : string :=
  expected_sql "phage" "PhageID" "PhageID" [] ["Trixie"; "L5"].

Definition actino_with_phages : MySQLConnectionHandler :=
  with_rows actino trixie_l5
    [[("PhageID", VStr "Trixie")]; [("PhageID", VStr "L5")]].

Definition actino_with_clusters (count : Z) : MySQLConnectionHandler :=
  with_rows actino (count_query "Cluster" "phage")
    [[(count_field "Cluster", VInt count)]].

Definition phage_table : Node :=
  mkNode "phage" [0] [5; 6] (TableNode (Some 5)).
Definition cluster_column : Node :=
  mkNode "Cluster" [4] []
    (ColumnNode (Some "varchar(5)") (Some true) (Some "") "Undefined").

(** * More of the module *)

(** The loop of [show_foreign_keys]: like [get_foreign_keys], but the ids
    are collected. *)
Fixpoint collect_foreign_key_ids (pk : option addr) (cols : list addr)
    (foreign_keys : list string) : M (list string) :=
  match cols with
  | [] => mret foreign_keys
  | column :: rest =>
      if decide (Some column = pk)
      then collect_foreign_key_ids pk rest foreign_keys
      else
        cn ← load column;
        if (1 <? length (parents cn))%nat
        then collect_foreign_key_ids pk rest (foreign_keys ++ [id cn])
        else collect_foreign_key_ids pk rest foreign_keys
  end.

Definition show_foreign_keys (self : addr) : M (list string) :=
  n ← load self;
  pk ← get_primary_key self;
  collect_foreign_key_ids pk (children n) [].

(** [ColumnNode.show_info]: the list [[id, parse_type(), group, null, key]]
    as a record. *)
Record column_info := mkInfo {
  info_id : string;
  info_type : string;
  info_group : string;
  info_null : option bool;
  info_key : option string
}.

Definition show_info (self : addr) : M column_info :=
  n ← load self;
  ty ← parse_type self;
  match cls n with
  | ColumnNode _ nl k g => mret (mkInfo (id n) ty g nl k)
  | _ => raise AttributeError
  end.

(** [TableNode.show_columns_info] *)
Fixpoint infos_of (cols : list addr) : M (list column_info) :=
  match cols with
  | [] => mret []
  | c :: rest => i ← show_info c; r ← infos_of rest; mret (i :: r)
  end.

Definition show_columns_info (self : addr) : M (list column_info) :=
  n ← load self; infos_of (children n).

(** A computation that leaves the store and the statement log as they
    were, whatever it returns or raises. *)
Definition reads_only {A} (m : M A) : Prop := ∀ st, (m st).2 = st.

(** A computation that leaves the store as it was and sends at most one
    statement. *)
Definition sends_at_most_one {A} (m : M A) : Prop :=
  ∀ st, heap (m st).2 = heap st ∧
        (sent (m st).2 = sent st ∨ ∃ q, sent (m st).2 = sent st ++ [q]).

(** The type name the classifier works with, and the group its two lists
    give a column that had group [g0]. *)
Definition final_type (raw : string) : string :=
  if small_varchar raw then "varchar_sm" else normalized raw.

Definition type_group (raw g0 : string) : string :=
  if mem_str (final_type raw) str_sets then "str_set"
  else if mem_str (final_type raw) num_sets then "num_set"
  else g0.

(** The characters of a string. *)
Definition chars (s : string) : list ascii := list_ascii_of_string s.

(** A join path from one table to another: every hop names a table and a
    shared column that lists both the table before and that table among
    its parents. *)
Inductive hops_from (h : list Node) : addr → list (string * string) → addr → Prop :=
  | hops_done t : hops_from h t [] t
  | hops_step t l t' tid lid rest B :
      1 < length (pars h l) → t ∈ pars h l → t' ∈ pars h l →
      name_of h t' = Some tid → name_of h l = Some lid →
      hops_from h t' rest B →
      hops_from h t ((tid, lid) :: rest) B.

(** The statements [setup_db_tree_webs] sends for the tables [tabs], and a
    table the server reports no constraint towards. *)
Definition constraint_queries (hd : MySQLConnectionHandler) (h : list Node)
    (tabs : list addr) : list string :=
  omap (λ t, foreign_key_query hd <$> name_of h t) tabs.

Definition unconstrained (hd : MySQLConnectionHandler) (h : list Node)
    (t : addr) : Prop :=
  ∀ w, name_of h t = Some w → answer hd (foreign_key_query hd w) = [].

(** A store of [N] objects named by [names], whose references designate
    objects and whose edges are paired; and a computation that keeps it so
    whatever it returns, with [Q] holding of a returned value. *)
Definition well_linked (N : nat) (names : addr → option string)
    (st : state) : Prop :=
  length (heap st) = N ∧ (∀ a, name_of (heap st) a = names a) ∧
  closed (heap st) ∧ paired (heap st).

Definition keeps {A} (N : nat) (names : addr → option string) (m : M A)
    (Q : A → Prop) : Prop :=
  ∀ st, well_linked N names st →
    well_linked N names (m st).2 ∧ ∀ a, (m st).1 = Ok a → Q a.

(** A store that may have gained objects, the old ones keeping their
    names. *)
Definition grown (N : nat) (names : addr → option string) (st : state)
    : Prop :=
  ∃ N' names', well_linked N' names' st ∧ N ≤ N' ∧
    ∀ a, a < N → names' a = names a.

(** An object without its group attribute. *)
Definition ungrouped (n : Node) : Node := set_node_group n "".

Definition only_groups {A} (m : M A) : Prop :=
  ∀ st, ungrouped <$> heap (m st).2 = ungrouped <$> heap st.

(** The column a row of [SHOW columns] describes, as a child of table [t]
    alone, and the key attribute of a column. *)
Definition row_text (r : row) (k : string) : option string :=
  match row_get r k with
  | Some (VStr s) => Some s
  | _ => None
  end.

Definition column_of_row (t : addr) (r : row) : option Node :=
  match row_get r "Null", row_text r "Field", row_text r "Type",
        row_text r "Key" with
  | Some nl, Some field, Some ty, Some key =>
      Some (mkNode field [t] []
              (ColumnNode (Some ty) (Some (bool_decide (nl = VStr "YES")))
                 (Some key) "Undefined"))
  | _, _, _, _ => None
  end.

Definition key_of (n : Node) : option string :=
  match cls n with
  | ColumnNode _ _ k _ => k
  | _ => None
  end.

Definition primary (n : Node) : Prop := key_of n = Some "PRI".

#[global] Instance primary_dec (n : Node) : Decision (primary n).
Proof. unfold primary. apply _. Defined.

(** The primary key after the columns [cols], allocated from [c0] on, were
    added to a table whose primary key was [pk]. *)
Fixpoint primary_after (c0 : addr) (cols : list Node) (pk : option addr)
    : option addr :=
  match cols with
  | [] => pk
  | n :: rest =>
      primary_after (S c0) rest (if decide (primary n) then Some c0 else pk)
  end.

(** [p] is the address of the last primary column among [cols], allocated
    from [c0] on. *)
Definition last_primary (c0 : addr) (cols : list Node) (p : option addr)
    : Prop :=
  match p with
  | Some a =>
      ∃ i n, a = c0 + i ∧ cols !! i = Some n ∧ primary n ∧
             ∀ j n', i < j → cols !! j = Some n' → ¬ primary n'
  | None => ∀ n, n ∈ cols → ¬ primary n
  end.

(** A route from table [t] to table [B] that [find_path] can follow when the
    ids in [prev] are already on the path: a column shared with [B], or a
    column shared with another table whose id is new, from which there is a
    route once that id is on the path. *)
Inductive route (h : list Node) (B : addr) : list string → addr → Prop :=
  | route_last prev t l :
      1 < length (pars h l) → t ∈ pars h l → B ∈ pars h l →
      route h B prev t
  | route_step prev t l t' w :
      1 < length (pars h l) → t ∈ pars h l → t' ∈ pars h l → t' ≠ t →
      name_of h t' = Some w → w ∉ prev →
      route h B (prev ++ [w]) t' →
      route h B prev t.

(** [B] can be reached from [t] through shared columns without entering a
    table whose id is in [prev]. *)
Inductive reach (h : list Node) (B : addr) : list string → addr → Prop :=
  | reach_here prev : reach h B prev B
  | reach_step prev t t' w :
      linked h t t' → name_of h t' = Some w → w ∉ prev →
      reach h B prev t' →
      reach h B prev t.

(** The tables connected to [A] have pairwise different ids. *)
Definition distinct_ids (h : list Node) (A : addr) : Prop :=
  ∀ a b, connected h A a → connected h A b →
    name_of h a = name_of h b → a = b.

(** ** The classifier in the words of the specification

    The type name of a raw column type is what precedes its parameters: the
    longest prefix without an opening parenthesis or a space.  The declared
    size is the first number written in the raw type. *)
Fixpoint type_name (raw : string) : string :=
  match raw with
  | EmptyString => EmptyString
  | String c rest =>
      if decide (c = "("%char ∨ c = " "%char) then EmptyString
      else String c (type_name rest)
  end.

Definition digit_value (c : ascii) : option Z :=
  match c with
  | "0"%char => Some 0%Z | "1"%char => Some 1%Z | "2"%char => Some 2%Z
  | "3"%char => Some 3%Z | "4"%char => Some 4%Z | "5"%char => Some 5%Z
  | "6"%char => Some 6%Z | "7"%char => Some 7%Z | "8"%char => Some 8%Z
  | "9"%char => Some 9%Z
  | _ => None
  end.

Fixpoint number_from (n : Z) (s : string) : Z :=
  match s with
  | EmptyString => n
  | String c rest =>
      match digit_value c with
      | Some d => number_from (10 * n + d) rest
      | None => n
      end
  end.

Fixpoint first_number (s : string) : option Z :=
  match s with
  | EmptyString => None
  | String c rest =>
      match digit_value c with
      | Some d => Some (number_from d rest)
      | None => first_number rest
      end
  end.

(** The columns counted by the cardinality probe: varchar with a declared
    size of at most 15, enum, char and tinyint. *)
Definition small_text (raw : string) : bool :=
  bool_decide (type_name raw = "varchar") &&
  match first_number raw with
  | Some size => (size <=? 15)%Z
  | None => false
  end.

Definition counted (raw : string) : bool :=
  small_text raw || bool_decide (type_name raw ∈ ["enum"; "char"; "tinyint"]).

(** The group a pass of the classifier gives a column that had group [g]:
    the text group for blob, mediumblob and varchar, the numeric group for
    int, decimal, mediumint, float, datetime and double, the group it had
    otherwise; and over that, [limited_set] for a counted column whose
    count [z] is below 150. *)
Definition text_types : list string := ["blob"; "mediumblob"; "varchar"].
Definition number_types : list string :=
  ["int"; "decimal"; "mediumint"; "float"; "datetime"; "double"].

Definition base_group (raw g : string) : string :=
  if bool_decide (type_name raw ∈ text_types) then "str_set"
  else if bool_decide (type_name raw ∈ number_types) then "num_set"
  else g.

Definition classified (raw : string) (z : Z) (g : string) : string :=
  if counted raw && (z <? 150)%Z then "limited_set" else base_group raw g.

(** The statement of the probe and the field its answer carries. *)
Definition probe_text (column table : string) : string :=
  String.concat "" ["SELECT COUNT(DISTINCT "; column; ") FROM "; table].
Definition count_label (column : string) : string :=
  String.concat "" ["COUNT(DISTINCT "; column; ")"].

(** The raw type of a column, and the pairs of a table of the root and a
    column among its children, in the order the classifier visits them. *)
Definition type_of (h : list Node) (a : addr) : option string :=
  match h !! a with
  | Some (mkNode _ _ _ (ColumnNode (Some raw) _ _ _)) => Some raw
  | _ => None
  end.

Definition listings (h : list Node) (d : addr) : list (addr * addr) :=
  flat_map (λ t, pair t <$> kids h t) (kids h d).

Definition probe_of (h : list Node) (p : addr * addr) : list string :=
  match name_of h p.1, name_of h p.2, type_of h p.2 with
  | Some table, Some column, Some raw =>
      if counted raw then [probe_text column table] else []
  | _, _, _ => []
  end.

(** The group of column [c] after the passes of the listings [ls], one
    pass for each table that lists it, each starting from the group the
    pass before left. *)
Definition passes (counts : addr → addr → Z) (c : addr)
    (ls : list (addr * addr)) (raw g0 : string) : string :=
  foldl (λ g p, classified raw (counts p.1 c) g) g0
    (filter (λ p, p.2 = c) ls).

(** A tree the classifier runs through: the tables of the root are there,
    their children are columns with a type, no type name is the tag
    [varchar_sm] the classifier uses for a small varchar, a varchar declares
    a size, and the server answers the probe of every counted column with a
    first row that carries the count. *)
Record classifiable (hd : MySQLConnectionHandler) (h : list Node) (d : addr)
    (counts : addr → addr → Z) : Prop := {
  cl_root : is_Some (h !! d);
  cl_tables : ∀ t, t ∈ kids h d → is_Some (h !! t);
  cl_columns : ∀ t c, t ∈ kids h d → c ∈ kids h t →
    ∃ raw, type_of h c = Some raw ∧ type_name raw ≠ "varchar_sm" ∧
           (type_name raw = "varchar" → is_Some (first_number raw));
  cl_answers : ∀ t c table column raw,
    t ∈ kids h d → c ∈ kids h t →
    name_of h t = Some table → name_of h c = Some column →
    type_of h c = Some raw → counted raw = true →
    ∃ r rest, answer hd (probe_text column table) = r :: rest ∧
              row_get r (count_label column) = Some (VInt (counts t c))
}.

(** What the specification states about the probe, in its words: for every
    counted column of the tree one COUNT(DISTINCT column) statement is sent,
    and the column ends in group [limited_set] exactly when the count the
    server answered is below 150. *)
Definition counting (column : string) (log : list string) : list string :=
  filter (λ q, String.prefix
                 (String.concat "" ["SELECT COUNT(DISTINCT "; column; ") FROM "])
                 q = true) log.

Definition probes_as_claimed (hd : MySQLConnectionHandler) (st : state)
    (d : addr) : Prop :=
  ∀ st', setup_grouping_options hd d st = (Ok tt, st') →
  ∀ c column raw,
    c ∈ (snd <$> listings (heap st) d) →
    name_of (heap st) c = Some column → type_of (heap st) c = Some raw →
    counted raw = true →
    ∃ table r rest z,
      counting column (drop (length (sent st)) (sent st'))
        = [probe_text column table] ∧
      answer hd (probe_text column table) = r :: rest ∧
      row_get r (count_label column) = Some (VInt z) ∧
      (group_of (heap st') c = Some "limited_set" ↔ (z < 150)%Z).

(** A schema in which a counted column is shared: [gene] references the
    key Cluster of [cluster], a char(2); the server counts no cluster among
    the genes and 200 in [cluster]. *)
Definition clusters : MySQLConnectionHandler :=
  with_rows
    (with_rows
       (catalog "Actino_Draft"
          [mkTable "gene" [("GeneID", "varchar(35)", "NO", "PRI");
                            ("Cluster", "char(2)", "NO", "MUL")];
           mkTable "cluster" [("Cluster", "char(2)", "NO", "PRI")]]
          [mkFk "gene" "Cluster" "cluster"])
       (probe_text "Cluster" "gene") [[(count_label "Cluster", VInt 0)]])
    (probe_text "Cluster" "cluster") [[(count_label "Cluster", VInt 200)]].

(** The state the classifier has reached from [st0] when the listings
    [done] have had their pass. *)
Definition classified_through (counts : addr → addr → Z) (st0 : state)
    (done : list (addr * addr)) (st1 : state) : Prop :=
  sent st1 = sent st0 ++ flat_map (probe_of (heap st0)) done ∧
  ungrouped <$> heap st1 = ungrouped <$> heap st0 ∧
  ∀ c raw g0,
    type_of (heap st0) c = Some raw → group_of (heap st0) c = Some g0 →
    group_of (heap st1) c = Some (passes counts c done raw g0).

(** A table that has its primary key, the key listing the table among its
    parents once it is shared. *)
Definition owns_key (h : list Node) (t : addr) : Prop :=
  ∃ n pk,
    h !! t = Some n ∧ cls n = TableNode (Some pk) ∧ is_Some (h !! pk) ∧
    (1 < length (pars h pk) → t ∈ pars h pk).

(** * Properties *)

(** ** Running a computation *)

Lemma bind_run {A B} (m : M A) (f : A → M B) st :
  (m ≫= f) st =
  match m st with
  | (Ok a, st') => f a st'
  | (Raise e, st') => (Raise e, st')
  | (Starved, st') => (Starved, st')
  end.
Proof. reflexivity. Qed.

Lemma bind_ok {A B} (m : M A) (f : A → M B) st a st' :
  m st = (Ok a, st') → (m ≫= f) st = f a st'.
Proof. intros H. rewrite bind_run, H. reflexivity. Qed.

Lemma bind_raise {A B} (m : M A) (f : A → M B) st e st' :
  m st = (Raise e, st') → (m ≫= f) st = (Raise e, st').
Proof. intros H. rewrite bind_run, H. reflexivity. Qed.

Lemma load_ok st a n : heap st !! a = Some n → load a st = (Ok n, st).
Proof. intros H. unfold load. rewrite H. reflexivity. Qed.

Lemma pars_lookup h a n : h !! a = Some n → pars h a = parents n.
Proof. intros H. unfold pars. rewrite H. reflexivity. Qed.

Lemma kids_lookup h a n : h !! a = Some n → kids h a = children n.
Proof. intros H. unfold kids. rewrite H. reflexivity. Qed.

Lemma closed_lookup h a n x :
  closed h → h !! a = Some n → x ∈ parents n ∨ x ∈ children n →
  is_Some (h !! x).
Proof.
  intros Hc Ha Hx. destruct (Hc a n Ha) as [Hp Hk].
  apply lookup_lt_is_Some.
  rewrite Forall_forall in Hp, Hk. destruct Hx; auto.
Qed.

(** ** find_path on a table and itself *)

(** C5: [find_path(X, X)] returns the empty path and [find_path(X, X, p)]
    returns [p] unchanged, in any store and for any recursion budget that
    allows the call at all. *)
Theorem find_path_same_table (fuel : nat) (X : addr) (p : path) (st : state) :
  find_path (S fuel) X X None st = (Ok (Some []), st) ∧
  find_path (S fuel) X X (Some p) st = (Ok (Some p), st).
Proof.
  split; simpl; destruct (decide (X = X)); try congruence; reflexivity.
Qed.

(** ** The candidate links of find_path *)

Lemma collect_foreign_keys_run st pk cols acc :
  Forall (λ c, is_Some (heap st !! c)) cols →
  collect_foreign_keys pk cols acc st =
  (Ok (acc ++ filter (foreign_key_role (heap st) pk) cols), st).
Proof.
  intros Hall. revert acc. induction Hall as [|c cols [cn Hc] _ IH]; intros acc.
  - simpl. rewrite app_nil_r. reflexivity.
  - simpl. rewrite filter_cons.
    destruct (decide (Some c = pk)) as [Heq|Hne].
    + rewrite IH. destruct (decide (foreign_key_role (heap st) pk c)) as [[Hn _]|_];
        [contradiction | reflexivity].
    + rewrite (bind_ok _ _ _ _ _ (load_ok _ _ _ Hc)).
      assert (Hlen : length (pars (heap st) c) = length (parents cn))
        by (unfold pars; rewrite Hc; reflexivity).
      destruct (1 <? length (parents cn)) eqn:Hlt.
      * apply Nat.ltb_lt in Hlt. rewrite IH.
        destruct (decide (foreign_key_role (heap st) pk c)) as [_|Hn].
        -- rewrite <- app_assoc. reflexivity.
        -- exfalso. apply Hn. split; [assumption | lia].
      * apply Nat.ltb_ge in Hlt. rewrite IH.
        destruct (decide (foreign_key_role (heap st) pk c)) as [[_ Hn]|_];
          [lia | reflexivity].
Qed.

Lemma get_primary_key_run st t tn pk :
  heap st !! t = Some tn → cls tn = TableNode pk →
  get_primary_key t st = (Ok pk, st).
Proof.
  intros Ht Hk. unfold get_primary_key.
  rewrite (bind_ok _ _ _ _ _ (load_ok _ _ _ Ht)), Hk. reflexivity.
Qed.

Lemma primary_key_of_table h t tn pk :
  h !! t = Some tn → cls tn = TableNode pk → primary_key_of h t = pk.
Proof.
  intros Ht Hk. unfold primary_key_of. rewrite Ht.
  destruct tn as [i ps cs k]. simpl in Hk. subst k. reflexivity.
Qed.

Lemma get_foreign_keys_run st t tn pk :
  heap st !! t = Some tn → cls tn = TableNode pk →
  Forall (λ c, is_Some (heap st !! c)) (children tn) →
  get_foreign_keys t st =
  (Ok (filter (foreign_key_role (heap st) pk) (children tn)), st).
Proof.
  intros Ht Hk Hall. unfold get_foreign_keys.
  rewrite (bind_ok _ _ _ _ _ (load_ok _ _ _ Ht)).
  rewrite (bind_ok _ _ _ _ _ (get_primary_key_run _ _ _ _ Ht Hk)).
  rewrite collect_foreign_keys_run by assumption. reflexivity.
Qed.

(** C7: the list [get_foreign_keys] returns is exactly the children that
    have more than one parent and are not the primary key, in child order;
    the candidate link list of [find_path] is that list, with the primary
    key put in front when it has more than one parent itself. *)
Theorem table_links_are_link_candidates (st : state) (t : addr) (tn : Node)
    (pk : option addr) :
  heap st !! t = Some tn →
  cls tn = TableNode pk →
  Forall (λ c, is_Some (heap st !! c)) (children tn) →
  get_foreign_keys t st =
    (Ok (filter (foreign_key_role (heap st) pk) (children tn)), st) ∧
  (∀ p, pk = Some p → is_Some (heap st !! p) →
     table_links t st = (Ok (link_candidates (heap st) t), st)).
Proof.
  intros Ht Hk Hall.
  pose proof (get_foreign_keys_run _ _ _ _ Ht Hk Hall) as Hfks.
  split; [exact Hfks|]. intros p -> [pn Hpk]. unfold table_links.
  rewrite (bind_ok _ _ _ _ _ Hfks).
  rewrite (bind_ok _ _ _ _ _ (get_primary_key_run _ _ _ _ Ht Hk)).
  rewrite (bind_ok (deref (Some p)) _ st p st eq_refl).
  rewrite (bind_ok _ _ _ _ _ (load_ok _ _ _ Hpk)).
  unfold link_candidates.
  rewrite (primary_key_of_table _ _ _ _ Ht Hk).
  rewrite (kids_lookup _ _ _ Ht), (pars_lookup _ _ _ Hpk).
  destruct (1 <? length (parents pn)) eqn:Hlt.
  - apply Nat.ltb_lt in Hlt.
    destruct (decide (1 < length (parents pn))); [reflexivity | lia].
  - apply Nat.ltb_ge in Hlt.
    destruct (decide (1 < length (parents pn))); [lia | reflexivity].
Qed.

(** C10 (amended): a table whose [primary_key] is still [None] makes
    [find_path] raise AttributeError as soon as it is the current table and
    the target is another table, before any link is tried and with the
    store left as it was; with the table itself as target the call returns
    the accumulated path and never reads [primary_key]. *)
Theorem find_path_without_primary_key (fuel : nat) (st : state)
    (curr target : addr) (p : option path) (tn : Node) :
  heap st !! curr = Some tn →
  cls tn = TableNode None →
  Forall (λ c, is_Some (heap st !! c)) (children tn) →
  (curr ≠ target →
   find_path (S fuel) curr target p st = (Raise AttributeError, st)) ∧
  find_path (S fuel) curr curr p st = (Ok (Some (default [] p)), st).
Proof.
  intros Ht Hk Hall. split.
  - intros Hne. simpl.
    destruct (decide (curr = target)); [contradiction|].
    unfold table_links.
    rewrite bind_run.
    rewrite (bind_ok _ _ _ _ _ (get_foreign_keys_run _ _ _ _ Ht Hk Hall)).
    rewrite (bind_ok _ _ _ _ _ (get_primary_key_run _ _ _ _ Ht Hk)).
    reflexivity.
  - simpl. destruct (decide (curr = curr)); [reflexivity | congruence].
Qed.

(** ** Looking an object up by id *)

Lemma scan_id_run st w l found :
  Forall (λ a, is_Some (heap st !! a)) l →
  scan_id w l found st =
  (Ok (match lookup_id (heap st) w l with Some a => Some a | None => found end),
   st).
Proof.
  intros Hall. revert found.
  induction Hall as [|a l [n Ha] _ IH]; intros found; [reflexivity|].
  simpl. rewrite (bind_ok _ _ _ _ _ (load_ok _ _ _ Ha)), IH.
  unfold lookup_id. rewrite filter_cons.
  assert (Hname : has_name (heap st) w a = bool_decide (id n = w)).
  { unfold has_name, name_of. rewrite Ha. simpl.
    apply bool_decide_ext. split; congruence. }
  rewrite Hname.
  destruct (decide (id n = w)) as [Heq|Hne].
  - rewrite bool_decide_eq_true_2 by assumption.
    destruct (decide (true = true)); [|congruence].
    rewrite last_cons. destruct (last _); reflexivity.
  - rewrite bool_decide_eq_false_2 by assumption.
    destruct (decide (false = true)); [congruence|]. reflexivity.
Qed.

Lemma ids_of_run st l :
  Forall (λ a, is_Some (heap st !! a)) l →
  ∃ names, ids_of l st = (Ok names, st) ∧
    ∀ w, w ∈ names ↔ is_Some (lookup_id (heap st) w l).
Proof.
  induction 1 as [|a l [n Ha] _ (names & Hrun & Hnames)].
  - exists []. split; [reflexivity|]. intros w. unfold lookup_id. simpl.
    split; [intros H; inversion H | intros [? H]; discriminate].
  - exists (id n :: names). split.
    + simpl. rewrite (bind_ok _ _ _ _ _ (load_ok _ _ _ Ha)).
      rewrite (bind_ok _ _ _ _ _ Hrun). reflexivity.
    + intros w. rewrite elem_of_cons, Hnames. unfold lookup_id.
      rewrite filter_cons.
      assert (Hname : has_name (heap st) w a = true ↔ w = id n).
      { unfold has_name, name_of. rewrite Ha. simpl.
        rewrite bool_decide_eq_true. split; congruence. }
      destruct (decide (has_name (heap st) w a = true)) as [Heq|Hne].
      * rewrite last_cons. split; [intros _|].
        -- destruct (last _); eauto.
        -- intros _. left. apply Hname, Heq.
      * split; [intros [Hw|Hw]; [|exact Hw]|intros Hw; right; exact Hw].
        exfalso. apply Hne, Hname, Hw.
Qed.

Lemma closed_kids st a n :
  closed (heap st) → heap st !! a = Some n →
  Forall (λ c, is_Some (heap st !! c)) (children n).
Proof.
  intros Hc Ha. destruct (Hc a n Ha) as [_ Hk].
  eapply Forall_impl; [exact Hk|]. intros x Hx. simpl in Hx.
  apply lookup_lt_is_Some. exact Hx.
Qed.

Lemma closed_pars st a n :
  closed (heap st) → heap st !! a = Some n →
  Forall (λ c, is_Some (heap st !! c)) (parents n).
Proof.
  intros Hc Ha. destruct (Hc a n Ha) as [Hp _].
  eapply Forall_impl; [exact Hp|]. intros x Hx. simpl in Hx.
  apply lookup_lt_is_Some. exact Hx.
Qed.

Lemma get_child_run st o n w :
  closed (heap st) → heap st !! o = Some n →
  get_child o w st = (Ok (resolve (heap st) o w), st).
Proof.
  intros Hc Ho. unfold get_child.
  rewrite (bind_ok _ _ _ _ _ (load_ok _ _ _ Ho)).
  rewrite scan_id_run by (eapply closed_kids; eassumption).
  unfold resolve, kids. rewrite Ho. simpl.
  destruct (lookup_id _ _ _); reflexivity.
Qed.

Lemma has_child_run st o n w :
  closed (heap st) → heap st !! o = Some n →
  has_child o w st = (Ok (bool_decide (is_Some (resolve (heap st) o w))), st).
Proof.
  intros Hc Ho. unfold has_child, show_children.
  destruct (ids_of_run st (children n)) as (names & Hrun & Hnames);
    [eapply closed_kids; eassumption|].
  rewrite (bind_ok _ _ _ names st).
  2:{ rewrite (bind_ok _ _ _ _ _ (load_ok _ _ _ Ho)). exact Hrun. }
  unfold mem_str, resolve, kids. rewrite Ho. simpl.
  rewrite (bool_decide_ext _ _ (Hnames w)). reflexivity.
Qed.

Lemma lookup_id_allocated h w l a :
  lookup_id h w l = Some a → ∃ n, h !! a = Some n ∧ id n = w ∧ a ∈ l.
Proof.
  unfold lookup_id. intros Hl.
  apply last_Some_elem_of in Hl. apply list_elem_of_filter in Hl.
  destruct Hl as [Hn Hin]. unfold has_name, name_of in Hn.
  apply bool_decide_eq_true in Hn.
  destruct (h !! a) as [n|]; [|discriminate].
  exists n. simpl in Hn. split; [reflexivity|]. split; [congruence | exact Hin].
Qed.

Lemma primary_key_of_Some h t pk :
  primary_key_of h t = Some pk →
  ∃ n, h !! t = Some n ∧ cls n = TableNode (Some pk).
Proof.
  unfold primary_key_of. destruct (h !! t) as [[i ps cs k]|]; [|discriminate].
  destruct k; try discriminate. intros ->. eexists; split; reflexivity.
Qed.

Lemma name_of_Some h a w :
  name_of h a = Some w → ∃ n, h !! a = Some n ∧ id n = w.
Proof.
  unfold name_of. destruct (h !! a) as [n|]; [|discriminate].
  simpl. intros [= <-]. eexists; split; reflexivity.
Qed.

(** ** build_values *)

Lemma has_column_run st t w :
  closed (heap st) → is_table (heap st) t →
  has_column t w st =
  (Ok (bool_decide (is_Some (resolve (heap st) t w))), st).
Proof.
  intros Hc (n & pk & Hn & Hcls). unfold has_column.
  rewrite (bind_ok _ _ _ _ _ (load_ok _ _ _ Hn)), Hcls.
  exact (has_child_run _ _ _ w Hc Hn).
Qed.

Lemma has_column_not_table st t n w :
  heap st !! t = Some n → ¬ is_table (heap st) t →
  has_column t w st = (Raise AttributeError, st).
Proof.
  intros Hn Hnot. unfold has_column.
  rewrite (bind_ok _ _ _ _ _ (load_ok _ _ _ Hn)).
  destruct (cls n) as [| |pk|ty nl k g] eqn:Hcls; try reflexivity.
  exfalso. apply Hnot. exists n, pk. split; assumption.
Qed.

(** C4: [build_values] raises ValueError when the table name resolves to no
    child of the root, and when it resolves to a table on which the column
    name resolves to nothing; in both cases the store is untouched and no
    statement has been sent. *)
Theorem build_values_rejects (self : DatabaseTree) (table column : string)
    (values_column : option string) (queries values : list string)
    (st : state) :
  closed (heap st) →
  is_Some (heap st !! db_node self) →
  resolve (heap st) (db_node self) table = None ∨
  (∃ tn, resolve (heap st) (db_node self) table = Some tn ∧
         is_table (heap st) tn ∧
         resolve (heap st) tn column = None) →
  build_values self table column values_column queries values st =
  (Raise ValueError, st).
Proof.
  intros Hc [d Hd] Hcase. unfold build_values, tree_get_table, get_table.
  rewrite (bind_ok _ _ _ _ _ (get_child_run _ _ _ table Hc Hd)).
  destruct Hcase as [Hnone | (tn & Hsome & Htab & Hcol)].
  - rewrite Hnone. reflexivity.
  - rewrite Hsome.
    rewrite (bind_ok _ _ _ _ _ (has_column_run _ _ column Hc Htab)).
    rewrite Hcol. rewrite bool_decide_eq_false_2; [reflexivity|].
    intros [? ?]; discriminate.
Qed.

Lemma string_app_assoc (s1 s2 s3 : string) :
  (s1 +:+ s2) +:+ s3 = s1 +:+ s2 +:+ s3.
Proof.
  induction s1 as [|c s1 IH]; [reflexivity|].
  change (String c ((s1 +:+ s2) +:+ s3) = String c (s1 +:+ s2 +:+ s3)).
  f_equal. exact IH.
Qed.

Lemma string_app_nil_r (s : string) : s +:+ "" = s.
Proof.
  induction s as [|c s IH]; [reflexivity|].
  change (String c (s +:+ "") = String c s). f_equal. exact IH.
Qed.

Lemma join_snoc sep l x :
  l ≠ [] → join sep (l ++ [x]) = join sep l +:+ sep +:+ x.
Proof.
  induction l as [|y l IH]; [congruence|]. intros _.
  destruct l as [|z l].
  - reflexivity.
  - change (join sep ((y :: z :: l) ++ [x]))
      with (y +:+ sep +:+ join sep ((z :: l) ++ [x])).
    rewrite IH by congruence.
    change (join sep (y :: z :: l)) with (y +:+ sep +:+ join sep (z :: l)).
    rewrite !string_app_assoc. reflexivity.
Qed.

Lemma column_of_rows_run st column rows vs :
  mapM (λ r, row_get r column) rows = Some vs →
  column_of_rows column rows st = (Ok vs, st).
Proof.
  revert vs. induction rows as [|r rows IH]; intros vs Hvs.
  - simpl in Hvs. injection Hvs as <-. reflexivity.
  - simpl in Hvs. simpl. unfold getitem.
    destruct (row_get r column) as [v|]; [|discriminate]. simpl in Hvs.
    destruct (mapM _ rows) as [vs'|]; [|discriminate]. simpl in Hvs.
    injection Hvs as <-.
    rewrite (bind_ok (ret v) _ st v st eq_refl).
    rewrite (bind_ok _ _ _ _ _ (IH vs' eq_refl)). reflexivity.
Qed.

(** Python's [sep.join(l)] puts [sep] between the strings, and the
    membership test the code assembles is the key, [IN] and the quoted
    values with commas between them. *)
Lemma separated_prefix sep (l : list string) (p y : string) :
  fold_left (λ text z, text +:+ sep +:+ z) l (p +:+ y) =
  p +:+ fold_left (λ text z, text +:+ sep +:+ z) l y.
Proof.
  revert y. induction l as [|z l IH]; intros y; [reflexivity|].
  cbn [fold_left]. rewrite string_app_assoc. apply IH.
Qed.

Lemma join_separated sep l : join sep l = separated sep l.
Proof.
  destruct l as [|x l]; [reflexivity|]. unfold separated.
  revert x. induction l as [|y l IH]; intros x; [reflexivity|].
  change (join sep (x :: y :: l)) with (x +:+ sep +:+ join sep (y :: l)).
  rewrite IH. cbn [fold_left]. rewrite !separated_prefix. reflexivity.
Qed.

Lemma join_quoted v (values : list string) :
  "'" +:+ join "','" (v :: values) +:+ "'" =
  join "," (quoted <$> v :: values).
Proof.
  revert v. induction values as [|w values IH]; intros v; [reflexivity|].
  change (join "','" (v :: w :: values))
    with (v +:+ "','" +:+ join "','" (w :: values)).
  change (join "," (quoted <$> v :: w :: values))
    with (quoted v +:+ "," +:+ join "," (quoted <$> w :: values)).
  rewrite <- IH. unfold quoted. rewrite !string_app_assoc. reflexivity.
Qed.

Lemma in_clause_membership K v values :
  in_clause K (v :: values) = membership_test K (v :: values).
Proof.
  unfold in_clause, membership_test.
  rewrite <- join_separated, <- join_quoted.
  rewrite !string_app_assoc. reflexivity.
Qed.

(** Up to the answer of the server: when the checks pass, the statement of
    the specification is the one sent. *)
Lemma build_values_reaches_server (self : DatabaseTree)
    (table column K : string) (values_column : option string)
    (queries values : list string) (st : state) (tn : addr) :
  closed (heap st) →
  is_Some (heap st !! db_node self) →
  resolve (heap st) (db_node self) table = Some tn →
  is_table (heap st) tn →
  is_Some (resolve (heap st) tn column) →
  (values ≠ [] → values_key (heap st) tn values_column = Some K) →
  build_values self table column values_column queries values st =
  column_of_rows column
    (answer (sql_handle self) (expected_sql table column K queries values))
    (mkState (heap st)
       (sent st ++ [expected_sql table column K queries values])).
Proof.
  intros Hc [d Hd] Htab Htable Hcol Hkey.
  unfold build_values, tree_get_table, get_table.
  rewrite (bind_ok _ _ _ _ _ (get_child_run _ _ _ table Hc Hd)), Htab.
  rewrite (bind_ok _ _ _ _ _ (has_column_run _ _ column Hc Htable)).
  rewrite bool_decide_eq_true_2 by exact Hcol.
  cbn [negb].
  set (sql := expected_sql table column K queries values) in *.
  assert (Hrun : ∀ q, q = sql →
            (execute_query (sql_handle self) q ≫= column_of_rows column) st
            = column_of_rows column (answer (sql_handle self) sql)
                (mkState (heap st) (sent st ++ [sql]))).
  { intros q ->. rewrite bind_run. reflexivity. }
  destruct values as [|v values].
  - (* no membership test *)
    cbn [nonempty orb].
    rewrite (bind_ok (mret _) _ st _ st eq_refl). apply Hrun.
    subst sql. unfold expected_sql, where_conditions.
    rewrite app_nil_r, orb_false_r.
    destruct queries as [|q queries]; cbn [nonempty].
    + rewrite string_app_nil_r. reflexivity.
    + rewrite <- join_separated, !string_app_assoc. reflexivity.
  - specialize (Hkey ltac:(congruence)).
    cbn [nonempty]. rewrite orb_true_r.
    assert (Hsql : ∀ prefix, prefix =
              (let query := ("SELECT " +:+ column +:+ " FROM " +:+ table) +:+ " WHERE " in
               if nonempty queries
               then (query +:+ join " and " queries) +:+ " and " else query) →
              prefix +:+ in_clause K (v :: values) = sql).
    { intros prefix ->. subst sql. unfold expected_sql, where_conditions.
      rewrite in_clause_membership.
      destruct queries as [|q queries]; cbn [nonempty app].
      - rewrite !string_app_assoc. reflexivity.
      - change (q :: queries ++ [membership_test K (v :: values)])
          with ((q :: queries) ++ [membership_test K (v :: values)]).
        rewrite <- join_separated, join_snoc by congruence.
        rewrite !string_app_assoc. reflexivity. }
    destruct values_column as [vc|]; simpl in Hkey.
    + injection Hkey as ->.
      rewrite (bind_ok (mret _) _ st _ st eq_refl). apply Hrun, Hsql.
      destruct queries; reflexivity.
    + destruct (primary_key_of (heap st) tn) as [pk|] eqn:Hpk; [|discriminate].
      apply primary_key_of_Some in Hpk as (n' & Hn' & Hcls).
      apply name_of_Some in Hkey as (pn & Hpn & <-).
      erewrite (bind_ok _ _ st _ st).
      2:{ rewrite (bind_ok _ _ _ _ _ (get_primary_key_run _ _ _ _ Hn' Hcls)).
          rewrite (bind_ok (deref (Some pk)) _ st pk st eq_refl).
          rewrite (bind_ok _ _ _ _ _ (load_ok _ _ _ Hpn)). reflexivity. }
      apply Hrun, Hsql. destruct queries; reflexivity.
Qed.

(** C3: when the table and column checks pass, that is when the name
    resolves to a table of the root on which the column name resolves,
    [build_values] sends exactly one statement, [SELECT column FROM table],
    followed when [queries] or [values] is not empty by [WHERE] and the
    conditions with [and] between them, the last condition being
    [K IN ('v1','v2',...)] when [values] is not empty, with [K] the id of
    the table's primary key when [values_column] is [None] and
    [values_column] otherwise; it returns the values of [column] in the rows
    the server answered, in order. *)
Theorem build_values_statement (self : DatabaseTree) (table column K : string)
    (values_column : option string) (queries values : list string)
    (st : state) (tn : addr) (vs : list value) :
  closed (heap st) →
  is_Some (heap st !! db_node self) →
  resolve (heap st) (db_node self) table = Some tn →
  is_table (heap st) tn →
  is_Some (resolve (heap st) tn column) →
  (values ≠ [] → values_key (heap st) tn values_column = Some K) →
  mapM (λ r, row_get r column)
    (answer (sql_handle self) (expected_sql table column K queries values))
    = Some vs →
  build_values self table column values_column queries values st =
  (Ok vs,
   mkState (heap st)
     (sent st ++ [expected_sql table column K queries values])).
Proof.
  intros Hc Hd Htab Htable Hcol Hkey Hrows.
  rewrite (build_values_reaches_server self table column K values_column
             queries values st tn Hc Hd Htab Htable Hcol Hkey).
  apply column_of_rows_run. exact Hrows.
Qed.

(** ** The column classifier *)

Lemma get_type_run st c cn ty nl k g :
  heap st !! c = Some cn → cls cn = ColumnNode ty nl k g →
  get_type c st = (Ok ty, st).
Proof.
  intros Hc Hk. unfold get_type.
  rewrite (bind_ok _ _ _ _ _ (load_ok _ _ _ Hc)), Hk. reflexivity.
Qed.

Lemma sized_type_run st c cn raw nl k g :
  heap st !! c = Some cn → cls cn = ColumnNode (Some raw) nl k g →
  probed raw = true →
  sized_type c st =
  (Ok (if small_varchar raw then "varchar_sm" else normalized raw), st).
Proof.
  intros Hc Hk Hp. unfold sized_type, parse_type.
  rewrite (bind_ok _ _ st (normalized raw) st).
  2:{ rewrite (bind_ok _ _ _ _ _ (get_type_run _ _ _ _ _ _ _ Hc Hk)).
      reflexivity. }
  unfold probed, small_varchar, declared_size in *.
  destruct (decide (normalized raw = "varchar")) as [Hv|Hv].
  - rewrite Hv in *.
    rewrite (bind_ok _ _ _ _ _ (get_type_run _ _ _ _ _ _ _ Hc Hk)).
    rewrite (bind_ok (deref (Some raw)) _ st raw st eq_refl).
    rewrite bool_decide_eq_true_2 in * by reflexivity.
    rewrite (bool_decide_eq_false_2 (_ ∈ _)) in Hp by (intros H; repeat (apply elem_of_cons in H as [H|H]; [discriminate|]);
        inversion H).
    rewrite orb_false_r in Hp. cbn [andb] in *.
    destruct (first_digits raw) as [ds|]; [|discriminate].
    simpl in *. rewrite Hp. reflexivity.
  - rewrite (bool_decide_eq_false_2 (_ = _)) by assumption. reflexivity.
Qed.

Lemma set_group_run st c cn ty nl k g g' :
  heap st !! c = Some cn → cls cn = ColumnNode ty nl k g →
  set_group c g' st =
  (Ok tt, mkState (<[c := set_node_group cn g']> (heap st)) (sent st)).
Proof.
  intros Hc Hk. unfold set_group, set_node_group.
  rewrite (bind_ok _ _ _ _ _ (load_ok _ _ _ Hc)), Hk. reflexivity.
Qed.

Lemma set_node_group_twice n g g' :
  set_node_group (set_node_group n g) g' = set_node_group n g'.
Proof. destruct n as [i ps cs []]; reflexivity. Qed.

Lemma set_node_group_same n ty nl k g :
  cls n = ColumnNode ty nl k g → set_node_group n g = n.
Proof. destruct n as [i ps cs c]; simpl; intros ->; reflexivity. Qed.

Lemma set_node_group_cls n ty nl k g g' :
  cls n = ColumnNode ty nl k g →
  cls (set_node_group n g') = ColumnNode ty nl k g'.
Proof. destruct n as [i ps cs c]; simpl; intros ->; reflexivity. Qed.

Lemma set_node_group_id n g : id (set_node_group n g) = id n.
Proof. destruct n as [i ps cs []]; reflexivity. Qed.

Lemma probe_run h st t c tn cn ty nl k g r z rest :
  heap st !! c = Some cn → cls cn = ColumnNode ty nl k g →
  (∃ tn', heap st !! t = Some tn' ∧ id tn' = id tn) →
  answer h (count_query (id cn) (id tn)) = r :: rest →
  row_get r (count_field (id cn)) = Some (VInt z) →
  (c0 ← load c; t0 ← load t;
   results ← execute_query h (count_query (id c0) (id t0));
   match results with
   | [] => raise IndexError
   | results_dict :: _ =>
       c' ← load c;
       n ← getitem results_dict (count_field (id c'));
       match n with
       | VInt z =>
           if (z <? 150)%Z then set_group c "limited_set" else mret tt
       | VStr _ => raise TypeError
       end
   end) st =
  (Ok tt,
   mkState
     (<[c := if (z <? 150)%Z then set_node_group cn "limited_set" else cn]>
        (heap st))
     (sent st ++ [count_query (id cn) (id tn)])).
Proof.
  intros Hc Hk (tn' & Ht & Hid) Hans Hrow.
  rewrite (bind_ok _ _ _ _ _ (load_ok _ _ _ Hc)).
  rewrite (bind_ok _ _ _ _ _ (load_ok _ _ _ Ht)). rewrite Hid.
  rewrite bind_run. unfold execute_query at 1. cbn [heap sent].
  rewrite Hans.
  set (st1 := mkState (heap st) (sent st ++ [count_query (id cn) (id tn)])).
  assert (Hc1 : heap st1 !! c = Some cn) by exact Hc.
  rewrite (bind_ok _ _ _ _ _ (load_ok _ _ _ Hc1)).
  unfold getitem. rewrite Hrow.
  rewrite (bind_ok (ret _) _ st1 _ st1 eq_refl).
  destruct (z <? 150)%Z.
  - rewrite (set_group_run _ _ _ _ _ _ _ _ Hc1 Hk). reflexivity.
  - unfold st1. cbn [mret M_ret ret heap]. rewrite list_insert_id by exact Hc.
    reflexivity.
Qed.

(** ** The effect of the list primitives on the store *)

Lemma kids_insert h o n a :
  o < length h →
  kids (<[o := n]> h) a = if decide (a = o) then children n else kids h a.
Proof.
  intros Hlt. unfold kids. destruct (decide (a = o)) as [->|Hne].
  - rewrite list_lookup_insert_eq by exact Hlt. reflexivity.
  - rewrite list_lookup_insert_ne by congruence. reflexivity.
Qed.

Lemma pars_insert h o n a :
  o < length h →
  pars (<[o := n]> h) a = if decide (a = o) then parents n else pars h a.
Proof.
  intros Hlt. unfold pars. destruct (decide (a = o)) as [->|Hne].
  - rewrite list_lookup_insert_eq by exact Hlt. reflexivity.
  - rewrite list_lookup_insert_ne by congruence. reflexivity.
Qed.

Lemma label_insert h o n n' a :
  h !! o = Some n → id n' = id n → cls n' = cls n →
  label (<[o := n']> h) a = label h a.
Proof.
  intros Ho Hid Hcls. unfold label. destruct (decide (a = o)) as [->|Hne].
  - rewrite list_lookup_insert_eq by (eapply lookup_lt_Some; eassumption).
    rewrite Ho. simpl. congruence.
  - rewrite list_lookup_insert_ne by congruence. reflexivity.
Qed.

Lemma same_objects_refl st : same_objects st st.
Proof. repeat split. Qed.

Lemma same_objects_trans st1 st2 st3 :
  same_objects st1 st2 → same_objects st2 st3 → same_objects st1 st3.
Proof.
  intros (Hs1 & Hl1 & Hb1) (Hs2 & Hl2 & Hb2). repeat split.
  - congruence.
  - congruence.
  - intros a. rewrite Hb2. apply Hb1.
Qed.

Lemma children_append_effect st o x :
  o < length (heap st) →
  ∃ st', children_append o x st = (Ok tt, st') ∧ same_objects st st' ∧
    (∀ a, kids (heap st') a =
          if decide (a = o) then kids (heap st) o ++ [x] else kids (heap st) a) ∧
    (∀ a, pars (heap st') a = pars (heap st) a).
Proof.
  intros Hlt. destruct (lookup_lt_is_Some_2 _ _ Hlt) as [n Hn].
  eexists. split; [|split; [|split]].
  - unfold children_append.
    rewrite (bind_ok _ _ _ _ _ (load_ok _ _ _ Hn)). reflexivity.
  - repeat split; cbn [heap sent].
    + apply length_insert.
    + intros a. eapply label_insert; [eassumption| |]; reflexivity.
  - intros a. cbn [heap]. rewrite kids_insert by exact Hlt.
    unfold kids at 2. rewrite Hn. reflexivity.
  - intros a. cbn [heap]. rewrite pars_insert by exact Hlt.
    destruct (decide (a = o)) as [->|]; [|reflexivity].
    unfold pars. rewrite Hn. reflexivity.
Qed.

Lemma parents_append_effect st o x :
  o < length (heap st) →
  ∃ st', parents_append o x st = (Ok tt, st') ∧ same_objects st st' ∧
    (∀ a, kids (heap st') a = kids (heap st) a) ∧
    (∀ a, pars (heap st') a =
          if decide (a = o) then pars (heap st) o ++ [x] else pars (heap st) a).
Proof.
  intros Hlt. destruct (lookup_lt_is_Some_2 _ _ Hlt) as [n Hn].
  eexists. split; [|split; [|split]].
  - unfold parents_append.
    rewrite (bind_ok _ _ _ _ _ (load_ok _ _ _ Hn)). reflexivity.
  - repeat split; cbn [heap sent].
    + apply length_insert.
    + intros a. eapply label_insert; [eassumption| |]; reflexivity.
  - intros a. cbn [heap]. rewrite kids_insert by exact Hlt.
    destruct (decide (a = o)) as [->|]; [|reflexivity].
    unfold kids. rewrite Hn. reflexivity.
  - intros a. cbn [heap]. rewrite pars_insert by exact Hlt.
    unfold pars at 2. rewrite Hn. reflexivity.
Qed.

Lemma children_remove_effect st o x :
  o < length (heap st) →
  match list_remove x (kids (heap st) o) with
  | Some l =>
      ∃ st', children_remove o x st = (Ok tt, st') ∧ same_objects st st' ∧
        (∀ a, kids (heap st') a = if decide (a = o) then l else kids (heap st) a) ∧
        (∀ a, pars (heap st') a = pars (heap st) a)
  | None => children_remove o x st = (Raise ValueError, st)
  end.
Proof.
  intros Hlt. destruct (lookup_lt_is_Some_2 _ _ Hlt) as [n Hn].
  unfold kids at 1. rewrite Hn. cbn [from_option].
  unfold children_remove. rewrite (bind_ok _ _ _ _ _ (load_ok _ _ _ Hn)).
  destruct (list_remove x (children n)) as [l|]; [|reflexivity].
  eexists. split; [reflexivity|]. split; [|split].
  - repeat split; cbn [heap sent].
    + apply length_insert.
    + intros a. eapply label_insert; [eassumption| |]; reflexivity.
  - intros a. cbn [heap]. rewrite kids_insert by exact Hlt. reflexivity.
  - intros a. cbn [heap]. rewrite pars_insert by exact Hlt.
    destruct (decide (a = o)) as [->|]; [|reflexivity].
    unfold pars. rewrite Hn. reflexivity.
Qed.

Lemma parents_remove_effect st o x :
  o < length (heap st) →
  match list_remove x (pars (heap st) o) with
  | Some l =>
      ∃ st', parents_remove o x st = (Ok tt, st') ∧ same_objects st st' ∧
        (∀ a, kids (heap st') a = kids (heap st) a) ∧
        (∀ a, pars (heap st') a = if decide (a = o) then l else pars (heap st) a)
  | None => parents_remove o x st = (Raise ValueError, st)
  end.
Proof.
  intros Hlt. destruct (lookup_lt_is_Some_2 _ _ Hlt) as [n Hn].
  unfold pars at 1. rewrite Hn. cbn [from_option].
  unfold parents_remove. rewrite (bind_ok _ _ _ _ _ (load_ok _ _ _ Hn)).
  destruct (list_remove x (parents n)) as [l|]; [|reflexivity].
  eexists. split; [reflexivity|]. split; [|split].
  - repeat split; cbn [heap sent].
    + apply length_insert.
    + intros a. eapply label_insert; [eassumption| |]; reflexivity.
  - intros a. cbn [heap]. rewrite kids_insert by exact Hlt.
    destruct (decide (a = o)) as [->|]; [|reflexivity].
    unfold kids. rewrite Hn. reflexivity.
  - intros a. cbn [heap]. rewrite pars_insert by exact Hlt. reflexivity.
Qed.

Lemma alloc_effect st n :
  parents n = [] → children n = [] →
  ∃ st', alloc n st = (Ok (length (heap st)), st') ∧
    sent st' = sent st ∧ heap st' = heap st ++ [n] ∧
    (∀ a, kids (heap st') a = kids (heap st) a) ∧
    (∀ a, pars (heap st') a = pars (heap st) a).
Proof.
  intros Hp Hk. eexists. split; [reflexivity|]. cbn [heap sent].
  split; [reflexivity|]. split; [reflexivity|].
  assert (Hview : ∀ a, (heap st ++ [n]) !! a = heap st !! a ∨
            ((heap st ++ [n]) !! a = Some n ∧ heap st !! a = None)).
  { intros a. destruct (decide (a = length (heap st))) as [->|Hne].
    - right. split; [|apply lookup_ge_None; lia].
      rewrite lookup_app_r by lia. rewrite Nat.sub_diag. reflexivity.
    - left. destruct (decide (a < length (heap st))) as [Hlt|Hge].
      + apply lookup_app_l. exact Hlt.
      + rewrite (proj2 (lookup_ge_None (heap st) a)) by lia.
        apply lookup_ge_None. rewrite length_app. simpl. lia. }
  split; intros a; unfold kids, pars;
    destruct (Hview a) as [->|[-> ->]]; simpl; congruence.
Qed.

(** ** Edges are added and removed in pairs *)

Lemma list_remove_None x l :
  list_remove x l = None ↔ count_occ Nat.eq_dec l x = 0.
Proof.
  induction l as [|y l IH]; simpl; [tauto|].
  destruct (decide (x = y)) as [->|Hne].
  - destruct (Nat.eq_dec y y); [|congruence]. split; [discriminate | lia].
  - destruct (Nat.eq_dec y x); [congruence|].
    destruct (list_remove x l); [|tauto].
    split; [discriminate|]. intros H. apply IH in H. discriminate.
Qed.

Lemma list_remove_count x l l' y :
  list_remove x l = Some l' →
  count_occ Nat.eq_dec l y =
  count_occ Nat.eq_dec l' y + (if decide (x = y) then 1 else 0).
Proof.
  revert l'. induction l as [|z l IH]; intros l'; simpl; [discriminate|].
  destruct (decide (x = z)) as [->|Hne].
  - intros [= <-]. destruct (Nat.eq_dec z y), (decide (z = y)); congruence || lia.
  - destruct (list_remove x l) as [r|]; [|discriminate].
    intros [= <-]. simpl. specialize (IH r eq_refl).
    destruct (Nat.eq_dec z y); lia.
Qed.

Lemma list_remove_elem_of x l :
  x ∈ l → is_Some (list_remove x l).
Proof.
  intros Hin. destruct (list_remove x l) eqn:Hr; [eauto|].
  apply list_remove_None in Hr. apply list_elem_of_In in Hin.
  apply (count_occ_In Nat.eq_dec) in Hin. lia.
Qed.

Lemma paired_edge_added st st' p c :
  paired (heap st) → edge_added st st' p c → paired (heap st').
Proof.
  intros Hpair (_ & Hk & Hp) P C. rewrite Hk, Hp.
  specialize (Hpair P C).
  destruct (decide (P = p)) as [->|HP], (decide (C = c)) as [->|HC];
    rewrite ?count_occ_app; simpl;
    repeat destruct (Nat.eq_dec _ _); congruence || lia.
Qed.

Lemma paired_edge_removed st st' p c :
  paired (heap st) → edge_removed st st' p c → paired (heap st').
Proof.
  intros Hpair (_ & lk & lp & Hlk & Hlp & Hk & Hp) P C. rewrite Hk, Hp.
  pose proof (Hpair P C) as HPC.
  pose proof (list_remove_count _ _ _ C Hlk) as Hck.
  pose proof (list_remove_count _ _ _ P Hlp) as Hcp.
  pose proof (Hpair p C) as HpC. pose proof (Hpair P c) as HPc.
  destruct (decide (P = p)) as [->|HP], (decide (C = c)) as [->|HC];
    repeat destruct (decide _); congruence || lia.
Qed.

Lemma add_parent_effect st self p :
  self < length (heap st) → p < length (heap st) →
  ∃ st', add_parent self p st = (Ok tt, st') ∧ edge_added st st' p self.
Proof.
  intros Hs Hp.
  destruct (children_append_effect st p self Hp)
    as (st1 & Hrun1 & Hsame1 & Hk1 & Hp1).
  assert (Hs1 : self < length (heap st1))
    by (destruct Hsame1 as (_ & -> & _); exact Hs).
  destruct (parents_append_effect st1 self p Hs1)
    as (st2 & Hrun2 & Hsame2 & Hk2 & Hp2).
  exists st2. split.
  - unfold add_parent. rewrite (bind_ok _ _ _ _ _ Hrun1). exact Hrun2.
  - split; [eapply same_objects_trans; eassumption|]. split.
    + intros a. rewrite Hk2, Hk1. reflexivity.
    + intros a. rewrite Hp2, !Hp1. reflexivity.
Qed.

Lemma add_child_effect st self c :
  self < length (heap st) → c < length (heap st) →
  ∃ st', add_child self c st = (Ok tt, st') ∧ edge_added st st' self c.
Proof.
  intros Hs Hc.
  destruct (parents_append_effect st c self Hc)
    as (st1 & Hrun1 & Hsame1 & Hk1 & Hp1).
  assert (Hs1 : self < length (heap st1))
    by (destruct Hsame1 as (_ & -> & _); exact Hs).
  destruct (children_append_effect st1 self c Hs1)
    as (st2 & Hrun2 & Hsame2 & Hk2 & Hp2).
  exists st2. split.
  - unfold add_child. rewrite (bind_ok _ _ _ _ _ Hrun1). exact Hrun2.
  - split; [eapply same_objects_trans; eassumption|]. split.
    + intros a. rewrite Hk2, !Hk1. reflexivity.
    + intros a. rewrite Hp2, Hp1. reflexivity.
Qed.

(** Removing an edge of a paired graph either removes both listings or, when
    the edge is not there, raises ValueError before anything is changed. *)
Lemma remove_child_effect st self c :
  paired (heap st) →
  self < length (heap st) → c < length (heap st) →
  (c ∈ kids (heap st) self ∧
   (∃ st', remove_child self (Some c) st = (Ok (Some c), st') ∧
           edge_removed st st' self c)) ∨
  ((c ∉ kids (heap st) self) ∧
   remove_child self (Some c) st = (Raise ValueError, st)).
Proof.
  intros Hpair Hs Hc. unfold remove_child.
  pose proof (children_remove_effect st self c Hs) as H1.
  destruct (list_remove c (kids (heap st) self)) as [lk|] eqn:Hlk.
  - left. destruct H1 as (st1 & Hrun1 & Hsame1 & Hk1 & Hp1).
    assert (Hin : c ∈ kids (heap st) self).
    { apply list_elem_of_In, (count_occ_In Nat.eq_dec).
      pose proof (list_remove_count _ _ _ c Hlk) as Hcnt.
      destruct (decide (c = c)); [lia | congruence]. }
    split; [exact Hin|].
    assert (Hc1 : c < length (heap st1))
      by (destruct Hsame1 as (_ & -> & _); exact Hc).
    pose proof (parents_remove_effect st1 c self Hc1) as H2.
    rewrite Hp1 in H2.
    destruct (list_remove self (pars (heap st) c)) as [lp|] eqn:Hlp.
    + destruct H2 as (st2 & Hrun2 & Hsame2 & Hk2 & Hp2).
      exists st2. split.
      * rewrite (bind_ok _ _ _ _ _ Hrun1), (bind_ok _ _ _ _ _ Hrun2).
        reflexivity.
      * split; [eapply same_objects_trans; eassumption|].
        exists lk, lp. repeat split; try assumption.
        -- intros a. rewrite Hk2, Hk1. reflexivity.
        -- intros a. rewrite Hp2. destruct (decide (a = c)); [reflexivity|].
           apply Hp1.
    + exfalso. apply list_remove_None in Hlp.
      apply list_elem_of_In, (count_occ_In Nat.eq_dec) in Hin.
      rewrite (Hpair self c) in Hin. lia.
  - right. split.
    + intros Hin. apply list_remove_elem_of in Hin.
      rewrite Hlk in Hin. destruct Hin; discriminate.
    + rewrite (bind_raise _ _ _ _ _ H1). reflexivity.
Qed.

Lemma remove_parent_effect st self p :
  paired (heap st) →
  self < length (heap st) → p < length (heap st) →
  (p ∈ pars (heap st) self ∧
   (∃ st', remove_parent self (Some p) st = (Ok (Some p), st') ∧
           edge_removed st st' p self)) ∨
  ((p ∉ pars (heap st) self) ∧
   remove_parent self (Some p) st = (Raise ValueError, st)).
Proof.
  intros Hpair Hs Hp. unfold remove_parent.
  pose proof (parents_remove_effect st self p Hs) as H1.
  destruct (list_remove p (pars (heap st) self)) as [lp|] eqn:Hlp.
  - left. destruct H1 as (st1 & Hrun1 & Hsame1 & Hk1 & Hp1).
    assert (Hin : p ∈ pars (heap st) self).
    { apply list_elem_of_In, (count_occ_In Nat.eq_dec).
      pose proof (list_remove_count _ _ _ p Hlp) as Hcnt.
      destruct (decide (p = p)); [lia | congruence]. }
    split; [exact Hin|].
    assert (Hp1' : p < length (heap st1))
      by (destruct Hsame1 as (_ & -> & _); exact Hp).
    pose proof (children_remove_effect st1 p self Hp1') as H2.
    rewrite Hk1 in H2.
    destruct (list_remove self (kids (heap st) p)) as [lk|] eqn:Hlk.
    + destruct H2 as (st2 & Hrun2 & Hsame2 & Hk2 & Hp2).
      exists st2. split.
      * rewrite (bind_ok _ _ _ _ _ Hrun1), (bind_ok _ _ _ _ _ Hrun2).
        reflexivity.
      * split; [eapply same_objects_trans; eassumption|].
        exists lk, lp. repeat split; try assumption.
        -- intros a. rewrite Hk2. destruct (decide (a = p)); [reflexivity|].
           apply Hk1.
        -- intros a. rewrite Hp2, Hp1. reflexivity.
    + exfalso. apply list_remove_None in Hlk.
      apply list_elem_of_In, (count_occ_In Nat.eq_dec) in Hin.
      rewrite <- (Hpair p self) in Hin. lia.
  - right. split.
    + intros Hin. apply list_remove_elem_of in Hin.
      rewrite Hlp in Hin. destruct Hin; discriminate.
    + rewrite (bind_raise _ _ _ _ _ H1). reflexivity.
Qed.

Lemma paired_ext h h' :
  (∀ a, kids h' a = kids h a) → (∀ a, pars h' a = pars h a) →
  paired h → paired h'.
Proof. intros Hk Hp Hpair p c. rewrite Hk, Hp. apply Hpair. Qed.

Lemma then_tt_state {A} (m : M A) st : ((m;; mret tt) st).2 = (m st).2.
Proof.
  change ((m;; mret tt) st) with ((m ≫= λ _, mret tt) st).
  rewrite bind_run. destruct (m st) as [[a|e|] st']; reflexivity.
Qed.

Lemma paired_alloc st n :
  parents n = [] → children n = [] →
  paired (heap st) → paired (heap (alloc n st).2).
Proof.
  intros Hp Hk Hpair.
  destruct (alloc_effect st n Hp Hk) as (st' & Hrun & _ & _ & Hkv & Hpv).
  rewrite Hrun. exact (paired_ext _ _ Hkv Hpv Hpair).
Qed.

Lemma paired_add_parent st self p :
  self < length (heap st) → p < length (heap st) →
  paired (heap st) → paired (heap (add_parent self p st).2).
Proof.
  intros Hs Hp Hpair.
  destruct (add_parent_effect st self p Hs Hp) as (st' & -> & Hadd).
  eapply paired_edge_added; eassumption.
Qed.

Lemma paired_add_child st self c :
  self < length (heap st) → c < length (heap st) →
  paired (heap st) → paired (heap (add_child self c st).2).
Proof.
  intros Hs Hc Hpair.
  destruct (add_child_effect st self c Hs Hc) as (st' & -> & Hadd).
  eapply paired_edge_added; eassumption.
Qed.

Lemma paired_remove_parent st self p :
  Forall (λ a, a < length (heap st))
    (self :: match p with Some x => [x] | None => [] end) →
  paired (heap st) → paired (heap (remove_parent self p st).2).
Proof.
  intros Hall Hpair. destruct p as [p|]; [|exact Hpair].
  apply Forall_cons in Hall as [Hs Hall]. apply Forall_cons in Hall as [Hp _].
  destruct (remove_parent_effect st self p Hpair Hs Hp)
    as [(_ & st' & -> & Hrem) | (_ & ->)]; [|exact Hpair].
  eapply paired_edge_removed; eassumption.
Qed.

Lemma paired_remove_child st self c :
  Forall (λ a, a < length (heap st))
    (self :: match c with Some x => [x] | None => [] end) →
  paired (heap st) → paired (heap (remove_child self c st).2).
Proof.
  intros Hall Hpair. destruct c as [c|]; [|exact Hpair].
  apply Forall_cons in Hall as [Hs Hall]. apply Forall_cons in Hall as [Hc _].
  destruct (remove_child_effect st self c Hpair Hs Hc)
    as [(_ & st' & -> & Hrem) | (_ & ->)]; [|exact Hpair].
  eapply paired_edge_removed; eassumption.
Qed.

(** A fresh object linked to an existing one, as parent or as child. *)
Lemma paired_alloc_then {A} st n self (link : addr → addr → M unit)
    (k : addr → M A) :
  parents n = [] → children n = [] →
  self < length (heap st) → paired (heap st) →
  (∀ st1 a b, a < length (heap st1) → b < length (heap st1) →
     paired (heap st1) → paired (heap (link a b st1).2)) →
  (∀ a st1, (k a st1).2 = st1) →
  paired (heap ((x ← alloc n; link self x;; k x) st).2) ∧
  paired (heap ((x ← alloc n; link x self;; k x) st).2).
Proof.
  intros Hp Hk Hs Hpair Hlink Hkeep.
  destruct (alloc_effect st n Hp Hk) as (st' & Hrun & _ & Hheap & Hkv & Hpv).
  assert (Hpair' : paired (heap st')) by exact (paired_ext _ _ Hkv Hpv Hpair).
  assert (Hlen : length (heap st') = S (length (heap st)))
    by (rewrite Hheap, length_app; simpl; lia).
  rewrite !(bind_ok _ _ _ _ _ Hrun).
  split.
  - specialize (Hlink st' self (length (heap st)) ltac:(lia) ltac:(lia) Hpair').
    change ((link self (length (heap st));; k (length (heap st))) st')
      with ((link self (length (heap st)) ≫= λ _, k (length (heap st))) st').
    rewrite bind_run.
    destruct (link self (length (heap st)) st') as [[[]|e|] st2]; try exact Hlink.
    rewrite Hkeep. exact Hlink.
  - specialize (Hlink st' (length (heap st)) self ltac:(lia) ltac:(lia) Hpair').
    change ((link (length (heap st)) self;; k (length (heap st))) st')
      with ((link (length (heap st)) self ≫= λ _, k (length (heap st))) st').
    rewrite bind_run.
    destruct (link (length (heap st)) self st') as [[[]|e|] st2]; try exact Hlink.
    rewrite Hkeep. exact Hlink.
Qed.

Lemma bind_assoc {A B C} (m : M A) (f : A → M B) (g : B → M C) st :
  ((m ≫= f) ≫= g) st = (m ≫= λ a, f a ≫= g) st.
Proof.
  rewrite !bind_run. destruct (m st) as [[a|e|] st']; reflexivity.
Qed.

Lemma create_column_as_add_child self column st :
  create_column self column st =
  (x ← new_ColumnNode column None None None; add_child self x;; mret x) st.
Proof.
  unfold create_column, add_child. unfold new_ColumnNode, alloc.
  rewrite !bind_run. symmetry. apply bind_assoc.
Qed.

Lemma column_create_table_as_add_parent self table st :
  column_create_table self table st =
  (x ← new_TableNode table; add_parent self x;; mret x) st.
Proof.
  unfold column_create_table, add_parent. unfold new_TableNode, alloc.
  rewrite !bind_run. symmetry. apply bind_assoc.
Qed.

Lemma paired_perform st c :
  paired (heap st) →
  Forall (λ a, a < length (heap st)) (call_objects c) →
  paired (heap (perform c st).2).
Proof.
  intros Hpair Hobj.
  destruct c; cbn [perform call_objects] in *;
    rewrite ?then_tt_state;
    repeat match goal with
    | H : Forall _ [_; _] |- _ =>
        apply Forall_cons in H as [? H]; apply Forall_cons in H as [? _]
    | H : Forall _ [_] |- _ => apply Forall_cons in H as [? _]
    end;
    try (apply paired_alloc; [reflexivity | reflexivity | assumption]);
    try (apply paired_add_parent; assumption);
    try (apply paired_add_child; assumption);
    try (apply paired_remove_parent; assumption);
    try (apply paired_remove_child; assumption).
  - (* create_parent *)
    eapply (paired_alloc_then st (mkNode parent_id [] [] PlainNode) self
              (λ a b, add_parent b a) mret); try reflexivity; try assumption.
    intros; apply paired_add_parent; assumption.
  - (* create_child *)
    eapply (paired_alloc_then st (mkNode child_id [] [] PlainNode) self
              add_child mret); try reflexivity; try assumption.
    intros; apply paired_add_child; assumption.
  - (* DatabaseNode.create_table *)
    eapply (paired_alloc_then st (mkNode table [] [] PlainNode) self
              add_child mret); try reflexivity; try assumption.
    intros; apply paired_add_child; assumption.
  - (* TableNode.create_column *)
    rewrite create_column_as_add_child.
    eapply (paired_alloc_then st
              (mkNode column [] [] (ColumnNode None None None "Undefined"))
              self add_child mret); try reflexivity; try assumption.
    intros; apply paired_add_child; assumption.
  - (* ColumnNode.create_table *)
    rewrite column_create_table_as_add_parent.
    eapply (paired_alloc_then st (mkNode table [] [] (TableNode None)) self
              (λ a b, add_parent b a) mret); try reflexivity; try assumption.
    intros; apply paired_add_parent; assumption.
Qed.

Lemma built_paired st : built st → paired (heap st).
Proof.
  induction 1 as [|st c _ IH Hobj].
  - intros p c. reflexivity.
  - apply paired_perform; assumption.
Qed.

(** C9: in a graph built and changed only through the methods that add,
    create and remove edges, whenever [v2] is among the children of [v1],
    [v1] is among the parents of [v2]. *)
Theorem reciprocal_edges (st : state) (v1 v2 : addr) :
  built st →
  v2 ∈ kids (heap st) v1 →
  v1 ∈ pars (heap st) v2.
Proof.
  intros Hb Hin. apply built_paired in Hb.
  apply list_elem_of_In, (count_occ_In Nat.eq_dec) in Hin.
  apply list_elem_of_In, (count_occ_In Nat.eq_dec).
  rewrite <- (Hb v1 v2). exact Hin.
Qed.

(** ** find_path towards an unreachable table *)

Lemma unvisited_le h prev : unvisited h prev ≤ length h.
Proof.
  unfold unvisited. etransitivity; [apply length_filter|].
  rewrite length_map. reflexivity.
Qed.

Lemma unvisited_extend h prev a n :
  h !! a = Some n → id n ∉ prev →
  unvisited h (prev ++ [id n]) < unvisited h prev.
Proof.
  intros Ha Hnot. unfold unvisited.
  rewrite (list_filter_iff (λ i, i ∉ prev ++ [id n])
             (λ i, i ≠ id n ∧ i ∉ prev)).
  2:{ intros i. rewrite elem_of_app, list_elem_of_singleton. tauto. }
  rewrite <- list_filter_filter.
  apply (length_filter_lt _ _ (id n)); [|tauto].
  apply list_elem_of_filter. split; [exact Hnot|].
  apply list_elem_of_fmap. exists n. split; [reflexivity|].
  eapply list_elem_of_lookup_2. exact Ha.
Qed.

Lemma mem_str_false x l : x ∉ l → mem_str x l = false.
Proof. intros H. unfold mem_str. apply bool_decide_eq_false_2. exact H. Qed.

Lemma mem_str_true x l : x ∈ l → mem_str x l = true.
Proof. intros H. unfold mem_str. apply bool_decide_eq_true_2. exact H. Qed.

Lemma walk_tables_none recur curr B p prev st link ln tables :
  heap st !! link = Some ln →
  Forall (λ t, is_Some (heap st !! t)) tables →
  (∀ t tn, t ∈ tables → heap st !! t = Some tn → id tn ∉ prev → t ≠ curr →
     recur t (Some (p ++ [(id tn, id ln)])) st = (Ok None, st)) →
  walk_tables recur curr B p prev link tables st = (Ok None, st).
Proof.
  intros Hl Hall Hrec. induction Hall as [|t tables [tn Ht] _ IH];
    [reflexivity|].
  simpl. rewrite (bind_ok _ _ _ _ _ (load_ok _ _ _ Ht)).
  assert (IH' : walk_tables recur curr B p prev link tables st = (Ok None, st)).
  { apply IH. intros t' tn' Hin. apply Hrec. right. exact Hin. }
  destruct (decide (id tn ∈ prev)) as [Hin|Hnot].
  - rewrite (mem_str_true _ _ Hin). exact IH'.
  - rewrite (mem_str_false _ _ Hnot). cbn [negb andb].
    destruct (decide (t = curr)) as [Heq|Hne].
    + rewrite bool_decide_eq_true_2 by exact Heq. exact IH'.
    + rewrite bool_decide_eq_false_2 by exact Hne. cbn [negb].
      rewrite (bind_ok _ _ _ _ _ (load_ok _ _ _ Hl)).
      rewrite (bind_ok _ _ _ _ _ (Hrec t tn ltac:(left) Ht Hnot Hne)).
      exact IH'.
Qed.

Lemma walk_links_none recur curr B p prev st links :
  closed (heap st) →
  Forall (λ l, is_Some (heap st !! l) ∧ B ∉ pars (heap st) l) links →
  (∀ l ln t tn, l ∈ links → heap st !! l = Some ln → t ∈ parents ln →
     heap st !! t = Some tn → id tn ∉ prev → t ≠ curr →
     recur t (Some (p ++ [(id tn, id ln)])) st = (Ok None, st)) →
  walk_links recur curr B p prev links st = (Ok None, st).
Proof.
  intros Hc Hall Hrec.
  induction Hall as [|l links [[ln Hl] HB] _ IH]; [reflexivity|].
  simpl. rewrite (bind_ok _ _ _ _ _ (load_ok _ _ _ Hl)).
  unfold pars in HB. rewrite Hl in HB. simpl in HB.
  unfold mem_addr. rewrite bool_decide_eq_false_2 by exact HB.
  rewrite (bind_ok _ _ st None st).
  - apply IH. intros l' ln' t tn Hin. apply Hrec. right. exact Hin.
  - eapply walk_tables_none; [exact Hl| |].
    + eapply closed_pars; eassumption.
    + intros t tn Hin Ht. eapply Hrec; [left|exact Hl|exact Hin|exact Ht].
Qed.

Lemma link_candidates_linked h t l :
  closed h → keyed_table h t → l ∈ link_candidates h t →
  is_Some (h !! l) ∧ 1 < length (pars h l) ∧ t ∈ pars h l.
Proof.
  intros Hc (n & pk & Ht & Hcls & Hpk & Hshared & Hkids) Hin.
  unfold link_candidates in Hin.
  rewrite (primary_key_of_table _ _ _ _ Ht Hcls) in Hin.
  assert (Hfk : l ∈ filter (foreign_key_role h (Some pk)) (kids h t) →
            is_Some (h !! l) ∧ 1 < length (pars h l) ∧ t ∈ pars h l).
  { intros Hf. apply list_elem_of_filter in Hf as [[_ Hlen] Hl].
    unfold kids in Hl. rewrite Ht in Hl. simpl in Hl.
    split; [|split; [exact Hlen | apply Hkids, Hl]].
    eapply closed_lookup; [exact Hc | exact Ht | right; exact Hl]. }
  destruct (decide (1 < length (pars h pk))) as [Hlen|_]; [|exact (Hfk Hin)].
  apply elem_of_cons in Hin as [->|Hin]; [|exact (Hfk Hin)].
  split; [exact Hpk|]. split; [exact Hlen | exact (Hshared Hlen)].
Qed.

Lemma table_links_keyed st t :
  closed (heap st) → keyed_table (heap st) t →
  table_links t st = (Ok (link_candidates (heap st) t), st).
Proof.
  intros Hc (n & pk & Ht & Hcls & [pn Hpk] & _).
  unfold table_links.
  rewrite (bind_ok _ _ _ _ _
             (get_foreign_keys_run _ _ _ _ Ht Hcls (closed_kids _ _ _ Hc Ht))).
  rewrite (bind_ok _ _ _ _ _ (get_primary_key_run _ _ _ _ Ht Hcls)).
  rewrite (bind_ok (deref (Some pk)) _ st pk st eq_refl).
  rewrite (bind_ok _ _ _ _ _ (load_ok _ _ _ Hpk)).
  unfold link_candidates.
  rewrite (primary_key_of_table _ _ _ _ Ht Hcls), (kids_lookup _ _ _ Ht).
  rewrite (pars_lookup _ _ _ Hpk).
  destruct (1 <? length (parents pn)) eqn:Hlt;
    [apply Nat.ltb_lt in Hlt | apply Nat.ltb_ge in Hlt];
    destruct (decide (1 < length (parents pn))); reflexivity || lia.
Qed.

Lemma find_path_none st A B :
  closed (heap st) →
  (∀ t, connected (heap st) A t → keyed_table (heap st) t) →
  ¬ connected (heap st) A B →
  ∀ fuel curr p,
    connected (heap st) A curr →
    unvisited (heap st) (map fst p) < fuel →
    find_path fuel curr B (Some p) st = (Ok None, st).
Proof.
  intros Hc Hkeyed Hfar. induction fuel as [|fuel IH]; intros curr p Hconn Hfuel;
    [lia|].
  simpl. destruct (decide (curr = B)) as [->|Hne]; [contradiction|].
  pose proof (Hkeyed curr Hconn) as Hk.
  destruct Hk as (n & pk & Ht & Hcls & Hpk & Hshared & Hkids).
  assert (Hk : keyed_table (heap st) curr)
    by (exists n, pk; repeat split; assumption).
  rewrite (bind_ok _ _ _ _ _ (table_links_keyed _ _ Hc Hk)).
  apply walk_links_none; [exact Hc| |].
  - apply Forall_forall. intros l Hl.
    destruct (link_candidates_linked _ _ _ Hc Hk Hl) as (Hsome & Hlen & Hin).
    split; [exact Hsome|]. intros HB. apply Hfar.
    eapply rtc_r; [exact Hconn|]. exists l. repeat split; assumption.
  - intros l ln t tn Hl Hln Hin Htn Hnot Hne'.
    destruct (link_candidates_linked _ _ _ Hc Hk Hl) as (_ & Hlen & Hcurr).
    apply IH.
    + eapply rtc_r; [exact Hconn|]. exists l. split; [exact Hlen|].
      split; [exact Hcurr|]. unfold pars. rewrite Hln. exact Hin.
    + rewrite map_app. simpl.
      pose proof (unvisited_extend _ _ _ _ Htn Hnot). lia.
Qed.

(** With primary keys set on every table a chain from [A] reaches, the
    search from any such table returns: it neither raises nor exhausts a
    recursion budget above the number of unvisited ids, and a path it
    returns is the accumulated one or is not empty. *)
Lemma walk_tables_total recur curr B p prev st link ln tables :
  heap st !! link = Some ln → is_Some (heap st !! B) →
  Forall (λ t, is_Some (heap st !! t)) tables →
  (∀ t tn, t ∈ tables → heap st !! t = Some tn → id tn ∉ prev → t ≠ curr →
     ∃ r, recur t (Some (p ++ [(id tn, id ln)])) st = (Ok r, st) ∧
          ∀ q, r = Some q → q ≠ []) →
  ∃ r, walk_tables recur curr B p prev link tables st = (Ok r, st) ∧
       ∀ q, r = Some q → q ≠ [].
Proof.
  intros Hl [bn HB] Hall Hrec. induction Hall as [|t tables [tn Ht] _ IH].
  - exists None. split; [reflexivity | discriminate].
  - assert (IH' : ∃ r, walk_tables recur curr B p prev link tables st
                       = (Ok r, st) ∧ ∀ q, r = Some q → q ≠ []).
    { apply IH. intros t' tn' Hin. apply Hrec. right. exact Hin. }
    cbn [walk_tables]. rewrite (bind_ok _ _ _ _ _ (load_ok _ _ _ Ht)).
    destruct (decide (id tn ∈ prev)) as [Hin|Hnot].
    { rewrite (mem_str_true _ _ Hin). exact IH'. }
    rewrite (mem_str_false _ _ Hnot). cbn [negb andb].
    destruct (decide (t = curr)) as [Heq|Hne].
    { rewrite bool_decide_eq_true_2 by exact Heq. exact IH'. }
    rewrite bool_decide_eq_false_2 by exact Hne. cbn [negb].
    rewrite (bind_ok _ _ _ _ _ (load_ok _ _ _ Hl)).
    destruct (Hrec t tn ltac:(left) Ht Hnot Hne) as (r & Hrun & Hr).
    rewrite (bind_ok _ _ _ _ _ Hrun).
    destruct r as [q|]; [|exact IH'].
    specialize (Hr q eq_refl).
    destruct (last q) as [h|] eqn:Hlast; cbn match.
    + rewrite (bind_ok _ _ _ _ _ (load_ok _ _ _ HB)).
      destruct (decide (h.1 = id bn)); [|exact IH'].
      exists (Some q). split; [reflexivity|]. intros q' [= <-]. exact Hr.
    + apply last_None in Hlast. contradiction.
Qed.

Lemma walk_links_total recur curr B p prev st links :
  closed (heap st) → is_Some (heap st !! B) →
  Forall (λ l, is_Some (heap st !! l)) links →
  (∀ l ln t tn, l ∈ links → heap st !! l = Some ln → t ∈ parents ln →
     heap st !! t = Some tn → id tn ∉ prev → t ≠ curr →
     ∃ r, recur t (Some (p ++ [(id tn, id ln)])) st = (Ok r, st) ∧
          ∀ q, r = Some q → q ≠ []) →
  ∃ r, walk_links recur curr B p prev links st = (Ok r, st) ∧
       ∀ q, r = Some q → q ≠ [].
Proof.
  intros Hc HB Hall Hrec. induction Hall as [|l links [ln Hl] _ IH].
  - exists None. split; [reflexivity | discriminate].
  - cbn [walk_links]. rewrite (bind_ok _ _ _ _ _ (load_ok _ _ _ Hl)).
    destruct (mem_addr B (parents ln)).
    + destruct HB as [bn HB]. rewrite (bind_ok _ _ _ _ _ (load_ok _ _ _ HB)).
      eexists. split; [reflexivity|]. intros q [= <-].
      intros Heq. apply app_eq_nil in Heq as [_ Heq]. discriminate.
    + destruct (walk_tables_total recur curr B p prev st l ln (parents ln)
                  Hl HB (closed_pars _ _ _ Hc Hl)) as (r & Hrun & Hr).
      { intros t tn Hin Ht. eapply Hrec; [left|exact Hl|exact Hin|exact Ht]. }
      rewrite (bind_ok _ _ _ _ _ Hrun). destruct r as [q|].
      * exists (Some q). split; [reflexivity | exact Hr].
      * apply IH. intros l' ln' t tn Hin. apply Hrec. right. exact Hin.
Qed.

Lemma find_path_total st A B :
  closed (heap st) → is_Some (heap st !! B) →
  (∀ t, connected (heap st) A t → keyed_table (heap st) t) →
  ∀ fuel curr p,
    connected (heap st) A curr →
    unvisited (heap st) (map fst p) < fuel →
    ∃ r, find_path fuel curr B (Some p) st = (Ok r, st) ∧
         ∀ q, r = Some q → q = p ∨ q ≠ [].
Proof.
  intros Hc HB Hkeyed. induction fuel as [|fuel IH]; intros curr p Hconn Hfuel;
    [lia|].
  simpl. destruct (decide (curr = B)) as [->|Hne].
  { exists (Some p). split; [reflexivity|]. intros q [= <-]. left. reflexivity. }
  pose proof (Hkeyed curr Hconn) as Hk.
  rewrite (bind_ok _ _ _ _ _ (table_links_keyed _ _ Hc Hk)).
  destruct (walk_links_total (λ t q, find_path fuel t B q) curr B p
              (map fst p) st (link_candidates (heap st) curr) Hc HB)
    as (r & Hrun & Hr).
  - apply Forall_forall. intros l Hl.
    apply (link_candidates_linked _ _ _ Hc Hk Hl).
  - intros l ln t tn Hl Hln Hin Htn Hnot Hne'.
    destruct (link_candidates_linked _ _ _ Hc Hk Hl) as (_ & Hlen & Hcurr).
    destruct (IH t (p ++ [(id tn, id ln)])) as (r & Hrun & Hr).
    + eapply rtc_r; [exact Hconn|]. exists l. split; [exact Hlen|].
      split; [exact Hcurr|]. rewrite (pars_lookup _ _ _ Hln). exact Hin.
    + rewrite map_app. simpl.
      pose proof (unvisited_extend _ _ _ _ Htn Hnot). lia.
    + exists r. split; [exact Hrun|]. intros q Hq.
      destruct (Hr q Hq) as [->|Hq']; [|exact Hq'].
      intros Heq. apply app_eq_nil in Heq as [_ Heq]. discriminate.
  - exists r. split; [exact Hrun|]. intros q Hq. right. exact (Hr q Hq).
Qed.

(** C6 (amended): for distinct tables [A] and [B] that no chain of shared
    columns connects, where every table a chain from [A] reaches has its
    primary key set and is listed by its own columns, [find_path(A, B)]
    returns [None] without raising and without changing the store, for every
    recursion budget above the number of objects. *)
Theorem find_path_unreachable (st : state) (A B : addr) (fuel : nat) :
  closed (heap st) →
  (∀ t, connected (heap st) A t → keyed_table (heap st) t) →
  ¬ connected (heap st) A B →
  length (heap st) < fuel →
  find_path fuel A B None st = (Ok None, st).
Proof.
  intros Hc Hkeyed Hfar Hfuel.
  destruct fuel as [|fuel]; [lia|].
  change (find_path (S fuel) A B None st)
    with (find_path (S fuel) A B (Some []) st).
  apply (find_path_none st A B Hc Hkeyed Hfar).
  - apply rtc_refl.
  - pose proof (unvisited_le (heap st) (map fst (@nil hop))). lia.
Qed.

(** ** The Actino_Draft cut *)

Lemma closedb_sound h : closedb h = true → closed h.
Proof.
  unfold closedb, closed. rewrite forallb_forall. intros Hall a n Ha.
  specialize (Hall n (proj1 (list_elem_of_In _ _) (list_elem_of_lookup_2 _ _ _ Ha))).
  apply andb_true_iff in Hall as [Hp Hk].
  rewrite forallb_forall in Hp, Hk.
  split; apply Forall_forall; intros x Hx;
    apply Nat.ltb_lt; [apply Hp | apply Hk]; apply list_elem_of_In; exact Hx.
Qed.

Example actino_heap :
  map (λ n, (id n, parents n, children n)) (heap (built_state actino)) =
  [("Actino_Draft", [], [1; 4; 7]);
   ("gene", [0], [2; 5]); ("GeneID", [1], []); ("PhageID", [], []);
   ("phage", [0], [5; 6]); ("PhageID", [4; 1], []); ("Cluster", [4], []);
   ("version", [0], [8; 9]); ("Version", [7], []); ("SchemaVersion", [7], [])].
Proof. vm_compute. reflexivity. Qed.

Example chain_heap :
  map (λ n, (id n, parents n, children n)) (heap (built_state chain)) =
  [("Actino_Draft", [], [1; 4; 6; 8]);
   ("gene", [0], [2; 7]); ("GeneID", [1], []); ("PhageID", [], []);
   ("phage", [0], [7]); ("PhageID", [8], []);
   ("sequenced", [0], [7]); ("PhageID", [6; 4; 1], []);
   ("tmrna", [0], [9; 5]); ("TmrnaID", [8], []); ("PhageID", [], [])].
Proof. vm_compute. reflexivity. Qed.

(** ** Where the specification and the code part *)

(** C1, as worded, fails on the gene/phage schema: after canonicalization
    [gene] resolves PhageID to the canonical vertex, not to nothing. *)
Lemma canonical_as_claimed_fails :
  ¬ canonical_as_claimed (heap (built_state actino)) 0
      (mkFk "gene" "PhageID" "phage").
Proof.
  intros (r & t & pk & Hr & _ & _ & _ & _ & Hnone).
  vm_compute in Hr. injection Hr as <-.
  vm_compute in Hnone. discriminate.
Qed.

(** C2: on the chain schema, where [gene] and [tmrna] both reference the
    PhageID key of [phage], canonicalization ends with [tmrna] missing from
    the parents of the canonical vertex: [phage] resolves PhageID to a vertex
    whose parents are [sequenced], [phage] and [gene], while [tmrna] is left
    holding the vertex [phage] gave up. *)
Theorem chain_loses_a_referencing_table :
  let h := heap (built_state chain) in
  (build 5 chain empty_state).1 = Ok 0 ∧
  resolve h 0 "gene" = Some 1 ∧
  resolve h 0 "phage" = Some 4 ∧
  resolve h 0 "tmrna" = Some 8 ∧
  resolve h 4 "PhageID" = Some 7 ∧
  pars h 7 = [6; 4; 1] ∧
  mem_addr 8 (pars h 7) = false ∧
  resolve h 8 "PhageID" = Some 5 ∧
  pars h 5 = [8].
Proof. vm_compute. repeat split; reflexivity. Qed.

(** With the two constraints answered in the other order it is [gene] that
    is left out. *)
Example chain_swapped_heap :
  map (λ n, (id n, parents n, children n)) (heap (built_state chain_swapped)) =
  [("Actino_Draft", [], [1; 4; 6; 8]);
   ("gene", [0], [2; 5]); ("GeneID", [1], []); ("PhageID", [], []);
   ("phage", [0], [7]); ("PhageID", [1], []);
   ("sequenced", [0], [7]); ("PhageID", [6; 4; 8], []);
   ("tmrna", [0], [9; 7]); ("TmrnaID", [8], []); ("PhageID", [], [])].
Proof. vm_compute. reflexivity. Qed.

(** C10, as worded, fails when the target is the keyless table itself:
    [find_path(version, version)] returns the empty path. *)
Lemma keyless_call_raises_fails :
  ¬ keyless_call_raises (built_state actino) 7 7.
Proof.
  intros H. destruct H as [fuel Hf].
  - eexists _, _. split; vm_compute; reflexivity.
  - vm_compute. reflexivity.
  - destruct fuel as [|fuel]; vm_compute in Hf; discriminate.
Qed.

(** C6, as worded, fails on a table without primary key: [version] and
    [phage] are distinct and unconnected, and [find_path] raises
    AttributeError for every recursion budget. *)
Lemma unreachable_gives_no_path_fails :
  ¬ unreachable_gives_no_path (built_state actino) 7 4.
Proof.
  intros H. destruct H as [fuel Hf].
  - discriminate.
  - intros Hc. apply rtc_inv in Hc as [Heq|(y & (c & Hlen & Hin & _) & _)];
      [discriminate|].
    remember (heap (built_state actino)) as h eqn:Hh.
    vm_compute in Hh. subst h.
    do 10 (destruct c as [|c];
           [vm_compute in Hlen; try lia;
            repeat (apply elem_of_cons in Hin as [Hin|Hin]; [discriminate|]);
            inversion Hin|]).
    vm_compute in Hlen. destruct c; simpl in Hlen; lia.
  - destruct fuel as [|fuel]; vm_compute in Hf; discriminate.
Qed.

(** ** Canonicalization on schemas without chains *)

Lemma lookup_id_names h h' w l :
  (∀ a, name_of h' a = name_of h a) → lookup_id h' w l = lookup_id h w l.
Proof.
  intros Hn. unfold lookup_id. f_equal. apply list_filter_iff.
  intros a. unfold has_name. rewrite Hn. reflexivity.
Qed.

Lemma lookup_id_snoc_hit h w l x :
  name_of h x = Some w → lookup_id h w (l ++ [x]) = Some x.
Proof.
  intros Hx. unfold lookup_id. rewrite filter_app, filter_cons.
  destruct (decide (has_name h w x = true)) as [_|Hn].
  - rewrite filter_nil. apply last_snoc.
  - exfalso. apply Hn. unfold has_name. apply bool_decide_eq_true_2, Hx.
Qed.

Lemma filter_list_remove (P : nat → Prop) `{∀ x, Decision (P x)} y l l' :
  list_remove y l = Some l' → ¬ P y → filter P l' = filter P l.
Proof.
  revert l'. induction l as [|z l IH]; intros l' Hr Hy; [discriminate|].
  simpl in Hr. destruct (decide (y = z)) as [->|Hne].
  - injection Hr as <-. rewrite (filter_cons P z).
    destruct (decide (P z)); [contradiction | reflexivity].
  - destruct (list_remove y l) as [r|]; [|discriminate]. injection Hr as <-.
    rewrite !filter_cons, (IH r eq_refl Hy). reflexivity.
Qed.

Lemma lookup_id_remove_miss h w y l l' :
  list_remove y l = Some l' → name_of h y ≠ Some w →
  lookup_id h w l' = lookup_id h w l.
Proof.
  intros Hr Hy. unfold lookup_id. f_equal.
  eapply filter_list_remove; [exact Hr|].
  unfold has_name. rewrite bool_decide_eq_true. exact Hy.
Qed.

Lemma lookup_id_snoc_miss h w l x :
  name_of h x ≠ Some w → lookup_id h w (l ++ [x]) = lookup_id h w l.
Proof.
  intros Hx. unfold lookup_id. rewrite filter_app, filter_cons.
  destruct (decide (has_name h w x = true)) as [Hn|_].
  - exfalso. apply Hx. unfold has_name in Hn.
    apply bool_decide_eq_true in Hn. exact Hn.
  - rewrite filter_nil, app_nil_r. reflexivity.
Qed.

Lemma list_remove_app_l x l m :
  x ∈ l →
  ∃ l', list_remove x l = Some l' ∧ list_remove x (l ++ m) = Some (l' ++ m).
Proof.
  induction l as [|y l IH]; intros Hin; [inversion Hin|].
  simpl. destruct (decide (x = y)) as [->|Hne]; [eauto|].
  apply elem_of_cons in Hin as [Heq|Hin]; [contradiction|].
  destruct (IH Hin) as (l' & -> & ->). eauto.
Qed.

Lemma list_remove_elem_of_inv x y l l' :
  list_remove y l = Some l' → x ∈ l' → x ∈ l.
Proof.
  revert l'. induction l as [|z l IH]; intros l' Hr Hin; [discriminate|].
  simpl in Hr. destruct (decide (y = z)) as [->|Hne].
  - injection Hr as <-. right. exact Hin.
  - destruct (list_remove y l) as [r|]; [|discriminate]. injection Hr as <-.
    apply elem_of_cons in Hin as [->|Hin]; [left | right; eauto].
Qed.

Lemma list_remove_keeps x y l l' :
  list_remove y l = Some l' → x ≠ y → x ∈ l → x ∈ l'.
Proof.
  revert l'. induction l as [|z l IH]; intros l' Hr Hne Hin; [discriminate|].
  simpl in Hr. destruct (decide (y = z)) as [->|Hne'].
  - injection Hr as <-. apply elem_of_cons in Hin as [->|Hin];
      [contradiction | exact Hin].
  - destruct (list_remove y l) as [r|]; [|discriminate]. injection Hr as <-.
    apply elem_of_cons in Hin as [->|Hin]; [left | right; eauto].
Qed.

Lemma closed_views h :
  closed h ↔
  ∀ a x, x ∈ pars h a ∨ x ∈ kids h a → x < length h.
Proof.
  split.
  - intros Hc a x Hx. unfold pars, kids in Hx.
    destruct (h !! a) as [n|] eqn:Ha; simpl in Hx.
    + destruct (Hc a n Ha) as [Hp Hk]. rewrite Forall_forall in Hp, Hk.
      destruct Hx; auto.
    + destruct Hx as [Hx|Hx]; inversion Hx.
  - intros Hv a n Ha. split; apply Forall_forall; intros x Hx; apply (Hv a);
      unfold pars, kids; rewrite Ha; simpl; auto.
Qed.

Lemma same_objects_names st st' :
  same_objects st st' → same_names (heap st) (heap st').
Proof.
  intros (_ & Hlen & Hlab). split; [exact Hlen|]. split.
  - intros a. specialize (Hlab a). unfold label, name_of in *.
    destruct (heap st' !! a), (heap st !! a); simpl in *; congruence.
  - intros a (n & pk & Ha & Hcls). specialize (Hlab a).
    unfold label in Hlab. rewrite Ha in Hlab.
    destruct (heap st' !! a) as [n'|] eqn:Ha'; [|discriminate].
    simpl in Hlab. exists n', pk. split; [exact Ha'|]. congruence.
Qed.

Lemma same_names_refl h : same_names h h.
Proof. repeat split; auto. Qed.

Lemma same_names_trans h1 h2 h3 :
  same_names h1 h2 → same_names h2 h3 → same_names h1 h3.
Proof.
  intros (Hl1 & Hn1 & Ht1) (Hl2 & Hn2 & Ht2). split; [congruence|]. split.
  - intros a. rewrite Hn2. apply Hn1.
  - intros a Ha. apply Ht2, Ht1, Ha.
Qed.

Lemma set_primary_key_effect st r v :
  is_table (heap st) r →
  ∃ st', set_primary_key r v st = (Ok tt, st') ∧ sent st' = sent st ∧
    same_names (heap st) (heap st') ∧
    (∀ a, kids (heap st') a = kids (heap st) a) ∧
    (∀ a, pars (heap st') a = pars (heap st) a).
Proof.
  intros (n & pk & Hr & Hcls).
  assert (Hlt : r < length (heap st)) by (eapply lookup_lt_Some; eassumption).
  eexists. split; [|split; [|split; [|split]]].
  - unfold set_primary_key. rewrite (bind_ok _ _ _ _ _ (load_ok _ _ _ Hr)).
    rewrite Hcls. reflexivity.
  - reflexivity.
  - cbn [heap]. split; [apply length_insert|]. split.
    + intros a. unfold name_of. destruct (decide (a = r)) as [->|Hne].
      * rewrite list_lookup_insert_eq by exact Hlt. rewrite Hr. reflexivity.
      * rewrite list_lookup_insert_ne by congruence. reflexivity.
    + intros a (n' & pk' & Ha & Hcls'). unfold is_table.
      destruct (decide (a = r)) as [->|Hne].
      * rewrite list_lookup_insert_eq by exact Hlt. eexists _, _.
        split; reflexivity.
      * rewrite list_lookup_insert_ne by congruence. eauto.
  - intros a. cbn [heap]. rewrite kids_insert by exact Hlt.
    destruct (decide (a = r)) as [->|]; [|reflexivity].
    unfold kids. rewrite Hr. reflexivity.
  - intros a. cbn [heap]. rewrite pars_insert by exact Hlt.
    destruct (decide (a = r)) as [->|]; [|reflexivity].
    unfold pars. rewrite Hr. reflexivity.
Qed.

Lemma gettext_run row k s st :
  row_get row k = Some (VStr s) → gettext row k st = (Ok s, st).
Proof. intros H. unfold gettext, getitem. rewrite H. reflexivity. Qed.

Lemma pars_allocated h a x : x ∈ pars h a → is_Some (h !! a).
Proof.
  unfold pars. destruct (h !! a); [eauto|]. intros H; inversion H.
Qed.

Lemma read_parents_run st a :
  is_Some (heap st !! a) →
  read_parents a st = (Ok (pars (heap st) a), st).
Proof.
  intros [n Ha]. unfold read_parents.
  rewrite (bind_ok _ _ _ _ _ (load_ok _ _ _ Ha)).
  rewrite (pars_lookup _ _ _ Ha). reflexivity.
Qed.

Lemma read_children_run st a :
  is_Some (heap st !! a) →
  read_children a st = (Ok (kids (heap st) a), st).
Proof.
  intros [n Ha]. unfold read_children.
  rewrite (bind_ok _ _ _ _ _ (load_ok _ _ _ Ha)).
  rewrite (kids_lookup _ _ _ Ha). reflexivity.
Qed.

(** The loop over the parents of a column still owned by its table alone:
    the only parent was linked to the primary key just before, so nothing is
    moved. *)
Lemma reparent_loop_single fuel st pk fk r :
  1 < fuel →
  pars (heap st) fk = [r] →
  r ∈ pars (heap st) pk →
  for_live fuel (read_parents fk) 0 (reparent pk fk) st = (Ok tt, st).
Proof.
  intros Hfuel Hfk Hr.
  destruct fuel as [|[|fuel]]; [lia | lia |].
  assert (Hfk' : is_Some (heap st !! fk)).
  { apply (pars_allocated _ _ r). rewrite Hfk. left. }
  destruct (pars_allocated _ _ _ Hr) as [pn Hpk].
  cbn [for_live].
  rewrite (bind_ok _ _ _ _ _ (read_parents_run _ _ Hfk')), Hfk.
  cbn [lookup list_lookup].
  rewrite (bind_ok _ _ st tt st).
  - rewrite (bind_ok _ _ _ _ _ (read_parents_run _ _ Hfk')), Hfk. reflexivity.
  - unfold reparent. rewrite (bind_ok _ _ _ _ _ (load_ok _ _ _ Hpk)).
    rewrite <- (pars_lookup _ _ _ Hpk). unfold mem_addr.
    rewrite bool_decide_eq_true_2 by exact Hr. reflexivity.
Qed.

Lemma is_table_primary_key st r :
  is_table (heap st) r → ∃ pk, get_primary_key r st = (Ok pk, st).
Proof.
  intros (n & pk & Hr & Hcls). exists pk.
  eapply get_primary_key_run; eassumption.
Qed.

Lemma resolve_allocated h o w a :
  resolve h o w = Some a → a ∈ kids h o ∧ name_of h a = Some w ∧ a < length h.
Proof.
  intros Hr. apply lookup_id_allocated in Hr as (n & Ha & Hid & Hin).
  split; [exact Hin|]. split.
  - unfold name_of. rewrite Ha. simpl. congruence.
  - eapply lookup_lt_Some. exact Ha.
Qed.

Lemma web_constraint_effect fuel d X row f st r pk fk :
  closed (heap st) → paired (heap st) → 1 < fuel → row_says row f →
  is_Some (heap st !! d) → is_Some (heap st !! X) →
  resolve (heap st) X (fk_column f) = Some pk →
  resolve (heap st) d (fk_table f) = Some r →
  resolve (heap st) r (fk_column f) = Some fk →
  pars (heap st) fk = [r] → pk ≠ fk → is_table (heap st) r →
  ∃ st' lk,
    web_constraint fuel d X row st = (Ok tt, st') ∧
    sent st' = sent st ∧
    same_names (heap st) (heap st') ∧ paired (heap st') ∧
    list_remove fk (kids (heap st) r) = Some lk ∧
    (∀ a, kids (heap st') a =
          if decide (a = r) then lk ++ [pk] else kids (heap st) a) ∧
    (∀ a, pars (heap st') a =
          if decide (a = fk) then []
          else if decide (a = pk) then pars (heap st) pk ++ [r]
          else pars (heap st) a).
Proof.
  intros Hc Hpair Hfuel [Hrow_t Hrow_c] [dn Hd] [Xn HX] Hpk Hr Hfk Hfkp Hne Htab.
  destruct (resolve_allocated _ _ _ _ Hpk) as (_ & _ & Hpk_lt).
  destruct (resolve_allocated _ _ _ _ Hr) as (_ & _ & Hr_lt).
  destruct (resolve_allocated _ _ _ _ Hfk) as (Hfk_in & _ & Hfk_lt).
  destruct (lookup_lt_is_Some_2 _ _ Hr_lt) as [rn Hrn].
  unfold web_constraint.
  rewrite (bind_ok _ _ _ _ _ (gettext_run _ _ _ _ Hrow_c)).
  unfold get_column, get_table.
  rewrite (bind_ok _ _ _ _ _ (get_child_run _ _ _ _ Hc HX)), Hpk.
  rewrite (bind_ok _ _ _ _ _ (gettext_run _ _ _ _ Hrow_t)).
  rewrite (bind_ok _ _ _ _ _ (get_child_run _ _ _ _ Hc Hd)), Hr.
  rewrite (bind_ok (deref (Some r)) _ st r st eq_refl).
  rewrite (bind_ok _ _ _ _ _ (gettext_run _ _ _ _ Hrow_c)).
  rewrite (bind_ok _ _ _ _ _ (get_child_run _ _ _ _ Hc Hrn)), Hfk.
  rewrite (bind_ok (deref (Some pk)) _ st pk st eq_refl).
  (* primary_key_node.add_table(ref_table) *)
  unfold column_add_table.
  destruct (add_parent_effect st pk r Hpk_lt Hr_lt)
    as (st1 & Hrun1 & Hadd).
  pose proof (paired_edge_added _ _ _ _ Hpair Hadd) as Hpair1.
  destruct Hadd as (Hsame1 & Hk1 & Hp1).
  pose proof (same_objects_names _ _ Hsame1) as Hnames1.
  rewrite (bind_ok _ _ _ _ _ Hrun1).
  (* the primary key of the referencing table *)
  assert (Htab1 : is_table (heap st1) r) by (apply Hnames1, Htab).
  destruct (is_table_primary_key _ _ Htab1) as [ref_pk Hrpk].
  rewrite (bind_ok _ _ _ _ _ Hrpk).
  assert (Hset : ∃ st2,
    (if decide (Some fk = ref_pk) then set_primary_key r (Some pk)
     else mret tt) st1 = (Ok tt, st2) ∧ sent st2 = sent st1 ∧
    same_names (heap st1) (heap st2) ∧
    (∀ a, kids (heap st2) a = kids (heap st1) a) ∧
    (∀ a, pars (heap st2) a = pars (heap st1) a)).
  { destruct (decide (Some fk = ref_pk)).
    - apply set_primary_key_effect, Htab1.
    - exists st1. split; [reflexivity|]. split; [reflexivity|].
      split; [apply same_names_refl|]. split; reflexivity. }
  destruct Hset as (st2 & Hrun2 & Hsent2 & Hnames2 & Hk2 & Hp2).
  rewrite (bind_ok _ _ _ _ _ Hrun2).
  rewrite (bind_ok (deref (Some fk)) _ st2 fk st2 eq_refl).
  (* the loop over foreign_key_node.parents *)
  assert (Hfkp2 : pars (heap st2) fk = [r]).
  { rewrite Hp2, Hp1. destruct (decide (fk = pk)); [congruence | exact Hfkp]. }
  assert (Hrp2 : r ∈ pars (heap st2) pk).
  { rewrite Hp2, Hp1. destruct (decide (pk = pk)); [|congruence].
    apply elem_of_app. right. left. }
  rewrite (bind_ok _ _ _ _ _ (reparent_loop_single _ _ _ _ _ Hfuel Hfkp2 Hrp2)).
  (* ref_table.remove_column(foreign_key_node) *)
  assert (Hpair2 : paired (heap st2)) by exact (paired_ext _ _ Hk2 Hp2 Hpair1).
  assert (Hlen2 : length (heap st2) = length (heap st)).
  { destruct Hnames2 as (-> & _). destruct Hnames1 as (-> & _). reflexivity. }
  unfold remove_column.
  destruct (remove_child_effect st2 r fk Hpair2 ltac:(lia) ltac:(lia))
    as [(_ & st3 & Hrun3 & Hrem) | (Hnot & _)].
  2:{ exfalso. apply Hnot. rewrite Hk2, Hk1.
      destruct (decide (r = r)); [|congruence].
      apply elem_of_app. left. exact Hfk_in. }
  pose proof (paired_edge_removed _ _ _ _ Hpair2 Hrem) as Hpair3.
  destruct Hrem as (Hsame3 & lk3 & lp3 & Hlk3 & Hlp3 & Hk3 & Hp3).
  pose proof (same_objects_names _ _ Hsame3) as Hnames3.
  rewrite (bind_ok _ _ _ _ _ Hrun3).
  destruct (list_remove_app_l fk (kids (heap st) r) [pk] Hfk_in)
    as (lk & Hlk & Hlk_app).
  rewrite Hk2, Hk1 in Hlk3. destruct (decide (r = r)); [|congruence].
  rewrite Hlk_app in Hlk3. injection Hlk3 as <-.
  rewrite Hfkp2 in Hlp3. simpl in Hlp3.
  destruct (decide (r = r)); [|congruence]. injection Hlp3 as <-.
  exists st3, lk. split; [reflexivity|].
  split. { destruct Hsame3 as (-> & _). rewrite Hsent2.
           destruct Hsame1 as (-> & _). reflexivity. }
  split. { eapply same_names_trans; [|exact Hnames3].
           eapply same_names_trans; eassumption. }
  split; [exact Hpair3|]. split; [exact Hlk|]. split.
  - intros a. rewrite Hk3. destruct (decide (a = r)) as [->|Hner]; [reflexivity|].
    rewrite Hk2, Hk1. destruct (decide (a = r)); [contradiction | reflexivity].
  - intros a. rewrite Hp3. destruct (decide (a = fk)) as [->|Hnef]; [reflexivity|].
    rewrite Hp2, Hp1. reflexivity.
Qed.

Lemma key_inj {A B} (g : A → B) (l : list A) x y :
  NoDup (map g l) → x ∈ l → y ∈ l → g x = g y → x = y.
Proof.
  induction l as [|z l IH]; intros Hnd Hx Hy Hg; [inversion Hx|].
  simpl in Hnd. apply NoDup_cons in Hnd as [Hz Hnd].
  apply elem_of_cons in Hx as [->|Hx]; apply elem_of_cons in Hy as [->|Hy].
  - reflexivity.
  - exfalso. apply Hz. rewrite Hg. apply list_elem_of_fmap. eauto.
  - exfalso. apply Hz. rewrite <- Hg. apply list_elem_of_fmap. eauto.
  - auto.
Qed.

Lemma sited_names h d f s :
  sited h d f s →
  name_of h (s_ref s) = Some (fk_table f) ∧
  name_of h (s_table s) = Some (fk_ref_table f) ∧
  name_of h (s_pk s) = Some (fk_column f) ∧
  name_of h (s_fk s) = Some (fk_column f) ∧
  s_ref s ∈ kids h d.
Proof.
  intros (Hr & Ht & Hpk & Hfk).
  apply resolve_allocated in Hr as (Hin & Hr & _).
  apply resolve_allocated in Ht as (_ & Ht & _).
  apply resolve_allocated in Hpk as (_ & Hpk & _).
  apply resolve_allocated in Hfk as (_ & Hfk & _).
  auto.
Qed.

Lemma sited_unique h d f s s' : sited h d f s → sited h d f s' → s = s'.
Proof.
  intros (Hr & Ht & Hpk & Hfk) (Hr' & Ht' & Hpk' & Hfk').
  destruct s as [r t pk fk], s' as [r' t' pk' fk']. simpl in *.
  rewrite Hr in Hr'. injection Hr' as <-.
  rewrite Ht in Ht'. injection Ht' as <-.
  rewrite Hpk in Hpk'. injection Hpk' as <-.
  rewrite Hfk in Hfk'. injection Hfk' as <-. reflexivity.
Qed.

(** Resolving a name after a constraint was processed: only the column name
    of the constraint on its referencing table resolves differently. *)
Lemma resolve_after_constraint h h' r lk pk fk c :
  (∀ a, name_of h' a = name_of h a) →
  list_remove fk (kids h r) = Some lk →
  (∀ a, kids h' a = if decide (a = r) then lk ++ [pk] else kids h a) →
  name_of h pk = Some c → name_of h fk = Some c →
  resolve h' r c = Some pk ∧
  ∀ X w, X ≠ r ∨ w ≠ c → resolve h' X w = resolve h X w.
Proof.
  intros Hn Hlk Hk Hpk Hfk. split.
  - unfold resolve. rewrite Hk. destruct (decide (r = r)); [|congruence].
    rewrite (lookup_id_names _ _ _ _ Hn). apply lookup_id_snoc_hit, Hpk.
  - intros X w Hcase. unfold resolve. rewrite Hk, (lookup_id_names _ _ _ _ Hn).
    destruct (decide (X = r)) as [->|_]; [|reflexivity].
    destruct Hcase as [?|Hw]; [congruence|].
    rewrite lookup_id_snoc_miss by (rewrite Hpk; congruence).
    eapply lookup_id_remove_miss; [exact Hlk|]. rewrite Hfk. congruence.
Qed.

Lemma resolve_root_kept h0 h d w :
  (∀ a, name_of h a = name_of h0 a) → kids h d = kids h0 d →
  resolve h d w = resolve h0 d w.
Proof.
  intros Hn Hk. unfold resolve. rewrite Hk. apply lookup_id_names, Hn.
Qed.

Lemma webs_inv_step hd h0 d fks done fuel X row f st :
  flat_schema hd h0 d fks →
  webs_inv h0 d fks done (heap st) →
  f ∈ fks → f ∉ done →
  X ∈ kids h0 d → name_of h0 X = Some (fk_ref_table f) →
  row_says row f → 1 < fuel →
  ∃ st', web_constraint fuel d X row st = (Ok tt, st') ∧
         sent st' = sent st ∧
         webs_inv h0 d fks (f :: done) (heap st').
Proof.
  intros Hflat Hinv Hf Hnd HX HXn Hrow Hfuel.
  destruct Hflat as [_ _ Hroot Hapart _ Hnamed _ Hsites Hkeys Hflat].
  destruct Hinv as [Hc Hpair Hlen Hnames Htabs Hkd Hinv].
  destruct (Hsites f Hf) as (s & Hs & Htab & _ & _).
  pose proof (sited_names _ _ _ _ Hs) as (Nr & Nt & Npk & Nfk & Hr_in).
  destruct (Hinv f s Hf Hs) as (Hpk & Ht_in & _ & Hpend).
  destruct (Hpend Hnd) as (Hfk & Hfkp). clear Hpend.
  set (r := s_ref s) in *. set (t := s_table s) in *.
  set (pk := s_pk s) in *. set (fk := s_fk s) in *.
  set (c := fk_column f) in *.
  set (h := heap st) in *.
  (* the table being visited is the referenced table *)
  assert (HXt : X = t).
  { destruct (Hnamed X HX) as (n & HnX & HresX).
    rewrite HXn in HnX. injection HnX as <-.
    pose proof Hs as (_ & Ht & _). rewrite HresX in Ht.
    injection Ht as ->. reflexivity. }
  subst X.
  assert (Hrd : resolve h d (fk_table f) = Some r).
  { rewrite (resolve_root_kept h0 h d _ Hnames Hkd). apply Hs. }
  assert (Hd : is_Some (h !! d)).
  { apply lookup_lt_is_Some. rewrite Hlen. apply lookup_lt_is_Some, Hroot. }
  assert (Ht : is_Some (h !! t)).
  { destruct (name_of_Some _ _ _ Nt) as (tn & Htn & _).
    apply lookup_lt_is_Some. rewrite Hlen. eapply lookup_lt_Some. exact Htn. }
  (* consequences of the absence of chains *)
  assert (F1 : ∀ f' s', f' ∈ fks → sited h0 d f' s' →
            s_table s' = r → fk_column f' ≠ c).
  { intros f' s' Hf' Hs' Heq Hcol.
    pose proof (sited_names _ _ _ _ Hs') as (_ & Nt' & _).
    rewrite Heq in Nt'. fold r in Nr. rewrite Nr in Nt'. injection Nt' as Hn.
    exact (Hflat f f' Hf Hf' (eq_sym Hcol) Hn). }
  assert (F2 : ∀ f' s', f' ∈ fks → sited h0 d f' s' →
            s_ref s' = r → fk_column f' = c → f' = f).
  { intros f' s' Hf' Hs' Heq Hcol.
    pose proof (sited_names _ _ _ _ Hs') as (Nr' & _).
    rewrite Heq in Nr'. fold r in Nr. rewrite Nr in Nr'. injection Nr' as Hn.
    apply (key_inj fk_key fks); try assumption.
    unfold fk_key. fold c. rewrite <- Hn, Hcol. reflexivity. }
  assert (F3 : ∀ f' s', f' ∈ fks → sited h0 d f' s' → s_pk s' ≠ fk).
  { intros f' s' Hf' Hs' Heq.
    destruct (Hinv f' s' Hf' Hs') as (_ & Ht' & _).
    rewrite Heq, Hfkp in Ht'. apply list_elem_of_singleton in Ht'.
    pose proof (sited_names _ _ _ _ Hs') as (_ & _ & Npk' & _).
    rewrite Heq in Npk'. fold fk in Nfk. rewrite Nfk in Npk'.
    injection Npk' as Hcol.
    exact (F1 f' s' Hf' Hs' Ht' (eq_sym Hcol)). }
  assert (Hne : pk ≠ fk) by exact (F3 f s Hf Hs).
  assert (F4 : ∀ f' s', f' ∈ fks → sited h0 d f' s' →
            pars h (s_fk s') = [s_ref s'] → s_fk s' ≠ pk).
  { intros f' s' Hf' Hs' Hp' Heq.
    rewrite Heq in Hp'. rewrite Hp' in Ht_in.
    apply list_elem_of_singleton in Ht_in.
    pose proof (sited_names _ _ _ _ Hs') as (Nr' & _ & _ & Nfk' & _).
    rewrite Heq in Nfk'. fold pk in Npk. rewrite Npk in Nfk'.
    injection Nfk' as Hcol.
    rewrite <- Ht_in in Nr'. fold t in Nt. rewrite Nt in Nr'.
    injection Nr' as Hn.
    exact (Hflat f' f Hf' Hf (eq_sym Hcol) (eq_sym Hn)). }
  assert (F5 : ∀ f' s', f' ∈ fks → sited h0 d f' s' →
            pars h (s_fk s') = [s_ref s'] → s_fk s' = fk → f' = f).
  { intros f' s' Hf' Hs' Hp' Heq.
    rewrite Heq, Hfkp in Hp'. injection Hp' as Hr'.
    pose proof (sited_names _ _ _ _ Hs') as (_ & _ & _ & Nfk' & _).
    rewrite Heq in Nfk'. fold fk in Nfk. rewrite Nfk in Nfk'.
    injection Nfk' as Hcol.
    exact (F2 f' s' Hf' Hs' (eq_sym Hr') (eq_sym Hcol)). }
  (* run the body *)
  destruct (web_constraint_effect fuel d t row f st r pk fk
              Hc Hpair Hfuel Hrow Hd Ht Hpk Hrd Hfk Hfkp Hne
              (Htabs _ Htab))
    as (st' & lk & Hrun & Hsent & Hsame & Hpair' & Hlk & Hk' & Hp').
  exists st'. split; [exact Hrun|]. split; [exact Hsent|].
  destruct Hsame as (Hlen' & Hnames' & Htabs').
  assert (Npk_h : name_of h pk = Some c) by (rewrite Hnames; exact Npk).
  assert (Nfk_h : name_of h fk = Some c) by (rewrite Hnames; exact Nfk).
  destruct (resolve_after_constraint h (heap st') r lk pk fk c
              Hnames' Hlk Hk' Npk_h Nfk_h) as (Hres_r & Hres).
  assert (Hpk_lt : pk < length h) by (apply (resolve_allocated _ _ _ _ Hpk)).
  assert (Hr_lt : r < length h) by (apply (resolve_allocated _ _ _ _ Hrd)).
  assert (Hkeep : ∀ a x, a ≠ fk → x ∈ pars h a → x ∈ pars (heap st') a).
  { intros a x Ha Hx. rewrite Hp'.
    destruct (decide (a = fk)); [contradiction|].
    destruct (decide (a = pk)) as [->|]; [|exact Hx].
    apply elem_of_app. left. exact Hx. }
  constructor.
  - (* closed *)
    apply closed_views. intros a x Hx. rewrite Hlen'.
    rewrite Hp', Hk' in Hx.
    pose proof (proj1 (closed_views h) Hc) as Hv.
    destruct Hx as [Hx|Hx].
    + destruct (decide (a = fk)); [inversion Hx|].
      destruct (decide (a = pk)) as [->|]; [|apply (Hv a); auto].
      apply elem_of_app in Hx as [Hx|Hx]; [apply (Hv pk); auto|].
      apply list_elem_of_singleton in Hx. subst x. exact Hr_lt.
    + destruct (decide (a = r)) as [->|]; [|apply (Hv a); auto].
      apply elem_of_app in Hx as [Hx|Hx].
      * apply (Hv r). right. eapply list_remove_elem_of_inv; eassumption.
      * apply list_elem_of_singleton in Hx. subst x. exact Hpk_lt.
  - exact Hpair'.
  - rewrite Hlen'. exact Hlen.
  - intros a. rewrite Hnames'. apply Hnames.
  - intros a Ha. apply Htabs', Htabs, Ha.
  - rewrite Hk'. destruct (decide (d = r)) as [Heq|_]; [|exact Hkd].
    exfalso. apply Hapart. rewrite Heq at 1. exact Hr_in.
  - intros f' s' Hf' Hs'.
    destruct (Hinv f' s' Hf' Hs') as (A & B & C & D).
    split; [|split; [|split]].
    + (* the referenced table still resolves its column *)
      rewrite Hres; [exact A|].
      destruct (decide (s_table s' = r)) as [Heq|]; [right|left; assumption].
      exact (F1 f' s' Hf' Hs' Heq).
    + apply Hkeep; [exact (F3 f' s' Hf' Hs') | exact B].
    + intros Hdone. apply elem_of_cons in Hdone as [->|Hdone].
      * rewrite (sited_unique _ _ _ _ _ Hs' Hs). fold r pk fk c.
        split; [exact Hres_r|]. split.
        -- rewrite Hp'. destruct (decide (pk = fk)); [contradiction|].
           destruct (decide (pk = pk)); [|congruence].
           apply elem_of_app. right. left.
        -- rewrite Hp'. destruct (decide (fk = fk)); [reflexivity|congruence].
      * destruct (C Hdone) as (C1 & C2 & C3).
        split; [|split].
        -- rewrite Hres; [exact C1|].
           destruct (decide (s_ref s' = r)) as [Heq|]; [right|left; assumption].
           intros Hcol. apply Hnd.
           rewrite <- (F2 f' s' Hf' Hs' Heq Hcol). exact Hdone.
        -- apply Hkeep; [exact (F3 f' s' Hf' Hs') | exact C2].
        -- rewrite Hp'. destruct (decide (s_fk s' = fk)); [reflexivity|].
           destruct (decide (s_fk s' = pk)) as [Heq|]; [|exact C3].
           exfalso. rewrite Heq in C3. rewrite C3 in Ht_in. inversion Ht_in.
    + intros Hpend'.
      assert (Hne' : f' ≠ f) by (intros ->; apply Hpend'; left).
      assert (Hnd' : f' ∉ done) by (intros Hin; apply Hpend'; right; exact Hin).
      destruct (D Hnd') as (D1 & D2).
      split.
      * rewrite Hres; [exact D1|].
        destruct (decide (s_ref s' = r)) as [Heq|]; [right|left; assumption].
        intros Hcol. exact (Hne' (F2 f' s' Hf' Hs' Heq Hcol)).
      * rewrite Hp'.
        destruct (decide (s_fk s' = fk)) as [Heq|];
          [exfalso; exact (Hne' (F5 f' s' Hf' Hs' D2 Heq))|].
        destruct (decide (s_fk s' = pk)) as [Heq|]; [|exact D2].
        exfalso. exact (F4 f' s' Hf' Hs' D2 Heq).
Qed.

Lemma webs_inv_ext h0 d fks done done' h :
  (∀ f, f ∈ done ↔ f ∈ done') →
  webs_inv h0 d fks done h → webs_inv h0 d fks done' h.
Proof.
  intros Hext [Hc Hpair Hlen Hnames Htabs Hkd Hinv].
  constructor; try assumption.
  intros f s Hf Hs. destruct (Hinv f s Hf Hs) as (A & B & C & D).
  split; [exact A|]. split; [exact B|]. split.
  - intros Hd. apply C, Hext, Hd.
  - intros Hd. apply D. intros Hin. apply Hd, Hext, Hin.
Qed.

Lemma webs_inv_rows hd h0 d fks fuel X rows fs :
  flat_schema hd h0 d fks →
  X ∈ kids h0 d → 1 < fuel →
  Forall2 row_says rows fs →
  (∀ f, f ∈ fs → f ∈ fks ∧ name_of h0 X = Some (fk_ref_table f)) →
  NoDup fs →
  ∀ done st,
    (∀ f, f ∈ fs → f ∉ done) →
    webs_inv h0 d fks done (heap st) →
    ∃ st', for_each rows (web_constraint fuel d X) st = (Ok tt, st') ∧
           sent st' = sent st ∧
           webs_inv h0 d fks (fs ++ done) (heap st').
Proof.
  intros Hflat HX Hfuel Hrows.
  induction Hrows as [|row f rows fs Hrow _ IH]; intros Hfs Hnd done st Hfresh Hinv.
  - exists st. split; [reflexivity|]. split; [reflexivity | exact Hinv].
  - apply NoDup_cons in Hnd as [Hf_fs Hnd].
    destruct (Hfs f ltac:(left)) as [Hf HXn].
    destruct (webs_inv_step hd h0 d fks done fuel X row f st Hflat Hinv Hf
                (Hfresh f ltac:(left)) HX HXn Hrow Hfuel)
      as (st1 & Hrun1 & Hsent1 & Hinv1).
    destruct (IH (λ f' Hf', Hfs f' ltac:(right; exact Hf')) Hnd (f :: done) st1)
      as (st2 & Hrun2 & Hsent2 & Hinv2).
    + intros f' Hf' Hin. apply elem_of_cons in Hin as [->|Hin];
        [contradiction|]. apply (Hfresh f'); [right; exact Hf' | exact Hin].
    + exact Hinv1.
    + exists st2. split; [|split].
      * cbn [for_each]. rewrite (bind_ok _ _ _ _ _ Hrun1). exact Hrun2.
      * congruence.
      * eapply webs_inv_ext; [|exact Hinv2]. intros f'.
        simpl. rewrite ?elem_of_cons, ?elem_of_app, ?elem_of_cons. tauto.
Qed.

Lemma fks_to_spec fks n f :
  f ∈ fks_to fks n ↔ fk_ref_table f = n ∧ f ∈ fks.
Proof.
  unfold fks_to. apply (list_elem_of_filter (λ f, fk_ref_table f = n)).
Qed.

Lemma webs_inv_table hd h0 d fks fuel X n done st :
  flat_schema hd h0 d fks →
  X ∈ kids h0 d → name_of h0 X = Some n → 1 < fuel →
  (∀ f, f ∈ fks_to fks n → f ∉ done) →
  webs_inv h0 d fks done (heap st) →
  ∃ st', web_table fuel hd d X st = (Ok tt, st') ∧
         webs_inv h0 d fks (fks_to fks n ++ done) (heap st').
Proof.
  intros Hflat HX Hn Hfuel Hfresh Hinv.
  assert (Hn' : name_of (heap st) X = Some n)
    by (rewrite (wi_names _ _ _ _ _ Hinv); exact Hn).
  destruct (name_of_Some _ _ _ Hn') as (Xn & HXn & Hid).
  unfold web_table. rewrite (bind_ok _ _ _ _ _ (load_ok _ _ _ HXn)), Hid.
  rewrite bind_run. unfold execute_query at 1.
  set (st1 := mkState (heap st) _).
  destruct (webs_inv_rows hd h0 d fks fuel X
              (answer hd (foreign_key_query hd n)) (fks_to fks n)
              Hflat HX Hfuel (fs_answers _ _ _ _ Hflat X n HX Hn))
    with (done := done) (st := st1)
    as (st2 & Hrun & _ & Hinv2).
  - intros f Hf. apply fks_to_spec in Hf as [<- Hf]. split; assumption.
  - unfold fks_to. apply NoDup_filter.
    eapply NoDup_fmap_1. exact (fs_keys _ _ _ _ Hflat).
  - exact Hfresh.
  - exact Hinv.
  - exists st2. split; [exact Hrun | exact Hinv2].
Qed.

Lemma covered_succ h0 d i X f :
  kids h0 d !! i = Some X →
  covered h0 d (S i) f ↔
  covered h0 d i f ∨ name_of h0 X = Some (fk_ref_table f).
Proof.
  intros HX. split.
  - intros (j & Y & Hj & HY & Hn).
    destruct (decide (j = i)) as [->|Hne].
    + right. rewrite HX in HY. injection HY as <-. exact Hn.
    + left. exists j, Y. split; [lia|]. split; assumption.
  - intros [(j & Y & Hj & HY & Hn)|Hn].
    + exists j, Y. split; [lia|]. split; assumption.
    + exists i, X. split; [lia|]. split; assumption.
Qed.

Lemma webs_inv_tables hd h0 d fks fuel :
  flat_schema hd h0 d fks → 1 < fuel →
  ∀ k i fuel' done st,
    i + k = length (kids h0 d) → k < fuel' →
    (∀ f, f ∈ done ↔ f ∈ fks ∧ covered h0 d i f) →
    webs_inv h0 d fks done (heap st) →
    ∃ st' done',
      for_live fuel' (read_children d) i (web_table fuel hd d) st
        = (Ok tt, st') ∧
      webs_inv h0 d fks done' (heap st') ∧
      (∀ f, f ∈ done' ↔ f ∈ fks ∧ covered h0 d (length (kids h0 d)) f).
Proof.
  intros Hflat Hfuel.
  induction k as [|k IH]; intros i fuel' done st Hik Hk Hdone Hinv;
    (destruct fuel' as [|fuel']; [lia|]).
  all: assert (Hd : is_Some (heap st !! d))
    by (apply lookup_lt_is_Some; rewrite (wi_length _ _ _ _ _ Hinv);
        apply lookup_lt_is_Some, (fs_root _ _ _ _ Hflat)).
  all: cbn [for_live];
    rewrite (bind_ok _ _ _ _ _ (read_children_run _ _ Hd));
    rewrite (wi_root _ _ _ _ _ Hinv).
  - rewrite (proj2 (lookup_ge_None (kids h0 d) i)) by lia.
    exists st, done. split; [reflexivity|]. split; [exact Hinv|].
    replace (length (kids h0 d)) with i by lia. exact Hdone.
  - destruct (lookup_lt_is_Some_2 (kids h0 d) i ltac:(lia)) as [X HX].
    rewrite HX.
    assert (HXin : X ∈ kids h0 d) by (eapply list_elem_of_lookup_2; exact HX).
    destruct (fs_tables_named _ _ _ _ Hflat X HXin) as (n & Hn & Hres).
    destruct (webs_inv_table hd h0 d fks fuel X n done st Hflat HXin Hn Hfuel)
      as (st1 & Hrun1 & Hinv1); [|exact Hinv|].
    { intros f Hf Hin. apply fks_to_spec in Hf as [Href Hf].
      apply Hdone in Hin as (_ & j & Y & Hj & HY & HYn).
      assert (HYin : Y ∈ kids h0 d)
        by (eapply list_elem_of_lookup_2; exact HY).
      destruct (fs_tables_named _ _ _ _ Hflat Y HYin) as (m & Hm & HresY).
      rewrite HYn in Hm. injection Hm as <-. rewrite Href, Hres in HresY.
      injection HresY as ->.
      pose proof (NoDup_lookup _ _ _ _ (fs_tables_nodup _ _ _ _ Hflat) HX HY).
      lia. }
    rewrite (bind_ok _ _ _ _ _ Hrun1).
    apply (IH (S i) fuel' (fks_to fks n ++ done) st1); [lia | lia | | exact Hinv1].
    intros f. rewrite elem_of_app, fks_to_spec, Hdone, (covered_succ _ _ _ _ _ HX).
    rewrite Hn. split.
    + intros [[<- Hf]|[Hf Hc]]; (split; [exact Hf|]); [right; reflexivity | left; exact Hc].
    + intros [Hf [Hc|[= <-]]]; [right | left]; split; auto.
Qed.

Lemma webs_inv_start hd h0 d fks :
  flat_schema hd h0 d fks → webs_inv h0 d fks [] h0.
Proof.
  intros Hflat. constructor.
  - exact (fs_closed _ _ _ _ Hflat).
  - exact (fs_paired _ _ _ _ Hflat).
  - reflexivity.
  - reflexivity.
  - auto.
  - reflexivity.
  - intros f s Hf Hs.
    destruct (fs_sites _ _ _ _ Hflat f Hf) as (s' & Hs' & _ & Ht & Hfk).
    rewrite (sited_unique _ _ _ _ _ Hs' Hs) in *.
    split; [apply Hs|]. split; [exact Ht|]. split.
    + intros Hin. inversion Hin.
    + intros _. split; [apply Hs | exact Hfk].
Qed.

(** Canonicalization of a schema without chains: it completes, and every
    constraint has been processed. *)
Lemma webs_flat_run hd st d fks fuel :
  flat_schema hd (heap st) d fks →
  length (kids (heap st) d) < fuel → 1 < fuel →
  ∃ st' done,
    setup_db_tree_webs fuel hd d st = (Ok tt, st') ∧
    webs_inv (heap st) d fks done (heap st') ∧
    (∀ f, f ∈ fks → f ∈ done).
Proof.
  intros Hflat Hlen Hfuel. unfold setup_db_tree_webs.
  destruct (webs_inv_tables hd (heap st) d fks fuel Hflat Hfuel
              (length (kids (heap st) d)) 0 fuel [] st)
    as (st' & done & Hrun & Hinv & Hdone).
  - reflexivity.
  - exact Hlen.
  - intros f. split; [intros H; inversion H|].
    intros (_ & j & _ & Hj & _). lia.
  - apply (webs_inv_start hd), Hflat.
  - exists st', done. split; [exact Hrun|]. split; [exact Hinv|].
    intros f Hf. apply Hdone. split; [exact Hf|].
    destruct (fs_sites _ _ _ _ Hflat f Hf) as (s & Hs & _).
    pose proof Hs as (_ & Ht & _).
    apply resolve_allocated in Ht as (Hin & Hn & _).
    apply list_elem_of_lookup in Hin as [j Hj].
    exists j, (s_table s). split; [|split; assumption].
    eapply lookup_lt_Some. exact Hj.
Qed.

(** C1 (amended): on a populated tree whose constraints form no chain, for
    every constraint in which column [col] of [refTable] references column
    [col] of [T], canonicalization completes and afterwards the vertex
    [T.get_column(col)] has both [T] and [refTable] among its parents, and
    [refTable.get_column(col)] returns that same vertex; the duplicate
    vertex [refTable] resolved before is left with no parent and is no
    longer a child of [refTable]. *)
Theorem webs_canonical (hd : MySQLConnectionHandler) (st : state) (d : addr)
    (fks : list fk_desc) (fuel : nat) (f : fk_desc) :
  flat_schema hd (heap st) d fks →
  length (kids (heap st) d) < fuel → 1 < fuel →
  f ∈ fks →
  ∃ st',
    setup_db_tree_webs fuel hd d st = (Ok tt, st') ∧
    canonical (heap st') d f ∧
    (∀ s, sited (heap st) d f s →
       pars (heap st') (s_fk s) = [] ∧ s_fk s ∉ kids (heap st') (s_ref s)).
Proof.
  intros Hflat Hlen Hfuel Hf.
  destruct (webs_flat_run hd st d fks fuel Hflat Hlen Hfuel)
    as (st' & done & Hrun & Hinv & Hdone).
  exists st'. split; [exact Hrun|].
  destruct (fs_sites _ _ _ _ Hflat f Hf) as (s & Hs & _).
  destruct (wi_sites _ _ _ _ _ Hinv f s Hf Hs) as (A & B & C & _).
  destruct (C (Hdone f Hf)) as (C1 & C2 & C3).
  split.
  - exists (s_ref s), (s_table s), (s_pk s).
    rewrite !(resolve_root_kept (heap st) (heap st') d _
                (wi_names _ _ _ _ _ Hinv) (wi_root _ _ _ _ _ Hinv)).
    destruct Hs as (Hr & Ht & _). repeat split; assumption.
  - intros s' Hs'. rewrite <- (sited_unique _ _ _ _ _ Hs Hs').
    split; [exact C3|]. intros Hin.
    apply list_elem_of_In, (count_occ_In Nat.eq_dec) in Hin.
    rewrite (wi_paired _ _ _ _ _ Hinv (s_ref s) (s_fk s)), C3 in Hin.
    simpl in Hin. lia.
Qed.

(** On a schema without chains, two constraints on the same key end on one
    vertex that lists the referenced table and both referencing tables. *)
Lemma webs_flat_shared_key hd st d fks fuel f1 f2 :
  flat_schema hd (heap st) d fks →
  length (kids (heap st) d) < fuel → 1 < fuel →
  f1 ∈ fks → f2 ∈ fks →
  fk_ref_table f1 = fk_ref_table f2 → fk_column f1 = fk_column f2 →
  ∃ st' a b c pk,
    setup_db_tree_webs fuel hd d st = (Ok tt, st') ∧
    resolve (heap st') d (fk_table f1) = Some a ∧
    resolve (heap st') d (fk_ref_table f1) = Some b ∧
    resolve (heap st') d (fk_table f2) = Some c ∧
    resolve (heap st') b (fk_column f1) = Some pk ∧
    a ∈ pars (heap st') pk ∧ b ∈ pars (heap st') pk ∧ c ∈ pars (heap st') pk.
Proof.
  intros Hflat Hlen Hfuel Hf1 Hf2 Href Hcol.
  destruct (webs_flat_run hd st d fks fuel Hflat Hlen Hfuel)
    as (st' & done & Hrun & Hinv & Hdone).
  destruct (fs_sites _ _ _ _ Hflat f1 Hf1) as (s1 & Hs1 & _).
  destruct (fs_sites _ _ _ _ Hflat f2 Hf2) as (s2 & Hs2 & _).
  destruct (wi_sites _ _ _ _ _ Hinv f1 s1 Hf1 Hs1) as (A1 & B1 & C1 & _).
  destruct (wi_sites _ _ _ _ _ Hinv f2 s2 Hf2 Hs2) as (A2 & B2 & C2 & _).
  destruct (C1 (Hdone f1 Hf1)) as (_ & R1 & _).
  destruct (C2 (Hdone f2 Hf2)) as (_ & R2 & _).
  assert (Ht : s_table s1 = s_table s2).
  { destruct Hs1 as (_ & T1 & _), Hs2 as (_ & T2 & _).
    rewrite Href in T1. congruence. }
  assert (Hpk : s_pk s1 = s_pk s2).
  { rewrite Ht, Hcol in A1. congruence. }
  exists st', (s_ref s1), (s_table s1), (s_ref s2), (s_pk s1).
  rewrite !(resolve_root_kept (heap st) (heap st') d _
              (wi_names _ _ _ _ _ Hinv) (wi_root _ _ _ _ _ Hinv)).
  destruct Hs1 as (Hr1 & Ht1 & _), Hs2 as (Hr2 & _).
  rewrite Hpk at 4. repeat split; assumption.
Qed.

(** ** The properties at work on the Actino_Draft cut *)

Lemma pairedb_sound h : closed h → pairedb h = true → paired h.
Proof.
  intros Hc Hb p c. unfold pairedb in Hb. rewrite forallb_forall in Hb.
  pose proof (proj1 (closed_views h) Hc) as Hv.
  destruct (decide (p < length h)) as [Hp|Hp];
    [destruct (decide (c < length h)) as [Hc'|Hc']|].
  - specialize (Hb p ltac:(apply in_seq; lia)).
    rewrite forallb_forall in Hb.
    specialize (Hb c ltac:(apply in_seq; lia)).
    apply Nat.eqb_eq in Hb. exact Hb.
  - assert (H1 : count_occ Nat.eq_dec (kids h p) c = 0).
    { apply count_occ_not_In. intros Hin. apply list_elem_of_In in Hin.
      specialize (Hv p c (or_intror Hin)). lia. }
    assert (H2 : pars h c = [])
      by (unfold pars; rewrite (proj2 (lookup_ge_None h c)) by lia; reflexivity).
    rewrite H1, H2. reflexivity.
  - assert (H1 : kids h p = [])
      by (unfold kids; rewrite (proj2 (lookup_ge_None h p)) by lia; reflexivity).
    assert (H2 : count_occ Nat.eq_dec (pars h c) p = 0).
    { apply count_occ_not_In. intros Hin. apply list_elem_of_In in Hin.
      specialize (Hv c p (or_introl Hin)). lia. }
    rewrite H1, H2. reflexivity.
Qed.

Lemma component_closed_sound h S A t :
  component_closed h S = true → A ∈ S → connected h A t → t ∈ S.
Proof.
  intros Hb HA Hconn. induction Hconn as [x|x y z Hxy _ IH]; [exact HA|].
  apply IH. destruct Hxy as (c & Hlen & Hx & Hy).
  unfold component_closed in Hb. rewrite forallb_forall in Hb.
  destruct (pars_allocated _ _ _ Hx) as [n Hn].
  rewrite (pars_lookup _ _ _ Hn) in Hlen, Hx, Hy.
  specialize (Hb n (proj1 (list_elem_of_In _ _) (list_elem_of_lookup_2 _ _ _ Hn))).
  rewrite (proj2 (Nat.ltb_lt _ _) Hlen) in Hb.
  assert (Hex : existsb (λ x, mem_addr x S) (parents n) = true).
  { apply existsb_exists. exists x. split; [apply list_elem_of_In, Hx|].
    apply bool_decide_eq_true_2, HA. }
  rewrite Hex in Hb. rewrite forallb_forall in Hb.
  specialize (Hb y (proj1 (list_elem_of_In _ _) Hy)).
  apply bool_decide_eq_true in Hb. exact Hb.
Qed.

Ltac by_compute := apply (bool_decide_unpack _); vm_compute; exact I.
Ltac closed_by_compute := apply closedb_sound; vm_compute; reflexivity.
Ltac allocated := eexists; vm_compute; reflexivity.

Example trixie_l5_text :
  trixie_l5 = "SELECT PhageID FROM phage WHERE PhageID IN ('Trixie','L5')".
Proof. reflexivity. Qed.

Lemma build_values_statement_witness :
  build_values (mkTree actino_with_phages 0) "phage" "PhageID" None []
    ["Trixie"; "L5"] (built_state actino) =
  (Ok [VStr "Trixie"; VStr "L5"],
   mkState (heap (built_state actino))
     (sent (built_state actino) ++ [trixie_l5])).
Proof.
  apply (build_values_statement (mkTree actino_with_phages 0)
           "phage" "PhageID" "PhageID" None [] ["Trixie"; "L5"]
           (built_state actino) 4).
  - closed_by_compute.
  - allocated.
  - vm_compute. reflexivity.
  - eexists _, _. split; vm_compute; reflexivity.
  - allocated.
  - intros _. vm_compute. reflexivity.
  - vm_compute. reflexivity.
Defined.

Lemma build_values_rejects_witness :
  build_values (mkTree actino 0) "host" "HostID" None [] []
    (built_state actino) = (Raise ValueError, built_state actino).
Proof.
  apply build_values_rejects.
  - closed_by_compute.
  - allocated.
  - left. vm_compute. reflexivity.
Defined.

Lemma table_links_are_link_candidates_witness :
  get_foreign_keys 1 (built_state actino) = (Ok [5], built_state actino) ∧
  table_links 1 (built_state actino) =
  (Ok (link_candidates (heap (built_state actino)) 1), built_state actino).
Proof.
  destruct (table_links_are_link_candidates (built_state actino) 1
              (mkNode "gene" [0] [2; 5] (TableNode (Some 2))) (Some 2))
    as [Hfks Hlinks].
  - vm_compute. reflexivity.
  - reflexivity.
  - repeat constructor; allocated.
  - split; [exact Hfks|]. apply (Hlinks 2 eq_refl). allocated.
Defined.

Lemma find_path_without_primary_key_witness :
  find_path 1 7 4 None (built_state actino) =
  (Raise AttributeError, built_state actino).
Proof.
  apply (find_path_without_primary_key 0 (built_state actino) 7 4 None
           (mkNode "version" [0] [8; 9] (TableNode None))).
  - vm_compute. reflexivity.
  - reflexivity.
  - repeat constructor; allocated.
  - discriminate.
Defined.

Lemma reciprocal_edges_witness : 0 ∈ pars (heap two_nodes) 1.
Proof.
  apply reciprocal_edges.
  - unfold two_nodes. repeat apply built_call; try apply built_empty;
      vm_compute; repeat constructor.
  - by_compute.
Defined.

Lemma find_path_unreachable_witness :
  find_path 11 1 7 None (built_state actino) = (Ok None, built_state actino).
Proof.
  apply find_path_unreachable.
  - closed_by_compute.
  - intros t Ht.
    apply (component_closed_sound _ [1; 4]) in Ht;
      [|vm_compute; reflexivity | by_compute].
    apply elem_of_cons in Ht as [->|Ht];
      [|apply list_elem_of_singleton in Ht as ->].
    + exists (mkNode "gene" [0] [2; 5] (TableNode (Some 2))), 2.
      split; [vm_compute; reflexivity|]. split; [reflexivity|].
      split; [allocated|]. split; [vm_compute; lia|].
      intros c Hc. apply elem_of_cons in Hc as [->|Hc];
        [|apply list_elem_of_singleton in Hc as ->]; by_compute.
    + exists (mkNode "phage" [0] [5; 6] (TableNode (Some 5))), 5.
      split; [vm_compute; reflexivity|]. split; [reflexivity|].
      split; [allocated|]. split; [intros _; by_compute|].
      intros c Hc. apply elem_of_cons in Hc as [->|Hc];
        [|apply list_elem_of_singleton in Hc as ->]; by_compute.
  - intros Hc. apply (component_closed_sound _ [1; 4]) in Hc;
      [|vm_compute; reflexivity | by_compute].
    apply elem_of_cons in Hc as [Hc|Hc]; [discriminate|].
    apply list_elem_of_singleton in Hc. discriminate.
  - vm_compute. lia.
Defined.

Example actino_leaves :
  map (λ n, (id n, parents n, children n)) (heap (leaves_state actino)) =
  [("Actino_Draft", [], [1; 4; 7]);
   ("gene", [0], [2; 3]); ("GeneID", [1], []); ("PhageID", [1], []);
   ("phage", [0], [5; 6]); ("PhageID", [4], []); ("Cluster", [4], []);
   ("version", [0], [8; 9]); ("Version", [7], []); ("SchemaVersion", [7], [])].
Proof. vm_compute. reflexivity. Qed.

Lemma actino_flat :
  flat_schema actino (heap (leaves_state actino)) 0
    [mkFk "gene" "PhageID" "phage"].
Proof.
  assert (Hc : closed (heap (leaves_state actino))) by closed_by_compute.
  constructor.
  - exact Hc.
  - apply pairedb_sound; [exact Hc | vm_compute; reflexivity].
  - allocated.
  - by_compute.
  - by_compute.
  - intros X HX. vm_compute in HX.
    repeat (apply elem_of_cons in HX as [->|HX]);
      [eexists; split; vm_compute; reflexivity .. | inversion HX].
  - intros X n HX Hn. vm_compute in HX.
    repeat (apply elem_of_cons in HX as [->|HX]); [..|inversion HX];
      vm_compute in Hn; injection Hn as <-; vm_compute;
      repeat constructor.
  - intros f Hf. apply list_elem_of_singleton in Hf as ->.
    exists (mkSite 1 4 5 3). split; [|split; [|split]].
    + vm_compute. repeat split; reflexivity.
    + eexists _, _. split; vm_compute; reflexivity.
    + by_compute.
    + vm_compute. reflexivity.
  - by_compute.
  - intros f1 f2 Hf1 Hf2 _.
    apply list_elem_of_singleton in Hf1 as ->.
    apply list_elem_of_singleton in Hf2 as ->. discriminate.
Qed.

Lemma webs_canonical_witness :
  ∃ st',
    setup_db_tree_webs 4 actino 0 (leaves_state actino) = (Ok tt, st') ∧
    canonical (heap st') 0 (mkFk "gene" "PhageID" "phage") ∧
    (∀ s, sited (heap (leaves_state actino)) 0
            (mkFk "gene" "PhageID" "phage") s →
       pars (heap st') (s_fk s) = [] ∧ s_fk s ∉ kids (heap st') (s_ref s)).
Proof.
  apply (webs_canonical actino (leaves_state actino) 0
           [mkFk "gene" "PhageID" "phage"]).
  - exact actino_flat.
  - vm_compute. lia.
  - lia.
  - by_compute.
Defined.

(** * More of the module *)

(** ** What the accessors and the search leave alone *)

Lemma reads_only_ret {A} (a : A) : reads_only (mret a : M A).
Proof. intros st. reflexivity. Qed.

Lemma reads_only_raise {A} e : reads_only (raise e : M A).
Proof. intros st. reflexivity. Qed.

Lemma reads_only_starve {A} : reads_only (starve : M A).
Proof. intros st. reflexivity. Qed.

Lemma reads_only_load a : reads_only (load a).
Proof. intros st. unfold load. destruct (heap st !! a); reflexivity. Qed.

Lemma reads_only_bind {A B} (m : M A) (f : A → M B) :
  reads_only m → (∀ a, reads_only (f a)) → reads_only (m ≫= f).
Proof.
  intros Hm Hf st. rewrite bind_run. specialize (Hm st).
  destruct (m st) as [[a|e|] st']; simpl in Hm; subst st';
    [apply Hf | reflexivity | reflexivity].
Qed.

Lemma reads_only_deref {A} (o : option A) : reads_only (deref o).
Proof. destruct o; [apply reads_only_ret | apply reads_only_raise]. Qed.

Ltac reads_only_step :=
  first
    [ apply reads_only_ret | apply reads_only_raise | apply reads_only_starve
    | apply reads_only_load | apply reads_only_deref
    | apply reads_only_bind; [|intros ?] ].

Lemma reads_only_ids_of l : reads_only (ids_of l).
Proof.
  induction l as [|a l IH]; simpl; [apply reads_only_ret|].
  apply reads_only_bind; [apply reads_only_load|]. intros n.
  apply reads_only_bind; [exact IH|]. intros r. apply reads_only_ret.
Qed.

Lemma reads_only_scan_id w l found : reads_only (scan_id w l found).
Proof.
  revert found. induction l as [|a l IH]; intros found; simpl;
    [apply reads_only_ret|].
  apply reads_only_bind; [apply reads_only_load|]. intros n. apply IH.
Qed.

Lemma reads_only_get_primary_key t : reads_only (get_primary_key t).
Proof.
  unfold get_primary_key. apply reads_only_bind; [apply reads_only_load|].
  intros n. destruct (cls n); repeat reads_only_step.
Qed.

Lemma reads_only_get_type c : reads_only (get_type c).
Proof.
  unfold get_type. apply reads_only_bind; [apply reads_only_load|].
  intros n. destruct (cls n); repeat reads_only_step.
Qed.

Lemma reads_only_parse_type c : reads_only (parse_type c).
Proof.
  unfold parse_type. apply reads_only_bind; [apply reads_only_get_type|].
  intros ty. repeat reads_only_step.
Qed.

Lemma reads_only_collect_foreign_keys pk cols acc :
  reads_only (collect_foreign_keys pk cols acc).
Proof.
  revert acc. induction cols as [|c cols IH]; intros acc; simpl;
    [apply reads_only_ret|].
  destruct (decide (Some c = pk)); [apply IH|].
  apply reads_only_bind; [apply reads_only_load|]. intros cn.
  destruct (1 <? length (parents cn)); apply IH.
Qed.

Lemma reads_only_collect_foreign_key_ids pk cols acc :
  reads_only (collect_foreign_key_ids pk cols acc).
Proof.
  revert acc. induction cols as [|c cols IH]; intros acc; simpl;
    [apply reads_only_ret|].
  destruct (decide (Some c = pk)); [apply IH|].
  apply reads_only_bind; [apply reads_only_load|]. intros cn.
  destruct (1 <? length (parents cn)); apply IH.
Qed.

Lemma reads_only_get_foreign_keys t : reads_only (get_foreign_keys t).
Proof.
  unfold get_foreign_keys. apply reads_only_bind; [apply reads_only_load|].
  intros n. apply reads_only_bind; [apply reads_only_get_primary_key|].
  intros pk. apply reads_only_collect_foreign_keys.
Qed.

Lemma reads_only_table_links t : reads_only (table_links t).
Proof.
  unfold table_links. apply reads_only_bind; [apply reads_only_get_foreign_keys|].
  intros links. apply reads_only_bind; [apply reads_only_get_primary_key|].
  intros pk. apply reads_only_bind; [apply reads_only_deref|]. intros p.
  apply reads_only_bind; [apply reads_only_load|]. intros pn.
  destruct (1 <? length (parents pn)); apply reads_only_ret.
Qed.

Lemma reads_only_walk_tables recur curr B p prev link tables :
  (∀ t q, reads_only (recur t q)) →
  reads_only (walk_tables recur curr B p prev link tables).
Proof.
  intros Hrec. induction tables as [|t tables IH]; cbn [walk_tables];
    [apply reads_only_ret|].
  apply reads_only_bind; [apply reads_only_load|]. intros tn.
  destruct (negb _ && negb _); [|exact IH].
  apply reads_only_bind; [apply reads_only_load|]. intros ln.
  apply reads_only_bind; [apply Hrec|]. intros [q|]; [|exact IH].
  destruct (last q); [|apply reads_only_raise].
  apply reads_only_bind; [apply reads_only_load|]. intros tg.
  destruct (decide _); [apply reads_only_ret | exact IH].
Qed.

Lemma reads_only_walk_links recur curr B p prev links :
  (∀ t q, reads_only (recur t q)) →
  reads_only (walk_links recur curr B p prev links).
Proof.
  intros Hrec. induction links as [|l links IH]; cbn [walk_links];
    [apply reads_only_ret|].
  apply reads_only_bind; [apply reads_only_load|]. intros ln.
  destruct (mem_addr B (parents ln)).
  - apply reads_only_bind; [apply reads_only_load|]. intros tg.
    apply reads_only_ret.
  - apply reads_only_bind; [apply reads_only_walk_tables, Hrec|].
    intros [q|]; [apply reads_only_ret | exact IH].
Qed.

(** X1: [find_path] only reads: whatever it returns or raises, and for any
    recursion budget, the graph and the statement log are as before. *)
Theorem find_path_reads_only (fuel : nat) (curr target : addr)
    (p : option path) :
  reads_only (find_path fuel curr target p).
Proof.
  revert curr p. induction fuel as [|fuel IH]; intros curr p;
    [apply reads_only_starve|].
  cbn [find_path]. destruct (decide (curr = target)); [apply reads_only_ret|].
  apply reads_only_bind; [apply reads_only_table_links|]. intros links.
  apply reads_only_walk_links. intros t q. apply IH.
Qed.

Lemma accessors_read_only_get_child self w : reads_only (get_child self w).
Proof.
  unfold get_child. apply reads_only_bind; [apply reads_only_load|].
  intros n. apply reads_only_scan_id.
Qed.

Lemma accessors_read_only_has_child self w : reads_only (has_child self w).
Proof.
  unfold has_child, show_children. apply reads_only_bind.
  - apply reads_only_bind; [apply reads_only_load|]. intros n.
    apply reads_only_ids_of.
  - intros cs. apply reads_only_ret.
Qed.

(** X2: the accessors of a node only read: looking a parent or a child up
    by id, testing for one, listing ids, foreign keys or the primary key,
    and asking a column for its type or info never change the graph. *)
Theorem accessors_read_only (self : addr) (w : string) :
  reads_only (get_child self w) ∧ reads_only (get_parent self w) ∧
  reads_only (has_child self w) ∧ reads_only (has_parent self w) ∧
  reads_only (show_children self) ∧ reads_only (show_parents self) ∧
  reads_only (get_foreign_keys self) ∧ reads_only (show_foreign_keys self) ∧
  reads_only (show_primary_key self) ∧ reads_only (parse_type self) ∧
  reads_only (show_info self) ∧ reads_only (show_columns_info self).
Proof.
  assert (Hshow_c : reads_only (show_children self)).
  { unfold show_children. apply reads_only_bind; [apply reads_only_load|].
    intros n. apply reads_only_ids_of. }
  assert (Hshow_p : reads_only (show_parents self)).
  { unfold show_parents. apply reads_only_bind; [apply reads_only_load|].
    intros n. apply reads_only_ids_of. }
  assert (Hinfo : ∀ c, reads_only (show_info c)).
  { intros c. unfold show_info. apply reads_only_bind; [apply reads_only_load|].
    intros n. apply reads_only_bind; [apply reads_only_parse_type|].
    intros ty. destruct (cls n); repeat reads_only_step. }
  repeat split.
  - unfold get_child. apply reads_only_bind; [apply reads_only_load|].
    intros n. apply reads_only_scan_id.
  - unfold get_parent. apply reads_only_bind; [apply reads_only_load|].
    intros n. apply reads_only_scan_id.
  - unfold has_child. apply reads_only_bind; [exact Hshow_c|].
    intros cs. apply reads_only_ret.
  - unfold has_parent. apply reads_only_bind; [exact Hshow_p|].
    intros ps. apply reads_only_ret.
  - exact Hshow_c.
  - exact Hshow_p.
  - apply reads_only_get_foreign_keys.
  - unfold show_foreign_keys. apply reads_only_bind; [apply reads_only_load|].
    intros n. apply reads_only_bind; [apply reads_only_get_primary_key|].
    intros pk. apply reads_only_collect_foreign_key_ids.
  - unfold show_primary_key.
    apply reads_only_bind; [apply reads_only_get_primary_key|]. intros pk.
    repeat reads_only_step.
  - apply reads_only_parse_type.
  - apply Hinfo.
  - unfold show_columns_info. apply reads_only_bind; [apply reads_only_load|].
    intros n. induction (children n) as [|c l IH]; simpl;
      [apply reads_only_ret|].
    apply reads_only_bind; [apply Hinfo|]. intros i.
    apply reads_only_bind; [exact IH|]. intros r. apply reads_only_ret.
Qed.

Lemma reads_only_sends {A} (m : M A) : reads_only m → sends_at_most_one m.
Proof. intros Hm st. rewrite Hm. split; [reflexivity | left; reflexivity]. Qed.

Lemma sends_after_reads {A B} (m : M A) (f : A → M B) :
  reads_only m → (∀ a, sends_at_most_one (f a)) → sends_at_most_one (m ≫= f).
Proof.
  intros Hm Hf st. rewrite bind_run. specialize (Hm st).
  destruct (m st) as [[a|e|] st']; simpl in Hm; subst st';
    [apply Hf | |]; (split; [reflexivity | left; reflexivity]).
Qed.

Lemma sends_query_then_reads {A} h q (f : list row → M A) :
  (∀ rows, reads_only (f rows)) →
  sends_at_most_one (execute_query h q ≫= f).
Proof.
  intros Hf st. rewrite bind_run. unfold execute_query.
  pose proof (Hf (answer h q) (mkState (heap st) (sent st ++ [q]))) as Hst.
  destruct (f (answer h q) _) as [r st2]. simpl in Hst. subst st2.
  cbn [snd heap sent]. split; [reflexivity|]. right.
  exists q. reflexivity.
Qed.

Lemma reads_only_column_of_rows column rows :
  reads_only (column_of_rows column rows).
Proof.
  induction rows as [|r rows IH]; simpl; [apply reads_only_ret|].
  apply reads_only_bind.
  - unfold getitem. destruct (row_get r column);
      [apply reads_only_ret | apply reads_only_raise].
  - intros v. apply reads_only_bind; [exact IH|]. intros vs.
    apply reads_only_ret.
Qed.

(** X3: [build_values] never changes the graph, and sends at most one
    statement, whatever its arguments and whether it returns or raises. *)
Theorem build_values_sends_at_most_one (self : DatabaseTree)
    (table column : string) (values_column : option string)
    (queries values : list string) :
  sends_at_most_one
    (build_values self table column values_column queries values).
Proof.
  unfold build_values.
  apply sends_after_reads.
  { unfold tree_get_table, get_table.
    apply (accessors_read_only_get_child (db_node self) table). }
  intros [tn|]; [|apply reads_only_sends, reads_only_raise].
  apply sends_after_reads.
  { unfold has_column. apply reads_only_bind; [apply reads_only_load|].
    intros n. destruct (cls n); try apply reads_only_raise.
    apply (accessors_read_only_has_child tn column). }
  intros has. destruct (negb has); [apply reads_only_sends, reads_only_raise|].
  cbv zeta. apply sends_after_reads.
  - destruct (nonempty values); [|apply reads_only_ret].
    destruct values_column; [apply reads_only_ret|].
    apply reads_only_bind; [apply reads_only_get_primary_key|]. intros pk.
    repeat reads_only_step.
  - intros query. apply sends_query_then_reads. intros rows.
    apply reads_only_column_of_rows.
Qed.

(** ** Looking up by id: the last one wins *)

Lemma last_filter_split {A} (P : A → Prop) `{∀ x, Decision (P x)} (l : list A) :
  match last (filter P l) with
  | Some a => ∃ l1 l2, l = l1 ++ a :: l2 ∧ P a ∧ ∀ c, c ∈ l2 → ¬ P c
  | None => ∀ c, c ∈ l → ¬ P c
  end.
Proof.
  induction l as [|x l IH] using rev_ind.
  - simpl. intros c Hc. inversion Hc.
  - rewrite filter_app, filter_cons, filter_nil.
    destruct (decide (P x)) as [Hx|Hx].
    + rewrite last_snoc. exists l, []. split; [reflexivity|].
      split; [exact Hx|]. intros c Hc. inversion Hc.
    + rewrite app_nil_r. destruct (last (filter P l)) as [a|].
      * destruct IH as (l1 & l2 & -> & Ha & Hl2).
        exists l1, (l2 ++ [x]). split; [rewrite <- app_assoc; reflexivity|].
        split; [exact Ha|]. intros c Hc.
        apply elem_of_app in Hc as [Hc|Hc]; [apply Hl2, Hc|].
        apply list_elem_of_singleton in Hc as ->. exact Hx.
      * intros c Hc. apply elem_of_app in Hc as [Hc|Hc]; [apply IH, Hc|].
        apply list_elem_of_singleton in Hc as ->. exact Hx.
Qed.

Lemma has_name_true h w a : has_name h w a = true ↔ name_of h a = Some w.
Proof. unfold has_name. apply bool_decide_eq_true. Qed.

(** X4: [get_child] returns the last child that carries the id, [None]
    exactly when no child carries it, and [has_child] answers true exactly
    when [get_child] finds a child. *)
Theorem get_child_finds_last (st : state) (o : addr) (n : Node) (w : string) :
  closed (heap st) → heap st !! o = Some n →
  ∃ r,
    get_child o w st = (Ok r, st) ∧
    has_child o w st = (Ok (bool_decide (is_Some r)), st) ∧
    match r with
    | Some a =>
        ∃ l1 l2, children n = l1 ++ a :: l2 ∧
                 name_of (heap st) a = Some w ∧
                 ∀ c, c ∈ l2 → name_of (heap st) c ≠ Some w
    | None => ∀ c, c ∈ children n → name_of (heap st) c ≠ Some w
    end.
Proof.
  intros Hc Ho. exists (resolve (heap st) o w).
  split; [eapply get_child_run; eassumption|].
  split; [eapply has_child_run; eassumption|].
  unfold resolve, lookup_id. rewrite (kids_lookup _ _ _ Ho).
  pose proof (last_filter_split (λ a, has_name (heap st) w a = true)
                (children n)) as Hsplit.
  destruct (last _) as [a|].
  - destruct Hsplit as (l1 & l2 & Heq & Ha & Hl2).
    exists l1, l2. split; [exact Heq|]. split; [apply has_name_true, Ha|].
    intros c Hc' Hn. apply (Hl2 c Hc'), has_name_true, Hn.
  - intros c Hc' Hn. apply (Hsplit c Hc'), has_name_true, Hn.
Qed.

Lemma get_parent_run st o n w :
  closed (heap st) → heap st !! o = Some n →
  get_parent o w st = (Ok (lookup_id (heap st) w (pars (heap st) o)), st).
Proof.
  intros Hc Ho. unfold get_parent.
  rewrite (bind_ok _ _ _ _ _ (load_ok _ _ _ Ho)).
  rewrite scan_id_run by (eapply closed_pars; eassumption).
  rewrite (pars_lookup _ _ _ Ho). destruct (lookup_id _ _ _); reflexivity.
Qed.

(** ** The ids of the foreign keys *)

Lemma collect_foreign_key_ids_run st pk cols acc :
  Forall (λ c, is_Some (heap st !! c)) cols →
  ∃ names,
    collect_foreign_key_ids pk cols acc st = (Ok (acc ++ names), st) ∧
    Forall2 (λ a w, name_of (heap st) a = Some w)
      (filter (foreign_key_role (heap st) pk) cols) names.
Proof.
  intros Hall. revert acc.
  induction Hall as [|c cols [cn Hc] _ IH]; intros acc.
  - exists []. rewrite app_nil_r. split; [reflexivity | constructor].
  - simpl. rewrite filter_cons.
    destruct (decide (Some c = pk)) as [Heq|Hne].
    + destruct (IH acc) as (names & Hrun & Hnames). exists names.
      split; [exact Hrun|].
      destruct (decide (foreign_key_role (heap st) pk c)) as [[Hn _]|_];
        [contradiction | exact Hnames].
    + rewrite (bind_ok _ _ _ _ _ (load_ok _ _ _ Hc)).
      assert (Hlen : length (pars (heap st) c) = length (parents cn))
        by (rewrite (pars_lookup _ _ _ Hc); reflexivity).
      destruct (1 <? length (parents cn)) eqn:Hlt.
      * apply Nat.ltb_lt in Hlt.
        destruct (IH (acc ++ [id cn])) as (names & Hrun & Hnames).
        exists (id cn :: names). split.
        -- rewrite Hrun, <- app_assoc. reflexivity.
        -- destruct (decide (foreign_key_role (heap st) pk c)) as [_|Hn].
           ++ constructor; [|exact Hnames]. unfold name_of. rewrite Hc.
              reflexivity.
           ++ exfalso. apply Hn. split; [assumption | lia].
      * apply Nat.ltb_ge in Hlt.
        destruct (IH acc) as (names & Hrun & Hnames). exists names.
        split; [exact Hrun|].
        destruct (decide (foreign_key_role (heap st) pk c)) as [[_ Hn]|_];
          [lia | exact Hnames].
Qed.

(** X5: [show_foreign_keys] lists exactly the ids of the columns
    [get_foreign_keys] returns, in the same order. *)
Theorem show_foreign_keys_names (st : state) (t : addr) (tn : Node)
    (pk : option addr) :
  closed (heap st) →
  heap st !! t = Some tn → cls tn = TableNode pk →
  ∃ fks names,
    get_foreign_keys t st = (Ok fks, st) ∧
    show_foreign_keys t st = (Ok names, st) ∧
    Forall2 (λ a w, name_of (heap st) a = Some w) fks names.
Proof.
  intros Hc Ht Hk.
  pose proof (closed_kids _ _ _ Hc Ht) as Hall.
  destruct (collect_foreign_key_ids_run st pk (children tn) [] Hall)
    as (names & Hrun & Hnames).
  exists (filter (foreign_key_role (heap st) pk) (children tn)), names.
  split; [eapply get_foreign_keys_run; eassumption|]. split; [|exact Hnames].
  unfold show_foreign_keys.
  rewrite (bind_ok _ _ _ _ _ (load_ok _ _ _ Ht)).
  rewrite (bind_ok _ _ _ _ _ (get_primary_key_run _ _ _ _ Ht Hk)).
  exact Hrun.
Qed.

(** ** Adding, finding and removing an edge *)

Lemma closed_edge_added st st' p c :
  closed (heap st) → p < length (heap st) → c < length (heap st) →
  edge_added st st' p c → closed (heap st').
Proof.
  intros Hc Hp Hc' ((_ & Hlen & _) & Hk & Hpa).
  apply closed_views. intros a x Hx. rewrite Hlen.
  pose proof (proj1 (closed_views _) Hc) as Hv.
  rewrite Hk, Hpa in Hx. destruct Hx as [Hx|Hx].
  - destruct (decide (a = c)) as [->|]; [|apply (Hv a); auto].
    apply elem_of_app in Hx as [Hx|Hx]; [apply (Hv c); auto|].
    apply list_elem_of_singleton in Hx as ->. exact Hp.
  - destruct (decide (a = p)) as [->|]; [|apply (Hv a); auto].
    apply elem_of_app in Hx as [Hx|Hx]; [apply (Hv p); auto|].
    apply list_elem_of_singleton in Hx as ->. exact Hc'.
Qed.

Lemma edge_added_names st st' p c a :
  edge_added st st' p c → name_of (heap st') a = name_of (heap st) a.
Proof.
  intros (Hsame & _). apply (same_objects_names _ _ Hsame).
Qed.

(** X6: after [add_child(self, c)] the child is found under its id from
    the parent, even when an older child carries the same id, and the parent
    is found under its id from the child. *)
Theorem add_child_then_lookup (st : state) (self c : addr) (v w : string) :
  closed (heap st) →
  name_of (heap st) self = Some v → name_of (heap st) c = Some w →
  ∃ st',
    add_child self c st = (Ok tt, st') ∧
    get_child self w st' = (Ok (Some c), st') ∧
    has_child self w st' = (Ok true, st') ∧
    get_parent c v st' = (Ok (Some self), st') ∧
    has_parent c v st' = (Ok true, st').
Proof.
  intros Hc Hv Hw.
  destruct (name_of_Some _ _ _ Hv) as (sn & Hs & _).
  destruct (name_of_Some _ _ _ Hw) as (cn & Hcn & _).
  pose proof (lookup_lt_Some _ _ _ Hs) as Hs_lt.
  pose proof (lookup_lt_Some _ _ _ Hcn) as Hc_lt.
  destruct (add_child_effect st self c Hs_lt Hc_lt) as (st' & Hrun & Hadd).
  pose proof (closed_edge_added _ _ _ _ Hc Hs_lt Hc_lt Hadd) as Hc'.
  pose proof (edge_added_names _ _ _ _ self Hadd) as Hv'. rewrite Hv in Hv'.
  pose proof (edge_added_names _ _ _ _ c Hadd) as Hw'. rewrite Hw in Hw'.
  destruct (name_of_Some _ _ _ Hv') as (sn' & Hs' & _).
  destruct (name_of_Some _ _ _ Hw') as (cn' & Hcn' & _).
  destruct Hadd as (_ & Hk & Hp).
  assert (Hres : resolve (heap st') self w = Some c).
  { unfold resolve. rewrite Hk. destruct (decide (self = self)); [|congruence].
    apply lookup_id_snoc_hit, Hw'. }
  assert (Hresp : lookup_id (heap st') v (pars (heap st') c) = Some self).
  { rewrite Hp. destruct (decide (c = c)); [|congruence].
    apply lookup_id_snoc_hit, Hv'. }
  exists st'. split; [exact Hrun|]. split; [|split; [|split]].
  - rewrite (get_child_run _ _ _ w Hc' Hs'), Hres. reflexivity.
  - rewrite (has_child_run _ _ _ w Hc' Hs'), Hres.
    rewrite bool_decide_eq_true_2 by eauto. reflexivity.
  - rewrite (get_parent_run _ _ _ v Hc' Hcn'), Hresp. reflexivity.
  - unfold has_parent, show_parents.
    destruct (ids_of_run st' (parents cn')) as (names & Hids & Hnames);
      [eapply closed_pars; eassumption|].
    rewrite (bind_ok _ _ st' names st').
    2:{ rewrite (bind_ok _ _ _ _ _ (load_ok _ _ _ Hcn')). exact Hids. }
    rewrite mem_str_true; [reflexivity|]. apply Hnames.
    rewrite <- (pars_lookup _ _ _ Hcn'), Hresp. eauto.
Qed.

Lemma store_ext (h h' : list Node) :
  length h' = length h →
  (∀ a, label h' a = label h a) →
  (∀ a, kids h' a = kids h a) → (∀ a, pars h' a = pars h a) →
  h' = h.
Proof.
  intros Hlen Hlab Hk Hp. apply list_eq. intros a.
  specialize (Hlab a). specialize (Hk a). specialize (Hp a).
  unfold label, kids, pars in *.
  destruct (h' !! a) as [[i' ps' cs' k']|], (h !! a) as [[i ps cs k]|];
    simpl in *; try discriminate; [|reflexivity].
  injection Hlab as -> ->. subst. reflexivity.
Qed.

Lemma list_remove_snoc x l : x ∉ l → list_remove x (l ++ [x]) = Some l.
Proof.
  induction l as [|y l IH]; intros Hx; simpl.
  - destruct (decide (x = x)); [reflexivity | congruence].
  - destruct (decide (x = y)) as [->|Hne]; [exfalso; apply Hx; left|].
    rewrite IH; [reflexivity|]. intros Hin. apply Hx. right. exact Hin.
Qed.

(** X7: adding an edge that is not there and removing it again gives the
    store back unchanged. *)
Theorem add_child_then_remove_child (st : state) (self c : addr) :
  self < length (heap st) → c < length (heap st) →
  c ∉ kids (heap st) self → self ∉ pars (heap st) c →
  (add_child self c;; remove_child self (Some c)) st = (Ok (Some c), st).
Proof.
  intros Hs Hc Hnk Hnp.
  destruct (add_child_effect st self c Hs Hc)
    as (st1 & Hrun1 & Hsame1 & Hk1 & Hp1).
  change ((add_child self c;; remove_child self (Some c)) st)
    with ((add_child self c ≫= λ _, remove_child self (Some c)) st).
  rewrite (bind_ok _ _ _ _ _ Hrun1). unfold remove_child.
  assert (Hs1 : self < length (heap st1))
    by (destruct Hsame1 as (_ & -> & _); exact Hs).
  pose proof (children_remove_effect st1 self c Hs1) as H2.
  rewrite Hk1 in H2. destruct (decide (self = self)); [|congruence].
  rewrite (list_remove_snoc _ _ Hnk) in H2.
  destruct H2 as (st2 & Hrun2 & Hsame2 & Hk2 & Hp2).
  rewrite (bind_ok _ _ _ _ _ Hrun2).
  assert (Hc2 : c < length (heap st2)).
  { destruct Hsame2 as (_ & -> & _). destruct Hsame1 as (_ & -> & _).
    exact Hc. }
  pose proof (parents_remove_effect st2 c self Hc2) as H3.
  rewrite Hp2, Hp1 in H3. destruct (decide (c = c)); [|congruence].
  rewrite (list_remove_snoc _ _ Hnp) in H3.
  destruct H3 as (st3 & Hrun3 & Hsame3 & Hk3 & Hp3).
  rewrite (bind_ok _ _ _ _ _ Hrun3).
  pose proof (same_objects_trans _ _ _
                (same_objects_trans _ _ _ Hsame1 Hsame2) Hsame3)
    as (Hsent & Hlen & Hlab).
  assert (Hheap : heap st3 = heap st).
  { apply store_ext; [exact Hlen | exact Hlab | |].
    - intros a. rewrite Hk3, Hk2.
      destruct (decide (a = self)) as [->|Hne]; [reflexivity|].
      rewrite Hk1. destruct (decide (a = self)); [contradiction|reflexivity].
    - intros a. rewrite Hp3.
      destruct (decide (a = c)) as [->|Hne]; [reflexivity|].
      rewrite Hp2, Hp1.
      destruct (decide (a = c)); [contradiction|reflexivity]. }
  destruct st3 as [h3 s3], st as [h s]. simpl in *. subst. reflexivity.
Qed.

(** X8: [remove_child] with [None] is the no-op of the guard; with a node
    that is not among the children it raises ValueError and leaves the store
    as it was; with a child whose parent list does not hold [self] it
    removes the child entry and then raises, leaving half an edge removed. *)
Theorem remove_child_absent (st : state) (self c : addr) :
  self < length (heap st) →
  remove_child self None st = (Ok None, st) ∧
  (c ∉ kids (heap st) self →
   remove_child self (Some c) st = (Raise ValueError, st)) ∧
  (c < length (heap st) → c ∈ kids (heap st) self →
   self ∉ pars (heap st) c →
   ∃ st' lk,
     remove_child self (Some c) st = (Raise ValueError, st') ∧
     list_remove c (kids (heap st) self) = Some lk ∧
     kids (heap st') self = lk ∧
     pars (heap st') c = pars (heap st) c).
Proof.
  intros Hs. split; [reflexivity|]. split.
  - intros Hnot. unfold remove_child.
    pose proof (children_remove_effect st self c Hs) as H1.
    destruct (list_remove c (kids (heap st) self)) as [lk|] eqn:Hlk.
    + exfalso. apply Hnot.
      apply list_elem_of_In, (count_occ_In Nat.eq_dec).
      pose proof (list_remove_count _ _ _ c Hlk) as Hcnt.
      destruct (decide (c = c)); [lia | congruence].
    + rewrite (bind_raise _ _ _ _ _ H1). reflexivity.
  - intros Hc Hin Hnp. unfold remove_child.
    pose proof (children_remove_effect st self c Hs) as H1.
    destruct (list_remove_elem_of _ _ Hin) as [lk Hlk]. rewrite Hlk in H1.
    destruct H1 as (st1 & Hrun1 & Hsame1 & Hk1 & Hp1).
    assert (Hc1 : c < length (heap st1))
      by (destruct Hsame1 as (_ & -> & _); exact Hc).
    pose proof (parents_remove_effect st1 c self Hc1) as H2.
    rewrite Hp1 in H2.
    destruct (list_remove self (pars (heap st) c)) as [lp|] eqn:Hlp.
    { exfalso. apply Hnp.
      apply list_elem_of_In, (count_occ_In Nat.eq_dec).
      pose proof (list_remove_count _ _ _ self Hlp) as Hcnt.
      destruct (decide (self = self)); [lia | congruence]. }
    exists st1, lk. split.
    + rewrite (bind_ok _ _ _ _ _ Hrun1), (bind_raise _ _ _ _ _ H2).
      reflexivity.
    + split; [exact Hlk|]. split; [|apply Hp1].
      rewrite Hk1. destruct (decide (self = self)); [reflexivity|congruence].
Qed.

(** ** Columns and their types *)

Lemma before_split sep s : ∃ rest, s = before sep s +:+ rest.
Proof.
  induction s as [|c s [rest IH]]; [exists ""; reflexivity|].
  simpl. destruct (decide (c = sep)).
  - exists (String c s). reflexivity.
  - exists rest. change (String c s = String c (before sep s +:+ rest)).
    f_equal. exact IH.
Qed.

Lemma before_free sep s : sep ∉ chars (before sep s).
Proof.
  induction s as [|c s IH]; simpl; [intros H; inversion H|].
  destruct (decide (c = sep)) as [|Hne]; [intros H; inversion H|].
  simpl. intros H. apply elem_of_cons in H as [H|H]; [congruence|].
  exact (IH H).
Qed.

Lemma before_keeps_free sep x s : x ∉ chars s → x ∉ chars (before sep s).
Proof.
  induction s as [|c s IH]; simpl; [auto|]. intros Hx.
  destruct (decide (c = sep)); [intros H; inversion H|].
  simpl. intros H. apply elem_of_cons in H as [->|H].
  - apply Hx. left.
  - apply IH; [|exact H]. intros Hin. apply Hx. right. exact Hin.
Qed.

Lemma before_id sep s : sep ∉ chars s → before sep s = s.
Proof.
  induction s as [|c s IH]; simpl; [reflexivity|]. intros Hs.
  destruct (decide (c = sep)) as [->|_]; [exfalso; apply Hs; left|].
  f_equal. apply IH. intros Hin. apply Hs. right. exact Hin.
Qed.

(** X9: [parse_type] returns a prefix of the raw type that holds neither
    an opening parenthesis nor a space, and the raw type itself when it
    holds neither; on a column without type it raises AttributeError. *)
Theorem parse_type_shape (st : state) (c : addr) (cn : Node)
    (ty : option string) (nl : option bool) (k : option string)
    (g : string) :
  heap st !! c = Some cn → cls cn = ColumnNode ty nl k g →
  match ty with
  | Some raw =>
      ∃ t rest,
        parse_type c st = (Ok t, st) ∧ raw = t +:+ rest ∧
        ("("%char ∉ chars t) ∧ (" "%char ∉ chars t) ∧
        (("("%char ∉ chars raw) → (" "%char ∉ chars raw) → t = raw)
  | None => parse_type c st = (Raise AttributeError, st)
  end.
Proof.
  intros Hc Hk. unfold parse_type.
  rewrite (bind_ok _ _ _ _ _ (get_type_run _ _ _ _ _ _ _ Hc Hk)).
  destruct ty as [raw|]; [|reflexivity].
  destruct (before_split "(" raw) as [r1 H1].
  destruct (before_split " " (before "(" raw)) as [r2 H2].
  exists (before " " (before "(" raw)), (r2 +:+ r1).
  split; [reflexivity|]. split; [|split; [|split]].
  - rewrite <- string_app_assoc, <- H2. exact H1.
  - apply before_keeps_free, before_free.
  - apply before_free.
  - intros Hp Hs. rewrite (before_id "(" raw Hp). apply before_id, Hs.
Qed.

Lemma sized_type_general st c cn raw nl k g :
  heap st !! c = Some cn → cls cn = ColumnNode (Some raw) nl k g →
  (normalized raw = "varchar" → is_Some (first_digits raw)) →
  sized_type c st = (Ok (final_type raw), st).
Proof.
  intros Hc Hk Hd. unfold sized_type, parse_type.
  rewrite (bind_ok _ _ st (normalized raw) st).
  2:{ rewrite (bind_ok _ _ _ _ _ (get_type_run _ _ _ _ _ _ _ Hc Hk)).
      reflexivity. }
  unfold final_type, small_varchar, declared_size.
  destruct (decide (normalized raw = "varchar")) as [Hv|Hv].
  - rewrite (bind_ok _ _ _ _ _ (get_type_run _ _ _ _ _ _ _ Hc Hk)).
    rewrite (bind_ok (deref (Some raw)) _ st raw st eq_refl).
    rewrite bool_decide_eq_true_2 by exact Hv. cbn [andb].
    destruct (Hd Hv) as [ds Hds]. rewrite Hds. simpl.
    destruct (int_of_digits 0 ds <=? 15)%Z; [reflexivity|].
    rewrite Hv. reflexivity.
  - rewrite bool_decide_eq_false_2 by exact Hv. reflexivity.
Qed.

(** The classifier read in the words of the specification: the type name,
    the declared size, the counted types and the groups. *)
Lemma type_name_normalized raw : normalized raw = type_name raw.
Proof.
  unfold normalized. induction raw as [|c raw IH]; [reflexivity|].
  cbn [before type_name].
  destruct (decide (c = "("%char)) as [->|Hp].
  - rewrite decide_True by (left; reflexivity). reflexivity.
  - cbn [before]. destruct (decide (c = " "%char)) as [->|Hs].
    + rewrite decide_True by (right; reflexivity). reflexivity.
    + rewrite decide_False by (intros [?|?]; contradiction).
      rewrite IH. reflexivity.
Qed.

Lemma digit_value_is_digit c :
  match digit_value c with
  | Some d => is_digit c = true ∧ d = Z.of_nat (nat_of_ascii c - 48)
  | None => is_digit c = false
  end.
Proof.
  destruct c as [[] [] [] [] [] [] [] []]; vm_compute;
    try reflexivity; split; reflexivity.
Qed.

Lemma number_from_digits n s : int_of_digits n (digit_run s) = number_from n s.
Proof.
  revert n. induction s as [|c s IH]; intros n; [reflexivity|].
  cbn [digit_run number_from]. pose proof (digit_value_is_digit c) as Hc.
  destruct (digit_value c) as [d|].
  - destruct Hc as [-> ->]. cbn [int_of_digits]. apply IH.
  - rewrite Hc. reflexivity.
Qed.

Lemma first_number_digits s : declared_size s = first_number s.
Proof.
  unfold declared_size. induction s as [|c s IH]; [reflexivity|].
  cbn [first_digits first_number]. pose proof (digit_value_is_digit c) as Hc.
  destruct (digit_value c) as [d|].
  - destruct Hc as [Hc ->]. rewrite Hc. cbn [fmap option_fmap option_map].
    f_equal. cbn [digit_run]. rewrite Hc. cbn [int_of_digits].
    rewrite number_from_digits. reflexivity.
  - rewrite Hc. exact IH.
Qed.

Lemma small_text_varchar raw : small_varchar raw = small_text raw.
Proof.
  unfold small_varchar, small_text.
  rewrite type_name_normalized, first_number_digits. reflexivity.
Qed.

Lemma mem_str_without (x y : string) (l : list string) :
  x ≠ y → mem_str x (y :: l) = mem_str x l.
Proof.
  intros Hne. unfold mem_str. apply bool_decide_ext. rewrite elem_of_cons.
  tauto.
Qed.

Lemma mem_str_swap (x a b c y : string) :
  x ≠ y → mem_str x [a; b; c; y] = mem_str x [a; b; c].
Proof.
  intros Hne. unfold mem_str. apply bool_decide_ext.
  rewrite !elem_of_cons, !elem_of_nil. tauto.
Qed.

Lemma counted_limited raw :
  type_name raw ≠ "varchar_sm" →
  mem_str (final_type raw) limited_sets = counted raw.
Proof.
  intros Hne. unfold final_type, counted. rewrite small_text_varchar.
  destruct (small_text raw); [reflexivity|].
  rewrite type_name_normalized. unfold limited_sets.
  rewrite mem_str_without by exact Hne. reflexivity.
Qed.

Lemma base_group_type_group raw g :
  type_name raw ≠ "varchar_sm" → type_group raw g = base_group raw g.
Proof.
  intros Hne. unfold type_group, base_group, final_type.
  rewrite small_text_varchar. unfold small_text.
  destruct (bool_decide (type_name raw = "varchar")) eqn:Hv.
  - apply bool_decide_eq_true in Hv.
    assert (Htext : bool_decide (type_name raw ∈ text_types) = true).
    { apply bool_decide_eq_true. rewrite Hv. unfold text_types.
      rewrite !elem_of_cons. tauto. }
    rewrite Htext. cbn [andb].
    destruct (match first_number raw with
              | Some size => (size <=? 15)%Z
              | None => false
              end); [reflexivity|].
    rewrite type_name_normalized, Hv. reflexivity.
  - cbn [andb]. rewrite type_name_normalized. unfold str_sets.
    rewrite mem_str_swap by exact Hne. reflexivity.
Qed.

Lemma set_node_group_explicit cn ty nl k g0 g :
  cls cn = ColumnNode ty nl k g0 →
  set_node_group cn g =
  mkNode (id cn) (parents cn) (children cn) (ColumnNode ty nl k g).
Proof. destruct cn as [i ps cs c]; simpl; intros ->; reflexivity. Qed.

(** One pass of the classifier over a typed column. *)
Lemma group_column_pass hd st t c cn raw nl k g0 z :
  heap st !! c = Some cn → cls cn = ColumnNode (Some raw) nl k g0 →
  type_name raw ≠ "varchar_sm" →
  (type_name raw = "varchar" → is_Some (first_number raw)) →
  (counted raw = true →
   ∃ tn r rest,
     heap st !! t = Some tn ∧
     answer hd (probe_text (id cn) (id tn)) = r :: rest ∧
     row_get r (count_label (id cn)) = Some (VInt z)) →
  group_column hd t c st =
  (Ok tt,
   mkState
     (<[c := mkNode (id cn) (parents cn) (children cn)
               (ColumnNode (Some raw) nl k (classified raw z g0))]> (heap st))
     (sent st ++
      if counted raw
      then [probe_text (id cn) (default "" (name_of (heap st) t))]
      else [])).
Proof.
  intros Hc Hk Hne Hsize Hans.
  assert (Hlt : c < length (heap st)) by (eapply lookup_lt_Some; eassumption).
  unfold group_column.
  rewrite (bind_ok _ _ _ _ _ (sized_type_general _ _ _ _ _ _ _ Hc Hk
             ltac:(rewrite type_name_normalized;
                   intros Hv; destruct (Hsize Hv) as [n Hn];
                   pose proof (first_number_digits raw) as Hd;
                   unfold declared_size in Hd; rewrite Hn in Hd;
                   destruct (first_digits raw); [eauto | discriminate]))).
  rewrite (counted_limited _ Hne).
  set (cn1 := set_node_group cn (type_group raw g0)).
  set (st1 := mkState (<[c := cn1]> (heap st)) (sent st)).
  assert (Hbase :
    (if mem_str (final_type raw) str_sets then set_group c "str_set"
     else if mem_str (final_type raw) num_sets then set_group c "num_set"
     else mret tt) st = (Ok tt, st1)).
  { unfold st1, cn1, type_group.
    destruct (mem_str (final_type raw) str_sets);
      [exact (set_group_run _ _ _ _ _ _ _ "str_set" Hc Hk)|].
    destruct (mem_str (final_type raw) num_sets);
      [exact (set_group_run _ _ _ _ _ _ _ "num_set" Hc Hk)|].
    rewrite (set_node_group_same _ _ _ _ _ Hk).
    rewrite list_insert_id by exact Hc. destruct st; reflexivity. }
  rewrite (bind_ok _ _ _ _ _ Hbase).
  assert (Hc1 : heap st1 !! c = Some cn1)
    by (apply list_lookup_insert_eq; exact Hlt).
  assert (Hk1 : cls cn1 = ColumnNode (Some raw) nl k (type_group raw g0))
    by (eapply set_node_group_cls; eassumption).
  unfold classified. rewrite <- (base_group_type_group _ _ Hne).
  destruct (counted raw) eqn:Hcounted.
  - destruct (Hans eq_refl) as (tn & r & rest & Ht & Hrows & Hrow).
    assert (Ht1 : ∃ tn', heap st1 !! t = Some tn' ∧ id tn' = id tn).
    { destruct (decide (t = c)) as [->|Hnec].
      - exists cn1. split; [exact Hc1|]. unfold cn1.
        rewrite set_node_group_id. congruence.
      - exists tn. split; [|reflexivity]. unfold st1. cbn [heap].
        rewrite list_lookup_insert_ne by congruence. exact Ht. }
    assert (Hid1 : id cn1 = id cn) by apply set_node_group_id.
    rewrite (probe_run hd st1 t c tn cn1 _ _ _ _ r z rest Hc1 Hk1 Ht1
               ltac:(rewrite Hid1; exact Hrows)
               ltac:(rewrite Hid1; exact Hrow)).
    unfold st1. cbn [heap sent andb]. rewrite list_insert_insert_eq, Hid1.
    unfold name_of. rewrite Ht. cbn [fmap option_fmap option_map default].
    f_equal. f_equal. f_equal.
    destruct (z <? 150)%Z.
    + unfold cn1. rewrite set_node_group_twice.
      eapply set_node_group_explicit. exact Hk.
    + eapply set_node_group_explicit. exact Hk.
  - cbn [andb]. unfold st1. rewrite app_nil_r. f_equal. f_equal. f_equal.
    eapply set_node_group_explicit. exact Hk.
Qed.

(** X10: a typed column that is not counted by the cardinality probe (its
    type is neither a varchar of declared size at most 15 nor enum, char or
    tinyint) is classified without any statement: it gets the text group
    [str_set] for blob, mediumblob and varchar, the numeric group [num_set]
    for int, decimal, mediumint, float, datetime and double, and its group
    is left as it was for every other type. *)
Theorem group_column_unprobed (h : MySQLConnectionHandler) (st : state)
    (t c : addr) (cn : Node) (raw : string) (nl : option bool)
    (k : option string) (g0 : string) :
  heap st !! c = Some cn →
  cls cn = ColumnNode (Some raw) nl k g0 →
  type_name raw ≠ "varchar_sm" →
  (type_name raw = "varchar" → is_Some (first_number raw)) →
  counted raw = false →
  group_column h t c st =
  (Ok tt,
   mkState
     (<[c := mkNode (id cn) (parents cn) (children cn)
               (ColumnNode (Some raw) nl k
                  (if bool_decide
                        (type_name raw ∈ ["blob"; "mediumblob"; "varchar"])
                   then "str_set"
                   else if bool_decide
                             (type_name raw ∈
                                ["int"; "decimal"; "mediumint"; "float";
                                 "datetime"; "double"])
                   then "num_set"
                   else g0))]> (heap st))
     (sent st)).
Proof.
  intros Hc Hk Hne Hsize Hcounted.
  rewrite (group_column_pass h st t c cn raw nl k g0 0 Hc Hk Hne Hsize)
    by (rewrite Hcounted; discriminate).
  unfold classified. rewrite Hcounted, app_nil_r. reflexivity.
Qed.

(** X11: the classifier stops with an exception on a column without type
    (AttributeError) and on a varchar whose raw type holds no digit
    (IndexError), in both cases before anything is changed or sent; when the
    server answers the probe with no row it raises IndexError after the
    statement was sent, and a small varchar is by then already in the text
    group. *)
Theorem group_column_failures (h : MySQLConnectionHandler) (st : state)
    (t c : addr) (tn cn : Node) (ty : option string) (nl : option bool)
    (k : option string) (g0 : string) :
  heap st !! c = Some cn →
  cls cn = ColumnNode ty nl k g0 →
  heap st !! t = Some tn →
  (ty = None → group_column h t c st = (Raise AttributeError, st)) ∧
  (∀ raw, ty = Some raw → normalized raw = "varchar" →
     first_digits raw = None →
     group_column h t c st = (Raise IndexError, st)) ∧
  (∀ raw, ty = Some raw → probed raw = true →
     answer h (count_query (id cn) (id tn)) = [] →
     group_column h t c st =
     (Raise IndexError,
      mkState
        (<[c := set_node_group cn (group_before_probe raw g0)]> (heap st))
        (sent st ++ [count_query (id cn) (id tn)]))).
Proof.
  intros Hc Hk Ht. split; [|split].
  - intros ->. unfold group_column, sized_type, parse_type.
    rewrite !bind_run.
    rewrite (get_type_run _ _ _ _ _ _ _ Hc Hk). reflexivity.
  - intros raw -> Hv Hd. unfold group_column, sized_type, parse_type.
    rewrite (bind_raise _ _ st IndexError st); [reflexivity|].
    rewrite (bind_ok _ _ st (normalized raw) st).
    2:{ rewrite (bind_ok _ _ _ _ _ (get_type_run _ _ _ _ _ _ _ Hc Hk)).
        reflexivity. }
    destruct (decide (normalized raw = "varchar")); [|contradiction].
    rewrite (bind_ok _ _ _ _ _ (get_type_run _ _ _ _ _ _ _ Hc Hk)).
    rewrite (bind_ok (deref (Some raw)) _ st raw st eq_refl).
    rewrite Hd. reflexivity.
  - intros raw -> Hp Hans. unfold group_column.
    rewrite (bind_ok _ _ _ _ _ (sized_type_run _ _ _ _ _ _ _ Hc Hk Hp)).
    assert (Hprobe : ∀ st1 cn1 tn1,
      heap st1 !! c = Some cn1 → id cn1 = id cn →
      heap st1 !! t = Some tn1 → id tn1 = id tn →
      (c0 ← load c; t0 ← load t;
       results ← execute_query h (count_query (id c0) (id t0));
       match results with
       | [] => raise IndexError
       | results_dict :: _ =>
           c' ← load c;
           n ← getitem results_dict (count_field (id c'));
           match n with
           | VInt z =>
               if (z <? 150)%Z then set_group c "limited_set" else mret tt
           | VStr _ => raise TypeError
           end
       end) st1 =
      (Raise IndexError,
       mkState (heap st1) (sent st1 ++ [count_query (id cn) (id tn)]))).
    { intros st1 cn1 tn1 Hc1 Hid1 Ht1 Hidt.
      rewrite (bind_ok _ _ _ _ _ (load_ok _ _ _ Hc1)).
      rewrite (bind_ok _ _ _ _ _ (load_ok _ _ _ Ht1)).
      rewrite Hid1, Hidt, bind_run. unfold execute_query at 1.
      rewrite Hans. reflexivity. }
    unfold group_before_probe. destruct (small_varchar raw) eqn:Hsv.
    + change (mem_str "varchar_sm" str_sets) with true.
      change (mem_str "varchar_sm" limited_sets) with true. cbn match.
      rewrite (bind_ok _ _ _ _ _ (set_group_run _ _ _ _ _ _ _ "str_set" Hc Hk)).
      pose proof (lookup_lt_Some _ _ _ Hc) as Hlt.
      assert (Ht1 : ∃ tn1,
        <[c := set_node_group cn "str_set"]> (heap st) !! t = Some tn1 ∧
        id tn1 = id tn).
      { destruct (decide (t = c)) as [->|Hne].
        - exists (set_node_group cn "str_set").
          split; [apply list_lookup_insert_eq, Hlt|].
          rewrite set_node_group_id. congruence.
        - exists tn. split; [|reflexivity].
          rewrite list_lookup_insert_ne by congruence. exact Ht. }
      destruct Ht1 as (tn1 & Ht1 & Hidt).
      rewrite (Hprobe _ (set_node_group cn "str_set") tn1);
        [reflexivity | | | exact Ht1 | exact Hidt].
      * cbn [heap]. apply list_lookup_insert_eq, Hlt.
      * apply set_node_group_id.
    + unfold probed in Hp. rewrite Hsv in Hp. cbn [orb] in Hp.
      apply bool_decide_eq_true in Hp.
      rewrite (set_node_group_same _ _ _ _ _ Hk).
      rewrite list_insert_id by exact Hc.
      repeat (apply elem_of_cons in Hp as [Hp|Hp]);
        [rewrite Hp .. | inversion Hp].
      all: change (mem_str _ str_sets) with false;
           change (mem_str _ num_sets) with false;
           change (mem_str _ limited_sets) with true;
           cbn match;
           rewrite (bind_ok (mret tt) _ st tt st eq_refl);
           apply (Hprobe st cn tn Hc eq_refl Ht eq_refl).
Qed.

(** ** The path find_path returns *)

Lemma walk_tables_chain recur curr B p prev st link ln tables :
  heap st !! link = Some ln → is_Some (heap st !! B) →
  Forall (λ t, is_Some (heap st !! t)) tables →
  (∀ t tn, t ∈ tables → heap st !! t = Some tn → id tn ∉ prev → t ≠ curr →
     ∃ r, recur t (Some (p ++ [(id tn, id ln)])) st = (Ok r, st) ∧
          ∀ q, r = Some q →
            ∃ hops, q = (p ++ [(id tn, id ln)]) ++ hops ∧
                    hops_from (heap st) t hops B) →
  ∃ r, walk_tables recur curr B p prev link tables st = (Ok r, st) ∧
       ∀ q, r = Some q →
         ∃ t tn hops, t ∈ tables ∧ heap st !! t = Some tn ∧
                      q = p ++ (id tn, id ln) :: hops ∧
                      hops_from (heap st) t hops B.
Proof.
  intros Hl [bn HB] Hall Hrec. induction Hall as [|t tables [tn Ht] _ IH].
  - exists None. split; [reflexivity | discriminate].
  - assert (IH' : ∃ r, walk_tables recur curr B p prev link tables st
                       = (Ok r, st) ∧
             ∀ q, r = Some q →
               ∃ t0 tn0 hops, t0 ∈ t :: tables ∧ heap st !! t0 = Some tn0 ∧
                 q = p ++ (id tn0, id ln) :: hops ∧
                 hops_from (heap st) t0 hops B).
    { destruct IH as (r & Hrun & Hr).
      - intros t' tn' Hin. apply Hrec. right. exact Hin.
      - exists r. split; [exact Hrun|]. intros q Hq.
        destruct (Hr q Hq) as (t0 & tn0 & hops & Hin & Hrest).
        exists t0, tn0, hops. split; [right; exact Hin | exact Hrest]. }
    cbn [walk_tables]. rewrite (bind_ok _ _ _ _ _ (load_ok _ _ _ Ht)).
    destruct (decide (id tn ∈ prev)) as [Hin|Hnot].
    { rewrite (mem_str_true _ _ Hin). exact IH'. }
    rewrite (mem_str_false _ _ Hnot). cbn [negb andb].
    destruct (decide (t = curr)) as [Heq|Hne].
    { rewrite bool_decide_eq_true_2 by exact Heq. exact IH'. }
    rewrite bool_decide_eq_false_2 by exact Hne. cbn [negb].
    rewrite (bind_ok _ _ _ _ _ (load_ok _ _ _ Hl)).
    destruct (Hrec t tn ltac:(left) Ht Hnot Hne) as (r & Hrun & Hr).
    rewrite (bind_ok _ _ _ _ _ Hrun).
    destruct r as [q|]; [|exact IH'].
    destruct (Hr q eq_refl) as (hops & Hq & Hhops).
    destruct (last q) as [h|] eqn:Hlast; cbn match.
    + rewrite (bind_ok _ _ _ _ _ (load_ok _ _ _ HB)).
      destruct (decide (h.1 = id bn)); [|exact IH'].
      exists (Some q). split; [reflexivity|]. intros q' [= <-].
      exists t, tn, hops. split; [left|]. split; [exact Ht|].
      split; [|exact Hhops]. rewrite Hq, <- app_assoc. reflexivity.
    + apply last_None in Hlast. rewrite Hlast in Hq.
      symmetry in Hq. apply app_eq_nil in Hq as [Hq _].
      apply app_eq_nil in Hq as [_ Hq]. discriminate.
Qed.

Lemma walk_links_chain recur curr B p prev st links :
  closed (heap st) → is_Some (heap st !! B) →
  Forall (λ l, is_Some (heap st !! l)) links →
  (∀ l ln t tn, l ∈ links → heap st !! l = Some ln → t ∈ parents ln →
     heap st !! t = Some tn → id tn ∉ prev → t ≠ curr →
     ∃ r, recur t (Some (p ++ [(id tn, id ln)])) st = (Ok r, st) ∧
          ∀ q, r = Some q →
            ∃ hops, q = (p ++ [(id tn, id ln)]) ++ hops ∧
                    hops_from (heap st) t hops B) →
  ∃ r, walk_links recur curr B p prev links st = (Ok r, st) ∧
       ∀ q, r = Some q →
         ∃ l ln t tn hops,
           l ∈ links ∧ heap st !! l = Some ln ∧ t ∈ parents ln ∧
           heap st !! t = Some tn ∧
           q = p ++ (id tn, id ln) :: hops ∧
           hops_from (heap st) t hops B.
Proof.
  intros Hc HB Hall Hrec. induction Hall as [|l links [ln Hl] _ IH].
  - exists None. split; [reflexivity | discriminate].
  - assert (IH' : ∃ r, walk_links recur curr B p prev links st = (Ok r, st) ∧
             ∀ q, r = Some q →
               ∃ l0 ln0 t tn hops,
                 l0 ∈ l :: links ∧ heap st !! l0 = Some ln0 ∧
                 t ∈ parents ln0 ∧ heap st !! t = Some tn ∧
                 q = p ++ (id tn, id ln0) :: hops ∧
                 hops_from (heap st) t hops B).
    { destruct IH as (r & Hrun & Hr).
      - intros l' ln' t tn Hin. apply Hrec. right. exact Hin.
      - exists r. split; [exact Hrun|]. intros q Hq.
        destruct (Hr q Hq) as (l0 & ln0 & t & tn & hops & Hin & Hrest).
        exists l0, ln0, t, tn, hops. split; [right; exact Hin | exact Hrest]. }
    cbn [walk_links]. rewrite (bind_ok _ _ _ _ _ (load_ok _ _ _ Hl)).
    unfold mem_addr. destruct (decide (B ∈ parents ln)) as [Hin|Hnot].
    + rewrite bool_decide_eq_true_2 by exact Hin.
      destruct HB as [bn HB]. rewrite (bind_ok _ _ _ _ _ (load_ok _ _ _ HB)).
      eexists. split; [reflexivity|]. intros q [= <-].
      exists l, ln, B, bn, []. split; [left|]. split; [exact Hl|].
      split; [exact Hin|]. split; [exact HB|]. split; [reflexivity|].
      apply hops_done.
    + rewrite bool_decide_eq_false_2 by exact Hnot.
      destruct (walk_tables_chain recur curr B p prev st l ln (parents ln)
                  Hl HB (closed_pars _ _ _ Hc Hl)) as (r & Hrun & Hr).
      { intros t tn Hin Ht. eapply Hrec; [left|exact Hl|exact Hin|exact Ht]. }
      rewrite (bind_ok _ _ _ _ _ Hrun). destruct r as [q|]; [|exact IH'].
      exists (Some q). split; [reflexivity|]. intros q' [= <-].
      destruct (Hr q eq_refl) as (t & tn & hops & Hin & Ht & Hq & Hhops).
      exists l, ln, t, tn, hops. split; [left|]. repeat split; assumption.
Qed.

Lemma find_path_chain st A B :
  closed (heap st) → is_Some (heap st !! B) →
  (∀ t, connected (heap st) A t → keyed_table (heap st) t) →
  ∀ fuel curr p,
    connected (heap st) A curr →
    unvisited (heap st) (map fst p) < fuel →
    ∃ r, find_path fuel curr B (Some p) st = (Ok r, st) ∧
         ∀ q, r = Some q →
           ∃ hops, q = p ++ hops ∧ hops_from (heap st) curr hops B.
Proof.
  intros Hc HB Hkeyed. induction fuel as [|fuel IH]; intros curr p Hconn Hfuel;
    [lia|].
  cbn [find_path default]. destruct (decide (curr = B)) as [->|Hne].
  { exists (Some p). split; [reflexivity|]. intros q [= <-].
    exists []. split; [rewrite app_nil_r; reflexivity | apply hops_done]. }
  pose proof (Hkeyed curr Hconn) as Hk.
  rewrite (bind_ok _ _ _ _ _ (table_links_keyed _ _ Hc Hk)).
  destruct (walk_links_chain (λ t q, find_path fuel t B q) curr B p
              (map fst p) st (link_candidates (heap st) curr) Hc HB)
    as (r & Hrun & Hr).
  - apply Forall_forall. intros l Hl.
    apply (link_candidates_linked _ _ _ Hc Hk Hl).
  - intros l ln t tn Hl Hln Hin Htn Hnot Hne'.
    destruct (link_candidates_linked _ _ _ Hc Hk Hl) as (_ & Hlen & Hcurr).
    apply IH.
    + eapply rtc_r; [exact Hconn|]. exists l. split; [exact Hlen|].
      split; [exact Hcurr|]. rewrite (pars_lookup _ _ _ Hln). exact Hin.
    + rewrite map_app. simpl.
      pose proof (unvisited_extend _ _ _ _ Htn Hnot). lia.
  - exists r. split; [exact Hrun|]. intros q Hq.
    destruct (Hr q Hq) as (l & ln & t & tn & hops & Hl & Hln & Hin & Htn
                           & -> & Hhops).
    destruct (link_candidates_linked _ _ _ Hc Hk Hl) as (_ & Hlen & Hcurr).
    exists ((id tn, id ln) :: hops). split; [reflexivity|].
    eapply (hops_step _ curr l t); try eassumption.
    + rewrite (pars_lookup _ _ _ Hln). exact Hin.
    + unfold name_of. rewrite Htn. reflexivity.
    + unfold name_of. rewrite Hln. reflexivity.
Qed.

(** X12: on a graph whose references designate objects, when every table
    connected to [A] has its primary key set, is listed as a parent by that
    key once the key is shared, and is listed as a parent by each of its
    children, [find_path(A, B)] returns without raising, and a path it
    returns is a join path from [A] to [B]: every hop names a table and a
    column with more than one parent that lists both the table before and
    that table. *)
Theorem find_path_returns_join_path (st : state) (A B : addr) (fuel : nat) :
  closed (heap st) → is_Some (heap st !! B) →
  (∀ t, connected (heap st) A t → keyed_table (heap st) t) →
  length (heap st) < fuel →
  ∃ r, find_path fuel A B None st = (Ok r, st) ∧
       ∀ q, r = Some q → hops_from (heap st) A q B.
Proof.
  intros Hc HB Hkeyed Hfuel.
  destruct fuel as [|fuel]; [lia|].
  change (find_path (S fuel) A B None st)
    with (find_path (S fuel) A B (Some []) st).
  destruct (find_path_chain st A B Hc HB Hkeyed (S fuel) A [])
    as (r & Hrun & Hr).
  - apply rtc_refl.
  - pose proof (unvisited_le (heap st) []). simpl. lia.
  - exists r. split; [exact Hrun|]. intros q Hq.
    destruct (Hr q Hq) as (hops & -> & Hhops). exact Hhops.
Qed.

(** ** build_values when it cannot answer *)

Lemma column_of_rows_missing st column rows :
  Exists (λ r, row_get r column = None) rows →
  column_of_rows column rows st = (Raise KeyError, st).
Proof.
  induction 1 as [r rows Hr|r rows _ IH]; simpl; unfold getitem.
  - rewrite Hr. reflexivity.
  - destruct (row_get r column) as [v|]; [|reflexivity].
    rewrite (bind_ok (ret v) _ st v st eq_refl).
    rewrite (bind_raise _ _ _ _ _ IH). reflexivity.
Qed.

(** X13: when the table name resolves to a child of the root that is not a
    table, such as the plain node [DatabaseNode.create_table] makes,
    [build_values] raises AttributeError before any statement is sent; so it
    does on a table whose primary key is not set when [values] is given
    without [values_column]; when one of the rows the server answers lacks
    the column, it raises KeyError after the statement was sent. *)
Theorem build_values_failures (self : DatabaseTree) (table column : string)
    (values_column : option string) (queries values : list string)
    (st : state) (tn : addr) :
  closed (heap st) →
  is_Some (heap st !! db_node self) →
  resolve (heap st) (db_node self) table = Some tn →
  (¬ is_table (heap st) tn →
   build_values self table column values_column queries values st =
   (Raise AttributeError, st)) ∧
  (is_table (heap st) tn → is_Some (resolve (heap st) tn column) →
   values ≠ [] → values_column = None →
   primary_key_of (heap st) tn = None →
   build_values self table column values_column queries values st =
   (Raise AttributeError, st)) ∧
  (∀ K,
     is_table (heap st) tn → is_Some (resolve (heap st) tn column) →
     (values ≠ [] → values_key (heap st) tn values_column = Some K) →
     Exists (λ r, row_get r column = None)
       (answer (sql_handle self)
          (expected_sql table column K queries values)) →
     build_values self table column values_column queries values st =
     (Raise KeyError,
      mkState (heap st)
        (sent st ++ [expected_sql table column K queries values]))).
Proof.
  intros Hc Hd Htab.
  assert (Hget : tree_get_table self table st = (Ok (Some tn), st)).
  { destruct Hd as [d Hd]. unfold tree_get_table, get_table.
    rewrite (get_child_run _ _ _ table Hc Hd), Htab. reflexivity. }
  destruct (lookup_id_allocated _ _ _ _ Htab) as (n & Hn & _).
  split; [|split].
  - intros Hnot. unfold build_values.
    rewrite (bind_ok _ _ _ _ _ Hget).
    apply bind_raise. eapply has_column_not_table; eassumption.
  - intros Htable Hcol Hvals -> Hnone. unfold build_values.
    rewrite (bind_ok _ _ _ _ _ Hget).
    rewrite (bind_ok _ _ _ _ _ (has_column_run _ _ column Hc Htable)).
    rewrite bool_decide_eq_true_2 by exact Hcol.
    cbn [negb].
    destruct values as [|v values]; [congruence|].
    cbn [nonempty].
    apply bind_raise.
    destruct Htable as (n' & pk & Hn' & Hcls).
    pose proof (primary_key_of_table _ _ _ _ Hn' Hcls) as Hpk.
    rewrite Hnone in Hpk. subst pk.
    rewrite (bind_ok _ _ _ _ _ (get_primary_key_run _ _ _ _ Hn' Hcls)).
    reflexivity.
  - intros K Htable Hcol Hkey Hrows.
    rewrite (build_values_reaches_server self table column K values_column
               queries values st tn Hc Hd Htab Htable Hcol Hkey).
    apply column_of_rows_missing. exact Hrows.
Qed.

(** ** Constraints the tree cannot place *)

Lemma webs_skip hd d h body_fuel :
  closed h → is_Some (h !! d) →
  ∀ pre done rest fuel sent0,
    kids h d = done ++ pre ++ rest →
    Forall (unconstrained hd h) pre →
    for_live (length pre + fuel) (read_children d) (length done)
      (web_table body_fuel hd d) (mkState h sent0) =
    for_live fuel (read_children d) (length done + length pre)
      (web_table body_fuel hd d)
      (mkState h (sent0 ++ constraint_queries hd h pre)).
Proof.
  intros Hc Hd. induction pre as [|x pre IH]; intros done rest fuel sent0 Hk Hpre.
  - simpl. rewrite Nat.add_0_r, app_nil_r. reflexivity.
  - apply Forall_cons in Hpre as [Hx Hpre].
    assert (Hin : x ∈ kids h d).
    { rewrite Hk. apply elem_of_app. right. apply elem_of_cons. by left. }
    assert (Hlt : x < length h).
    { apply (proj1 (closed_views h) Hc d x). by right. }
    destruct (lookup_lt_is_Some_2 _ _ Hlt) as [n Hn].
    assert (Hname : name_of h x = Some (id n)).
    { unfold name_of. rewrite Hn. reflexivity. }
    cbn [length Nat.add for_live].
    rewrite (bind_ok _ _ _ _ _ (read_children_run (mkState h sent0) d Hd)).
    cbn [heap]. rewrite Hk.
    rewrite lookup_app_r by lia. rewrite Nat.sub_diag. cbn [lookup list_lookup app].
    erewrite (bind_ok _ _ (mkState h sent0) tt).
    2:{ unfold web_table.
        rewrite (bind_ok _ _ _ _ _ (load_ok (mkState h sent0) x n Hn)).
        rewrite bind_run. unfold execute_query. cbn [heap sent fst snd].
        rewrite (Hx _ Hname). reflexivity. }
    specialize (IH (done ++ [x]) rest fuel
                  (sent0 ++ [foreign_key_query hd (id n)])).
    rewrite length_app in IH. cbn [length] in IH.
    replace (length done + 1) with (S (length done)) in IH by lia.
    rewrite IH.
    + assert (Hq : constraint_queries hd h (x :: pre) =
                   foreign_key_query hd (id n) :: constraint_queries hd h pre).
      { unfold constraint_queries, name_of. simpl. rewrite Hn. reflexivity. }
      rewrite Hq, <- app_assoc. cbn [app].
      replace (S (length done) + length pre) with (length done + S (length pre)) by lia.
      reflexivity.
    + rewrite Hk, <- app_assoc. reflexivity.
    + exact Hpre.
Qed.

Lemma web_constraint_rejects fuel d X row f st :
  closed (heap st) → is_Some (heap st !! d) → is_Some (heap st !! X) →
  row_says row f →
  resolve (heap st) d (fk_table f) = None ∨
  resolve (heap st) X (fk_column f) = None →
  web_constraint fuel d X row st = (Raise AttributeError, st).
Proof.
  intros Hc [dn Hd] [xn HX] [Htab Hcol] Hcase. unfold web_constraint.
  rewrite (bind_ok _ _ _ _ _ (gettext_run _ _ _ st Hcol)).
  unfold get_column.
  rewrite (bind_ok _ _ _ _ _ (get_child_run _ _ _ (fk_column f) Hc HX)).
  rewrite (bind_ok _ _ _ _ _ (gettext_run _ _ _ st Htab)).
  unfold get_table.
  rewrite (bind_ok _ _ _ _ _ (get_child_run _ _ _ (fk_table f) Hc Hd)).
  destruct (resolve (heap st) d (fk_table f)) as [r|] eqn:Hr.
  - destruct Hcase as [?|Hnone]; [discriminate|].
    destruct (lookup_id_allocated _ _ _ _ Hr) as (rn & Hrn & _).
    rewrite (bind_ok (deref (Some r)) _ st r st eq_refl).
    rewrite (bind_ok _ _ _ _ _ (gettext_run _ _ _ st Hcol)).
    rewrite (bind_ok _ _ _ _ _ (get_child_run _ _ _ (fk_column f) Hc Hrn)).
    rewrite Hnone. reflexivity.
  - reflexivity.
Qed.

(** X14: when the server reports no constraint towards any table of the
    root, [setup_db_tree_webs] returns having sent one constraint statement
    per table, in child order, and leaves the store as it was. *)
Theorem webs_without_constraints (hd : MySQLConnectionHandler) (st : state)
    (d : addr) (fuel : nat) :
  closed (heap st) → is_Some (heap st !! d) →
  Forall (unconstrained hd (heap st)) (kids (heap st) d) →
  length (kids (heap st) d) < fuel →
  setup_db_tree_webs fuel hd d st =
  (Ok tt,
   mkState (heap st)
     (sent st ++ constraint_queries hd (heap st) (kids (heap st) d))).
Proof.
  intros Hc Hd Hall Hfuel. destruct st as [h s]. cbn [heap sent] in *.
  unfold setup_db_tree_webs.
  replace fuel with (length (kids h d) + S (fuel - length (kids h d) - 1))
    at 1 by lia.
  pose proof (webs_skip hd d h fuel Hc Hd (kids h d) [] []
                (S (fuel - length (kids h d) - 1)) s
                ltac:(rewrite app_nil_r; reflexivity) Hall) as Hskip.
  change (length (@nil addr)) with 0 in Hskip. rewrite Hskip.
  cbn [Nat.add for_live].
  rewrite (bind_ok _ _ _ _ _ (read_children_run (mkState h _) d Hd)).
  cbn [heap]. rewrite lookup_ge_None_2 by lia. reflexivity.
Qed.

(** X15: when the first constraint row the server answers names a
    referencing table the root does not have, or a column the referenced
    table does not have, [setup_db_tree_webs] raises AttributeError; the
    store is as it was, and the statements sent are those of the tables up
    to the referenced one. *)
Theorem webs_unplaced_constraint (hd : MySQLConnectionHandler) (st : state)
    (d X : addr) (w : string) (pre post : list addr) (row : row)
    (rows : list (list (string * value))) (f : fk_desc) (fuel : nat) :
  closed (heap st) → is_Some (heap st !! d) →
  kids (heap st) d = pre ++ X :: post →
  Forall (unconstrained hd (heap st)) pre →
  name_of (heap st) X = Some w →
  answer hd (foreign_key_query hd w) = row :: rows →
  row_says row f →
  resolve (heap st) d (fk_table f) = None ∨
  resolve (heap st) X (fk_column f) = None →
  length pre < fuel →
  setup_db_tree_webs fuel hd d st =
  (Raise AttributeError,
   mkState (heap st)
     (sent st ++ constraint_queries hd (heap st) (pre ++ [X]))).
Proof.
  intros Hc Hd Hk Hpre Hname Hans Hrow Hcase Hfuel.
  destruct st as [h s]. cbn [heap sent] in *.
  apply name_of_Some in Hname as Hn. destruct Hn as (xn & HX & Hid).
  unfold setup_db_tree_webs.
  replace fuel with (length pre + S (fuel - length pre - 1)) at 1 by lia.
  pose proof (webs_skip hd d h fuel Hc Hd pre [] (X :: post)
                (S (fuel - length pre - 1)) s Hk Hpre) as Hskip.
  change (length (@nil addr)) with 0 in Hskip. rewrite Hskip.
  cbn [Nat.add for_live].
  rewrite (bind_ok _ _ _ _ _ (read_children_run (mkState h _) d Hd)).
  cbn [heap]. rewrite Hk.
  rewrite lookup_app_r by lia. rewrite Nat.sub_diag. cbn [lookup list_lookup].
  apply bind_raise. unfold web_table.
  rewrite (bind_ok _ _ _ _ _ (load_ok (mkState h _) X xn HX)).
  rewrite bind_run. unfold execute_query. cbn [heap sent fst snd].
  rewrite Hid, Hans. cbn [for_each].
  apply bind_raise.
  assert (Hq : constraint_queries hd h (pre ++ [X]) =
               constraint_queries hd h pre ++ [foreign_key_query hd w]).
  { unfold constraint_queries. rewrite omap_app. f_equal.
    unfold name_of. simpl. rewrite HX. simpl. rewrite Hid. reflexivity. }
  rewrite Hq, app_assoc.
  apply (web_constraint_rejects fuel d X row f (mkState h _)); cbn [heap];
    eauto.
Qed.

(** ** What introspection keeps of the graph *)

Section keeping.
Variable N : nat.
Variable names : addr → option string.

Lemma keeps_bind {A B} (m : M A) (f : A → M B) (Q : A → Prop) (R : B → Prop) :
  keeps N names m Q → (∀ a, Q a → keeps N names (f a) R) →
  keeps N names (m ≫= f) R.
Proof.
  intros Hm Hf st Hst. rewrite bind_run. destruct (Hm st Hst) as [Hst' Hq].
  destruct (m st) as [[a|e|] st']; simpl in *.
  - exact (Hf a (Hq a eq_refl) st' Hst').
  - split; [exact Hst' | intros; discriminate].
  - split; [exact Hst' | intros; discriminate].
Qed.

Lemma keeps_weaken {A} (m : M A) (Q Q' : A → Prop) :
  keeps N names m Q → (∀ a, Q a → Q' a) → keeps N names m Q'.
Proof.
  intros Hm HQ st Hst. destruct (Hm st Hst) as [Hst' Hq].
  split; [exact Hst' | intros a Ha; exact (HQ a (Hq a Ha))].
Qed.

Lemma keeps_reads {A} (m : M A) :
  reads_only m → keeps N names m (λ _, True).
Proof. intros Hm st Hst. rewrite Hm. split; [exact Hst | trivial]. Qed.

Lemma keeps_ret {A} (a : A) (Q : A → Prop) :
  Q a → keeps N names (mret a) Q.
Proof. intros Ha st Hst. split; [exact Hst|]. intros a' [= <-]. exact Ha. Qed.

Lemma keeps_raise {A} e (Q : A → Prop) : keeps N names (raise e) Q.
Proof. intros st Hst. split; [exact Hst | intros; discriminate]. Qed.

Lemma keeps_starve {A} (Q : A → Prop) : keeps N names starve Q.
Proof. intros st Hst. split; [exact Hst | intros; discriminate]. Qed.

Lemma keeps_deref {A} (o : option A) (Q : A → Prop) :
  (∀ a, o = Some a → Q a) → keeps N names (deref o) Q.
Proof.
  intros Ho. destruct o as [a|]; [apply keeps_ret; auto | apply keeps_raise].
Qed.

Lemma keeps_load a :
  keeps N names (load a)
    (λ n, a < N ∧ Forall (λ x, x < N) (parents n) ∧
          Forall (λ x, x < N) (children n)).
Proof.
  intros st Hst. rewrite reads_only_load. split; [exact Hst|].
  destruct Hst as (Hlen & _ & Hc & _). unfold load.
  destruct (heap st !! a) as [n|] eqn:Ha; [|intros; discriminate].
  intros n' [= <-]. rewrite <- Hlen. split.
  - eapply lookup_lt_Some; eassumption.
  - exact (Hc a n Ha).
Qed.

Lemma keeps_scan_id w l found :
  Forall (λ x, x < N) l → (∀ a, found = Some a → a < N) →
  keeps N names (scan_id w l found) (λ r, ∀ a, r = Some a → a < N).
Proof.
  revert found. induction l as [|x l IH]; intros found Hl Hf; simpl.
  - apply keeps_ret. exact Hf.
  - apply Forall_cons in Hl as [Hx Hl].
    eapply keeps_bind; [apply keeps_load|]. intros n _.
    apply IH; [exact Hl|]. intros a.
    destruct (decide (id n = w)); [intros [= <-]; exact Hx | apply Hf].
Qed.

Lemma keeps_get_child o w :
  keeps N names (get_child o w) (λ r, ∀ a, r = Some a → a < N).
Proof.
  unfold get_child. eapply keeps_bind; [apply keeps_load|].
  intros n (_ & _ & Hk). apply keeps_scan_id; [exact Hk | intros; discriminate].
Qed.

Lemma keeps_read_parents o :
  keeps N names (read_parents o) (Forall (λ x, x < N)).
Proof.
  unfold read_parents. eapply keeps_bind; [apply keeps_load|].
  intros n (_ & Hp & _). apply keeps_ret. exact Hp.
Qed.

Lemma keeps_read_children o :
  keeps N names (read_children o) (Forall (λ x, x < N)).
Proof.
  unfold read_children. eapply keeps_bind; [apply keeps_load|].
  intros n (_ & _ & Hk). apply keeps_ret. exact Hk.
Qed.

Lemma keeps_execute_query hd q :
  keeps N names (execute_query hd q) (λ _, True).
Proof. intros st Hst. split; [exact Hst | trivial]. Qed.

Lemma well_linked_views st st' :
  well_linked N names st →
  length (heap st') = length (heap st) →
  (∀ a, name_of (heap st') a = name_of (heap st) a) →
  (∀ a x, x ∈ kids (heap st') a → x ∈ kids (heap st) a ∨ x < N) →
  (∀ a x, x ∈ pars (heap st') a → x ∈ pars (heap st) a ∨ x < N) →
  paired (heap st') →
  well_linked N names st'.
Proof.
  intros (Hlen & Hnm & Hc & _) Hlen' Hnm' Hk Hp Hpair.
  split; [congruence|]. split; [intros a; rewrite Hnm'; apply Hnm|].
  split; [|exact Hpair].
  apply closed_views. intros a x Hx. rewrite Hlen', Hlen.
  pose proof (proj1 (closed_views _) Hc) as Hv. rewrite Hlen in Hv.
  destruct Hx as [Hx|Hx].
  - destruct (Hp a x Hx) as [?|?]; [eapply Hv; left; eassumption | assumption].
  - destruct (Hk a x Hx) as [?|?]; [eapply Hv; right; eassumption | assumption].
Qed.

Lemma well_linked_edge_added st st' p c :
  well_linked N names st → p < N → c < N → edge_added st st' p c →
  well_linked N names st'.
Proof.
  intros Hst Hp Hc Hadd. pose proof Hadd as ((_ & Hlen & _) & Hk & Hpr).
  apply (well_linked_views st st' Hst Hlen).
  - intros a. eapply edge_added_names. exact Hadd.
  - intros a x. rewrite Hk. destruct (decide (a = p)) as [->|]; [|auto].
    intros [?| ->%list_elem_of_singleton]%elem_of_app; auto.
  - intros a x. rewrite Hpr. destruct (decide (a = c)) as [->|]; [|auto].
    intros [?| ->%list_elem_of_singleton]%elem_of_app; auto.
  - eapply paired_edge_added; [apply Hst | exact Hadd].
Qed.

Lemma well_linked_edge_removed st st' p c :
  well_linked N names st → edge_removed st st' p c →
  well_linked N names st'.
Proof.
  intros Hst Hrem.
  pose proof Hrem as (Hsame & lk & lp & Hlk & Hlp & Hk & Hpr).
  pose proof (same_objects_names _ _ Hsame) as (Hlen & Hnm & _).
  apply (well_linked_views st st' Hst Hlen Hnm).
  - intros a x. rewrite Hk. destruct (decide (a = p)) as [->|]; [|auto].
    intros Hx. left. eapply list_remove_elem_of_inv; eassumption.
  - intros a x. rewrite Hpr. destruct (decide (a = c)) as [->|]; [|auto].
    intros Hx. left. eapply list_remove_elem_of_inv; eassumption.
  - eapply paired_edge_removed; [apply Hst | exact Hrem].
Qed.

Lemma keeps_add_parent self p :
  self < N → p < N → keeps N names (add_parent self p) (λ _, True).
Proof.
  intros Hs Hp st Hst. pose proof Hst as (Hlen & _).
  destruct (add_parent_effect st self p) as (st' & Hrun & Hadd);
    [lia | lia |].
  rewrite Hrun. split; [|trivial].
  exact (well_linked_edge_added st st' p self Hst Hp Hs Hadd).
Qed.

Lemma keeps_add_child self c :
  self < N → c < N → keeps N names (add_child self c) (λ _, True).
Proof.
  intros Hs Hp st Hst. pose proof Hst as (Hlen & _).
  destruct (add_child_effect st self c) as (st' & Hrun & Hadd);
    [lia | lia |].
  rewrite Hrun. split; [|trivial].
  exact (well_linked_edge_added st st' self c Hst Hs Hp Hadd).
Qed.

Lemma keeps_remove_child self oc :
  self < N → (∀ c, oc = Some c → c < N) →
  keeps N names (remove_child self oc) (λ _, True).
Proof.
  intros Hs Hoc st Hst. destruct oc as [c|]; [|split; [exact Hst | trivial]].
  pose proof Hst as (Hlen & _ & _ & Hpair).
  destruct (remove_child_effect st self c Hpair) as
    [(_ & st' & Hrun & Hrem) | (_ & Hrun)];
    [lia | rewrite <- Hlen in Hoc; apply Hoc; reflexivity | |];
    rewrite Hrun; (split; [|trivial]).
  - eapply well_linked_edge_removed; eassumption.
  - exact Hst.
Qed.

Lemma keeps_set_primary_key t pk :
  keeps N names (set_primary_key t pk) (λ _, True).
Proof.
  intros st Hst. split; [|trivial].
  destruct (heap st !! t) as [n|] eqn:Ht.
  - destruct (cls n) as [| |k|] eqn:Hcls.
    1,2,4: unfold set_primary_key;
      rewrite (bind_ok _ _ _ _ _ (load_ok _ _ _ Ht)), Hcls; exact Hst.
    destruct (set_primary_key_effect st t pk) as
      (st' & Hrun & _ & (Hlen & Hnm & _) & Hk & Hp);
      [exists n, k; auto|].
    rewrite Hrun. apply (well_linked_views st st' Hst Hlen Hnm).
    + intros a x. rewrite Hk. auto.
    + intros a x. rewrite Hp. auto.
    + eapply paired_ext; [exact Hk | exact Hp | apply Hst].
  - unfold set_primary_key, load. rewrite bind_run, Ht. exact Hst.
Qed.

Lemma keeps_for_each {X} (l : list X) (body : X → M unit) :
  (∀ x, keeps N names (body x) (λ _, True)) →
  keeps N names (for_each l body) (λ _, True).
Proof.
  intros Hb. induction l as [|x l IH]; simpl.
  - apply keeps_ret. trivial.
  - eapply keeps_bind; [apply Hb|]. intros _ _. exact IH.
Qed.

Lemma keeps_for_live fuel read i body :
  keeps N names read (Forall (λ x, x < N)) →
  (∀ x, x < N → keeps N names (body x) (λ _, True)) →
  keeps N names (for_live fuel read i body) (λ _, True).
Proof.
  intros Hr Hb. revert i. induction fuel as [|fuel IH]; intros i; simpl.
  - apply keeps_starve.
  - eapply keeps_bind; [exact Hr|]. intros l Hl.
    destruct (l !! i) as [x|] eqn:Hx; [|apply keeps_ret; trivial].
    eapply keeps_bind; [|intros _ _; apply IH].
    apply Hb. rewrite Forall_forall in Hl. apply Hl.
    eapply list_elem_of_lookup_2. exact Hx.
Qed.

Lemma keeps_reparent pk fk parent :
  pk < N → fk < N → parent < N →
  keeps N names (reparent pk fk parent) (λ _, True).
Proof.
  intros Hpk Hfk Hpar. unfold reparent.
  eapply keeps_bind; [apply keeps_load|]. intros n _.
  destruct (mem_addr parent (parents n)); [apply keeps_ret; trivial|].
  eapply keeps_bind; [apply keeps_add_parent; assumption|]. intros _ _.
  eapply keeps_bind; [|intros _ _; apply keeps_ret; trivial].
  apply keeps_remove_child; [assumption|]. intros c [= <-]. assumption.
Qed.

Lemma keeps_gettext row k : keeps N names (gettext row k) (λ _, True).
Proof.
  apply keeps_reads. intros st. unfold gettext, getitem.
  destruct (row_get row k) as [[s|z]|]; reflexivity.
Qed.

Lemma keeps_gettext_state row k st : (gettext row k st).2 = st.
Proof.
  unfold gettext, getitem. destruct (row_get row k) as [[s|z]|]; reflexivity.
Qed.

Lemma keeps_web_constraint fuel d X row :
  keeps N names (web_constraint fuel d X row) (λ _, True).
Proof.
  unfold web_constraint.
  eapply keeps_bind; [apply keeps_gettext|]. intros c _.
  eapply keeps_bind; [apply keeps_get_child|]. intros opk Hopk.
  eapply keeps_bind; [apply keeps_gettext|]. intros tname _.
  eapply keeps_bind; [apply keeps_get_child|]. intros ort Hort.
  eapply keeps_bind; [apply keeps_deref; exact Hort|]. intros rt Hrt.
  eapply keeps_bind; [apply keeps_gettext|]. intros c' _.
  eapply keeps_bind; [apply keeps_get_child|]. intros ofk Hofk.
  eapply keeps_bind; [apply keeps_deref; exact Hopk|]. intros pk Hpk.
  eapply keeps_bind; [apply keeps_add_parent; assumption|]. intros _ _.
  eapply keeps_bind;
    [apply keeps_reads, reads_only_get_primary_key|]. intros rpk _.
  eapply keeps_bind.
  { destruct (decide (ofk = rpk));
      [apply keeps_set_primary_key | apply keeps_ret; trivial]. }
  intros _ _.
  eapply keeps_bind; [apply keeps_deref; exact Hofk|]. intros fk Hfk.
  eapply keeps_bind.
  { apply keeps_for_live; [apply keeps_read_parents|].
    intros x Hx. apply keeps_reparent; assumption. }
  intros _ _.
  eapply keeps_bind; [|intros _ _; apply keeps_ret; trivial].
  apply keeps_remove_child; assumption.
Qed.

Lemma keeps_webs fuel hd d :
  keeps N names (setup_db_tree_webs fuel hd d) (λ _, True).
Proof.
  unfold setup_db_tree_webs.
  apply keeps_for_live; [apply keeps_read_children|]. intros X _.
  unfold web_table.
  eapply keeps_bind; [apply keeps_load|]. intros t _.
  eapply keeps_bind; [apply keeps_execute_query|]. intros rows _.
  apply keeps_for_each. intros row. apply keeps_web_constraint.
Qed.

End keeping.

Lemma only_groups_reads {A} (m : M A) : reads_only m → only_groups m.
Proof. intros Hm st. rewrite Hm. reflexivity. Qed.

Lemma only_groups_bind {A B} (m : M A) (f : A → M B) :
  only_groups m → (∀ a, only_groups (f a)) → only_groups (m ≫= f).
Proof.
  intros Hm Hf st. rewrite bind_run. specialize (Hm st).
  destruct (m st) as [[a|e|] st']; simpl in *; [|exact Hm..].
  rewrite Hf. exact Hm.
Qed.

Lemma only_groups_for_each {X} (l : list X) (body : X → M unit) :
  (∀ x, only_groups (body x)) → only_groups (for_each l body).
Proof.
  intros Hb. induction l as [|x l IH]; simpl.
  - apply only_groups_reads, reads_only_ret.
  - apply only_groups_bind; [apply Hb | intros _; exact IH].
Qed.

Lemma only_groups_set_group c g : only_groups (set_group c g).
Proof.
  intros st. unfold set_group, load. rewrite bind_run.
  destruct (heap st !! c) as [n|] eqn:Hc; [|reflexivity].
  destruct n as [i ps cs k]. destruct k as [| |pk|ty nl key g0];
    [reflexivity..|].
  cbn [cls store snd heap]. rewrite list_fmap_insert.
  apply list_insert_id. rewrite list_lookup_fmap, Hc. reflexivity.
Qed.

Lemma reads_only_sized_type c : reads_only (sized_type c).
Proof.
  unfold sized_type. apply reads_only_bind; [apply reads_only_parse_type|].
  intros ty. destruct (decide (ty = "varchar")); [|apply reads_only_ret].
  apply reads_only_bind; [apply reads_only_get_type|]. intros raw.
  apply reads_only_bind; [apply reads_only_deref|]. intros raw'.
  destruct (first_digits raw') as [ds|]; [|apply reads_only_raise].
  destruct (int_of_digits 0 ds <=? 15)%Z; apply reads_only_ret.
Qed.

Lemma only_groups_group_column hd t c : only_groups (group_column hd t c).
Proof.
  unfold group_column.
  apply only_groups_bind; [apply only_groups_reads, reads_only_sized_type|].
  intros ty. apply only_groups_bind.
  { destruct (mem_str ty str_sets); [apply only_groups_set_group|].
    destruct (mem_str ty num_sets); [apply only_groups_set_group|].
    apply only_groups_reads, reads_only_ret. }
  intros _. destruct (mem_str ty limited_sets);
    [|apply only_groups_reads, reads_only_ret].
  apply only_groups_bind; [apply only_groups_reads, reads_only_load|].
  intros cn.
  apply only_groups_bind; [apply only_groups_reads, reads_only_load|].
  intros tn. apply only_groups_bind; [intros st; reflexivity|].
  intros [|r rows]; [apply only_groups_reads, reads_only_raise|].
  apply only_groups_bind; [apply only_groups_reads, reads_only_load|].
  intros cn'. apply only_groups_bind.
  { apply only_groups_reads. intros st. unfold getitem.
    destruct (row_get r _); reflexivity. }
  intros [s|z]; [apply only_groups_reads, reads_only_raise|].
  destruct (z <? 150)%Z;
    [apply only_groups_set_group | apply only_groups_reads, reads_only_ret].
Qed.

Lemma ungrouped_views h h' :
  ungrouped <$> h' = ungrouped <$> h →
  length h' = length h ∧
  (∀ a, name_of h' a = name_of h a) ∧
  (∀ a, kids h' a = kids h a) ∧ (∀ a, pars h' a = pars h a) ∧
  (∀ a, primary_key_of h' a = primary_key_of h a).
Proof.
  intros Heq.
  assert (Hl : ∀ a, ungrouped <$> h' !! a = ungrouped <$> h !! a).
  { intros a. rewrite <- !list_lookup_fmap, Heq. reflexivity. }
  split.
  { rewrite <- (length_fmap ungrouped h'), Heq. apply length_fmap. }
  repeat split; intros a; specialize (Hl a);
    unfold name_of, kids, pars, primary_key_of;
    destruct (h' !! a) as [[i' ps' cs' []]|], (h !! a) as [[i ps cs []]|];
    simpl in Hl; try discriminate; try reflexivity;
    injection Hl; intros; subst; reflexivity.
Qed.

Lemma keeps_only_groups {A} N names (m : M A) :
  only_groups m → keeps N names m (λ _, True).
Proof.
  intros Hm st Hst. split; [|trivial].
  destruct (ungrouped_views _ _ (Hm st)) as (Hlen & Hnm & Hk & Hp & _).
  apply (well_linked_views N names st _ Hst Hlen Hnm).
  - intros a x. rewrite Hk. auto.
  - intros a x. rewrite Hp. auto.
  - eapply paired_ext; [exact Hk | exact Hp | apply Hst].
Qed.

(** X16: whatever the server answers and however it ends, returning,
    raising or running out of steps, [setup_db_tree_webs] creates no object,
    changes no id, leaves every reference designating an object and every
    edge listed as often on its child's side as on its parent's. *)
Theorem webs_keeps_graph_linked (fuel : nat) (hd : MySQLConnectionHandler)
    (d : addr) (st : state) :
  closed (heap st) → paired (heap st) →
  let st' := (setup_db_tree_webs fuel hd d st).2 in
  length (heap st') = length (heap st) ∧
  (∀ a, name_of (heap st') a = name_of (heap st) a) ∧
  closed (heap st') ∧ paired (heap st').
Proof.
  intros Hc Hp.
  destruct (keeps_webs (length (heap st)) (name_of (heap st)) fuel hd d st)
    as [Hst' _]; [|exact Hst'].
  split; [reflexivity|]. split; [reflexivity|]. split; assumption.
Qed.

(** X17: whatever the server answers and however it ends,
    [setup_grouping_options] changes nothing of the store but group
    attributes of columns: the objects, their ids, edges, types and primary
    keys are as before. *)
Theorem grouping_changes_only_groups (hd : MySQLConnectionHandler)
    (d : addr) (st : state) :
  let st' := (setup_grouping_options hd d st).2 in
  ungrouped <$> heap st' = ungrouped <$> heap st ∧
  length (heap st') = length (heap st) ∧
  (∀ a, name_of (heap st') a = name_of (heap st) a) ∧
  (∀ a, kids (heap st') a = kids (heap st) a) ∧
  (∀ a, pars (heap st') a = pars (heap st) a) ∧
  (∀ a, primary_key_of (heap st') a = primary_key_of (heap st) a).
Proof.
  assert (Hg : only_groups (setup_grouping_options hd d)).
  { unfold setup_grouping_options.
    apply only_groups_bind; [apply only_groups_reads, reads_only_load|].
    intros dn. apply only_groups_for_each. intros t. unfold group_table.
    apply only_groups_bind; [apply only_groups_reads, reads_only_load|].
    intros tn. apply only_groups_for_each. intros c.
    apply only_groups_group_column. }
  cbn zeta. split; [apply Hg|]. apply ungrouped_views, Hg.
Qed.

Lemma grown_refl N names st : well_linked N names st → grown N names st.
Proof. intros Hst. exists N, names. split; [exact Hst|]. split; auto. Qed.

Lemma grown_trans N names N1 names1 st :
  N ≤ N1 → (∀ a, a < N → names1 a = names a) →
  grown N1 names1 st → grown N names st.
Proof.
  intros Hle Hnm (N2 & names2 & Hst & Hle2 & Hnm2).
  exists N2, names2. split; [exact Hst|]. split; [lia|].
  intros a Ha. rewrite Hnm2 by lia. apply Hnm, Ha.
Qed.

Lemma grown_then {A B} (m : M A) (f : A → M B) N names st :
  grown N names (m st).2 →
  (∀ a N1 names1 st1,
     m st = (Ok a, st1) → N ≤ N1 → (∀ x, x < N → names1 x = names x) →
     well_linked N1 names1 st1 → grown N1 names1 (f a st1).2) →
  grown N names ((m ≫= f) st).2.
Proof.
  intros Hm Hf. rewrite bind_run.
  destruct (m st) as [[a|e|] st1] eqn:Hrun; simpl in *; [|exact Hm..].
  destruct Hm as (N1 & names1 & Hst1 & Hle & Hnm).
  eapply grown_trans; [exact Hle | exact Hnm |].
  eapply Hf; try eassumption. reflexivity.
Qed.

Lemma keeps_grown {A} N names (m : M A) (Q : A → Prop) st :
  keeps N names m Q → well_linked N names st → grown N names (m st).2.
Proof. intros Hm Hst. apply grown_refl, Hm, Hst. Qed.

Lemma alloc_grown N names n st :
  parents n = [] → children n = [] → well_linked N names st →
  alloc n st = (Ok N, (alloc n st).2) ∧
  well_linked (S N)
    (λ a, if decide (a = N) then Some (id n) else names a) (alloc n st).2.
Proof.
  intros Hp Hk (Hlen & Hnm & Hc & Hpair). split.
  { unfold alloc. rewrite Hlen. reflexivity. }
  destruct (alloc_effect st n Hp Hk) as (st' & Hrun & _ & Hheap & Hks & Hps).
  rewrite Hrun. cbn [snd]. split; [rewrite Hheap, length_app; simpl; lia|].
  split; [|split].
  - intros a. rewrite Hheap. unfold name_of.
    destruct (decide (a = N)) as [->|Hne].
    + rewrite lookup_app_r by lia. rewrite Hlen, Nat.sub_diag. reflexivity.
    + rewrite <- Hnm. unfold name_of.
      destruct (decide (a < N)) as [Hlt|Hge].
      * rewrite lookup_app_l by lia. reflexivity.
      * rewrite !lookup_ge_None_2; [reflexivity | lia |].
        rewrite length_app. simpl. lia.
  - apply closed_views. intros a x Hx. rewrite Hks, Hps in Hx.
    rewrite Hheap, length_app. simpl.
    pose proof (proj1 (closed_views _) Hc a x Hx). lia.
  - eapply paired_ext; [exact Hks | exact Hps | exact Hpair].
Qed.

Lemma alloc_then_grown {B} N names n (k : addr → M B) st :
  parents n = [] → children n = [] → well_linked N names st →
  (∀ names1 st1, (∀ x, x < N → names1 x = names x) →
     well_linked (S N) names1 st1 → grown (S N) names1 (k N st1).2) →
  grown N names ((alloc n ≫= k) st).2.
Proof.
  intros Hp Hk Hst Hrest.
  destruct (alloc_grown N names n st Hp Hk Hst) as [Hrun Hst1].
  rewrite (bind_ok _ _ _ _ _ Hrun).
  eapply grown_trans; [| |apply Hrest; [|exact Hst1]].
  - lia.
  - intros a Ha. cbv beta. destruct (decide (a = N)); [lia | reflexivity].
  - intros a Ha. cbv beta. destruct (decide (a = N)); [lia | reflexivity].
Qed.

Lemma for_each_grown {X} (l : list X) (body : X → M unit) (o : addr) :
  (∀ x N names st, o < N → well_linked N names st →
     grown N names (body x st).2) →
  ∀ N names st, o < N → well_linked N names st →
    grown N names (for_each l body st).2.
Proof.
  intros Hb. induction l as [|x l IH]; intros N names st Ho Hst; simpl.
  - apply grown_refl, Hst.
  - apply grown_then; [apply Hb; assumption|].
    intros _ N1 names1 st1 _ Hle _ Hst1. apply IH; [lia | exact Hst1].
Qed.

Lemma reads_then_grown {A B} (m : M A) (f : A → M B) N names st :
  reads_only m → well_linked N names st →
  (∀ a, grown N names (f a st).2) →
  grown N names ((m ≫= f) st).2.
Proof.
  intros Hm Hst Hf. rewrite bind_run. specialize (Hm st).
  destruct (m st) as [[a|e|] st0]; simpl in Hm; subst st0;
    [apply Hf | apply grown_refl, Hst..].
Qed.

Lemma reads_only_getitem row k : reads_only (getitem row k).
Proof. intros st. unfold getitem. destruct (row_get row k); reflexivity. Qed.

Lemma reads_only_gettext row k : reads_only (gettext row k).
Proof. intros st. apply keeps_gettext_state. Qed.

Lemma leaf_column_grown t row N names st :
  t < N → well_linked N names st → grown N names (leaf_column t row st).2.
Proof.
  intros Ht Hst. unfold leaf_column.
  apply reads_then_grown; [apply reads_only_getitem | exact Hst|]. intros nl.
  apply reads_then_grown; [apply reads_only_gettext | exact Hst|]. intros fd.
  apply reads_then_grown; [apply reads_only_gettext | exact Hst|]. intros ty.
  apply reads_then_grown; [apply reads_only_gettext | exact Hst|]. intros key.
  apply alloc_then_grown; [reflexivity | reflexivity | exact Hst|].
  intros names1 st1 _ Hst1. eapply keeps_grown; [|exact Hst1].
  eapply keeps_bind; [apply keeps_add_child; lia|]. intros _ _.
  destruct (decide (key = "PRI"));
    [apply keeps_set_primary_key | apply keeps_ret; exact I].
Qed.

Lemma leaf_table_grown hd d row N names st :
  d < N → well_linked N names st → grown N names (leaf_table hd d row st).2.
Proof.
  intros Hd Hst. unfold leaf_table.
  apply reads_then_grown; [apply reads_only_gettext | exact Hst|]. intros name.
  apply alloc_then_grown; [reflexivity | reflexivity | exact Hst|].
  intros names1 st1 _ Hst1.
  apply grown_then.
  { eapply keeps_grown; [apply keeps_add_child; lia | exact Hst1]. }
  intros _ N2 names2 st2 _ Hle2 _ Hst2.
  apply grown_then.
  { eapply keeps_grown; [apply keeps_execute_query | exact Hst2]. }
  intros rows N3 names3 st3 _ Hle3 _ Hst3.
  apply (for_each_grown rows (leaf_column N) N); [|lia | exact Hst3].
  intros x N4 names4 st4 H4 Hst4. apply leaf_column_grown; assumption.
Qed.

Lemma leaves_grown hd d N names st :
  d < N → well_linked N names st →
  grown N names (setup_db_tree_leaves hd d st).2.
Proof.
  intros Hd Hst. unfold setup_db_tree_leaves.
  apply grown_then.
  { eapply keeps_grown; [apply keeps_execute_query | exact Hst]. }
  intros rows N1 names1 st1 _ Hle1 _ Hst1.
  apply (for_each_grown rows (leaf_table hd d) d); [|lia | exact Hst1].
  intros x N2 names2 st2 H2 Hst2. apply leaf_table_grown; assumption.
Qed.

(** X18: whatever the server answers and however it ends,
    [DatabaseTree.__init__] leaves a store in which every reference
    designates an object and every edge is listed as often on its child's
    side as on its parent's; the objects that were there are still there
    under their ids. *)
Theorem init_keeps_graph_linked (fuel : nat) (hd : MySQLConnectionHandler)
    (st : state) :
  closed (heap st) → paired (heap st) →
  let st' := (DatabaseTree_init fuel hd st).2 in
  closed (heap st') ∧ paired (heap st') ∧
  length (heap st) ≤ length (heap st') ∧
  ∀ a, a < length (heap st) → name_of (heap st') a = name_of (heap st) a.
Proof.
  intros Hc Hp. cbn zeta.
  assert (Hst : well_linked (length (heap st)) (name_of (heap st)) st).
  { split; [reflexivity|]. split; [reflexivity|]. split; assumption. }
  assert (Hg : grown (length (heap st)) (name_of (heap st))
                 (DatabaseTree_init fuel hd st).2).
  { unfold DatabaseTree_init, new_DatabaseNode.
    apply alloc_then_grown; [reflexivity | reflexivity | exact Hst|].
    intros names1 st1 _ Hst1.
    apply grown_then; [apply leaves_grown; [lia | exact Hst1]|].
    intros _ N2 names2 st2 _ _ _ Hst2.
    eapply (keeps_grown _ _ _ (λ _, True)); [|exact Hst2].
    eapply keeps_bind; [apply keeps_webs|]. intros _ _.
    eapply keeps_bind; [|intros _ _; apply keeps_ret; exact I].
    apply keeps_only_groups. unfold setup_grouping_options.
    apply only_groups_bind; [apply only_groups_reads, reads_only_load|].
    intros dn. apply only_groups_for_each. intros t. unfold group_table.
    apply only_groups_bind; [apply only_groups_reads, reads_only_load|].
    intros tn. apply only_groups_for_each. intros c.
    apply only_groups_group_column. }
  destruct Hg as (N' & names' & (Hlen & Hnm & Hc' & Hp') & Hle & Hold).
  split; [exact Hc'|]. split; [exact Hp'|]. split; [lia|].
  intros a Ha. rewrite Hnm. apply Hold, Ha.
Qed.

(** ** Columns made by hand *)

Lemma closed_alloc st n :
  parents n = [] → children n = [] → closed (heap st) →
  closed (heap (alloc n st).2).
Proof.
  intros Hp Hk Hc.
  destruct (alloc_effect st n Hp Hk) as (st' & Hrun & _ & Hheap & Hks & Hps).
  rewrite Hrun. cbn [snd]. apply closed_views. intros a x Hx.
  rewrite Hks, Hps in Hx. rewrite Hheap, length_app. simpl.
  pose proof (proj1 (closed_views _) Hc a x Hx). lia.
Qed.

(** X19: [create_column] returns a new column the table finds under its
    id, owned by the table alone and without a type: [parse_type] and
    [show_info] raise AttributeError on it, and so does the classifier. *)
Theorem create_column_untyped (hd : MySQLConnectionHandler) (st : state)
    (t : addr) (w : string) :
  closed (heap st) → is_Some (heap st !! t) →
  ∃ st',
    create_column t w st = (Ok (length (heap st)), st') ∧
    heap st' !! length (heap st) =
      Some (mkNode w [t] [] (ColumnNode None None None "Undefined")) ∧
    kids (heap st') t = kids (heap st) t ++ [length (heap st)] ∧
    get_column t w st' = (Ok (Some (length (heap st))), st') ∧
    parse_type (length (heap st)) st' = (Raise AttributeError, st') ∧
    show_info (length (heap st)) st' = (Raise AttributeError, st') ∧
    group_column hd t (length (heap st)) st' = (Raise AttributeError, st').
Proof.
  intros Hc [tn Ht]. set (c := length (heap st)).
  assert (Hcdef : c = length (heap st)) by reflexivity.
  set (n := mkNode w [] [] (ColumnNode None None None "Undefined")).
  pose proof (lookup_lt_Some _ _ _ Ht) as Ht_lt.
  destruct (alloc_effect st n eq_refl eq_refl)
    as (st1 & Hrun1 & _ & Hheap1 & Hk1 & Hp1).
  pose proof (closed_alloc st n eq_refl eq_refl Hc) as Hc1.
  rewrite Hrun1 in Hc1. cbn [snd] in Hc1.
  assert (Hlen1 : length (heap st1) = S c).
  { rewrite Hheap1, length_app. simpl. lia. }
  destruct (add_child_effect st1 t c) as (st' & Hrun & Hadd); [lia..|].
  pose proof (closed_edge_added st1 st' t c Hc1 ltac:(lia) ltac:(lia) Hadd) as Hc'.
  pose proof Hadd as ((_ & Hlen' & Hlab) & Hk & Hp).
  assert (Hnode : heap st' !! c =
            Some (mkNode w [t] [] (ColumnNode None None None "Undefined"))).
  { specialize (Hlab c). specialize (Hk c). specialize (Hp c).
    assert (Hne : c ≠ t) by lia.
    destruct (decide (c = t)); [contradiction|].
    destruct (decide (c = c)); [|congruence].
    rewrite Hp1 in Hp. unfold label, kids, pars in *.
    assert (H1 : heap st1 !! c = Some n).
    { rewrite Hheap1, lookup_app_r by lia.
      rewrite Hcdef, Nat.sub_diag. reflexivity. }
    rewrite H1 in Hlab, Hk.
    rewrite (lookup_ge_None_2 (heap st) c) in Hp by lia.
    destruct (heap st' !! c) as [[i ps cs k]|]; [|discriminate].
    simpl in *. injection Hlab as -> ->. subst ps cs. reflexivity. }
  assert (Hname : name_of (heap st') c = Some w).
  { unfold name_of. rewrite Hnode. reflexivity. }
  assert (Ht' : is_Some (heap st' !! t)).
  { apply lookup_lt_is_Some_2. lia. }
  destruct Ht' as [tn' Ht'].
  assert (Hparse : parse_type c st' = (Raise AttributeError, st')).
  { unfold parse_type.
    rewrite (bind_ok _ _ _ _ _
               (get_type_run st' c _ None None None "Undefined" Hnode eq_refl)).
    reflexivity. }
  exists st'. split.
  { rewrite create_column_as_add_child. unfold new_ColumnNode. fold n.
    rewrite (bind_ok _ _ _ _ _ Hrun1).
    rewrite (bind_ok _ _ _ _ _ Hrun). reflexivity. }
  split; [exact Hnode|]. split.
  { rewrite Hk. destruct (decide (t = t)); [|congruence].
    rewrite Hk1. reflexivity. }
  split.
  { unfold get_column. rewrite (get_child_run _ _ _ w Hc' Ht').
    unfold resolve. rewrite Hk. destruct (decide (t = t)); [|congruence].
    rewrite lookup_id_snoc_hit by exact Hname. reflexivity. }
  split; [exact Hparse|]. split.
  - unfold show_info. rewrite (bind_ok _ _ _ _ _ (load_ok _ _ _ Hnode)).
    apply bind_raise, Hparse.
  - unfold group_column. apply bind_raise. unfold sized_type.
    apply bind_raise, Hparse.
Qed.

(** ** The leaves of a table *)

Lemma parents_append_run h s o n x :
  h !! o = Some n →
  parents_append o x (mkState h s) =
  (Ok tt, mkState (<[o := set_parents n (parents n ++ [x])]> h) s).
Proof.
  intros Ho. unfold parents_append.
  rewrite (bind_ok _ _ _ _ _ (load_ok (mkState h s) o n Ho)). reflexivity.
Qed.

Lemma children_append_run h s o n x :
  h !! o = Some n →
  children_append o x (mkState h s) =
  (Ok tt, mkState (<[o := set_children n (children n ++ [x])]> h) s).
Proof.
  intros Ho. unfold children_append.
  rewrite (bind_ok _ _ _ _ _ (load_ok (mkState h s) o n Ho)). reflexivity.
Qed.

Lemma add_child_fresh_run h s o n c :
  h !! o = Some n →
  add_child o (length h) (mkState (h ++ [c]) s) =
  (Ok tt,
   mkState (<[o := set_children n (children n ++ [length h])]> h
            ++ [set_parents c (parents c ++ [o])]) s).
Proof.
  intros Ho. pose proof (lookup_lt_Some _ _ _ Ho) as Hlt.
  unfold add_child.
  rewrite (bind_ok _ _ _ _ _ (parents_append_run (h ++ [c]) s (length h) c o
             ltac:(rewrite lookup_app_r, Nat.sub_diag by lia; reflexivity))).
  rewrite insert_app_r_alt, Nat.sub_diag by lia. cbn [insert list_insert].
  rewrite (children_append_run (h ++ [_]) s o n (length h)
             ltac:(rewrite lookup_app_l by lia; exact Ho)).
  rewrite insert_app_l by lia. reflexivity.
Qed.

Lemma set_primary_key_run h s t n pk0 pk :
  h !! t = Some n → cls n = TableNode pk0 →
  set_primary_key t pk (mkState h s) =
  (Ok tt, mkState (<[t := set_cls n (TableNode pk)]> h) s).
Proof.
  intros Ht Hcls. unfold set_primary_key.
  rewrite (bind_ok _ _ _ _ _ (load_ok (mkState h s) t n Ht)), Hcls.
  reflexivity.
Qed.

Lemma text_of_row r k s : row_text r k = Some s → row_get r k = Some (VStr s).
Proof.
  unfold row_text. destruct (row_get r k) as [[s'|z]|]; congruence.
Qed.

Lemma leaf_column_run h s t tn pk row cn :
  h !! t = Some tn → cls tn = TableNode pk →
  column_of_row t row = Some cn →
  leaf_column t row (mkState h s) =
  (Ok tt,
   mkState
     (<[t := mkNode (id tn) (parents tn) (children tn ++ [length h])
               (TableNode (if decide (primary cn) then Some (length h)
                           else pk))]> h ++ [cn]) s).
Proof.
  intros Ht Hcls Hrow. pose proof (lookup_lt_Some _ _ _ Ht) as Hlt.
  unfold column_of_row in Hrow.
  destruct (row_get row "Null") as [nl|] eqn:Hnl; [|discriminate].
  destruct (row_text row "Field") as [field|] eqn:Hfield; [|discriminate].
  destruct (row_text row "Type") as [ty|] eqn:Hty; [|discriminate].
  destruct (row_text row "Key") as [key|] eqn:Hkey; [|discriminate].
  injection Hrow as <-.
  unfold leaf_column, getitem. rewrite Hnl.
  rewrite (bind_ok (ret nl) _ _ nl _ eq_refl).
  rewrite (bind_ok _ _ _ _ _ (gettext_run _ _ _ _ (text_of_row _ _ _ Hfield))).
  rewrite (bind_ok _ _ _ _ _ (gettext_run _ _ _ _ (text_of_row _ _ _ Hty))).
  rewrite (bind_ok _ _ _ _ _ (gettext_run _ _ _ _ (text_of_row _ _ _ Hkey))).
  unfold new_ColumnNode.
  rewrite (bind_ok (alloc _) _ (mkState h s) (length h) _ eq_refl).
  cbn [heap sent]. unfold add_column.
  rewrite (bind_ok _ _ _ _ _ (add_child_fresh_run h s t tn _ Ht)).
  cbn [set_parents parents id children cls app].
  unfold primary, key_of. cbn [cls].
  destruct (decide (key = "PRI")) as [->|Hne].
  - rewrite decide_True by reflexivity.
    rewrite (set_primary_key_run _ s t
               (set_children tn (children tn ++ [length h])) pk
               (Some (length h))).
    + cbn [set_children set_cls id parents children].
      rewrite insert_app_l by (rewrite length_insert; lia).
      rewrite list_insert_insert_eq. reflexivity.
    + rewrite lookup_app_l by (rewrite length_insert; lia).
      apply list_lookup_insert_eq. lia.
    + exact Hcls.
  - rewrite decide_False by congruence.
    destruct tn as [i ps cs k]. cbn in Hcls. subst k. reflexivity.
Qed.

Lemma leaf_columns_run t rows : ∀ cols h s tn pk,
  h !! t = Some tn → cls tn = TableNode pk →
  mapM (column_of_row t) rows = Some cols →
  for_each rows (leaf_column t) (mkState h s) =
  (Ok tt,
   mkState
     (<[t := mkNode (id tn) (parents tn)
               (children tn ++ seq (length h) (length cols))
               (TableNode (primary_after (length h) cols pk))]> h ++ cols) s).
Proof.
  induction rows as [|row rows IH]; intros cols h s tn pk Ht Hcls Hcols.
  - injection Hcols as <-. cbn [for_each length seq primary_after].
    rewrite !app_nil_r. destruct tn as [i ps cs k]. cbn in Hcls. subst k.
    cbn [id parents children]. rewrite list_insert_id by exact Ht.
    reflexivity.
  - pose proof (lookup_lt_Some _ _ _ Ht) as Hlt.
    cbn in Hcols.
    destruct (column_of_row t row) as [cn|] eqn:Hrow; [|discriminate].
    cbn in Hcols.
    destruct (mapM (column_of_row t) rows) as [cols'|] eqn:Hrest;
      [|discriminate].
    injection Hcols as <-.
    cbn [for_each].
    rewrite (bind_ok _ _ _ _ _ (leaf_column_run h s t tn pk row cn Ht Hcls Hrow)).
    match goal with
    | |- for_each _ _ (mkState (<[t := ?n1]> h ++ [cn]) s) = _ =>
        rewrite (IH cols' (<[t := n1]> h ++ [cn]) s n1
                   (if decide (primary cn) then Some (length h) else pk)
                   ltac:(rewrite lookup_app_l by (rewrite length_insert; lia);
                         apply list_lookup_insert_eq; lia)
                   eq_refl eq_refl)
    end.
    cbn [id parents children length primary_after].
    rewrite insert_app_l by (rewrite length_insert; lia).
    rewrite list_insert_insert_eq.
    rewrite length_app, length_insert. cbn [length].
    replace (length h + 1) with (S (length h)) by lia.
    rewrite <- !app_assoc. reflexivity.
Qed.

Lemma primary_after_spec cols : ∀ c0 pk,
  match primary_after c0 cols pk with
  | Some a =>
      last_primary c0 cols (Some a) ∨
      (pk = Some a ∧ last_primary c0 cols None)
  | None => pk = None ∧ last_primary c0 cols None
  end.
Proof.
  induction cols as [|n cols IH]; intros c0 pk; cbn [primary_after].
  - destruct pk as [a|].
    + right. split; [reflexivity|]. intros n Hn. inversion Hn.
    + split; [reflexivity|]. intros n Hn. inversion Hn.
  - specialize (IH (S c0) (if decide (primary n) then Some c0 else pk)).
    destruct (primary_after (S c0) cols _) as [a|].
    + destruct IH as [(i & n' & -> & Hi & Hpri & Hlast) | [Hpk Hnone]].
      * left. exists (S i), n'. split; [lia|]. split; [exact Hi|].
        split; [exact Hpri|]. intros [|j] n'' Hj Hn''; [lia|].
        apply (Hlast j n''); [lia | exact Hn''].
      * destruct (decide (primary n)) as [Hpri|Hnot].
        -- left. injection Hpk as <-. exists 0, n.
           split; [lia|]. split; [reflexivity|]. split; [exact Hpri|].
           intros [|j] n'' Hj Hn''; [lia|].
           apply Hnone. eapply list_elem_of_lookup_2. exact Hn''.
        -- right. split; [exact Hpk|]. intros n' Hn'.
           apply elem_of_cons in Hn' as [->|Hn']; [exact Hnot | auto].
    + destruct IH as [Hpk Hnone].
      destruct (decide (primary n)) as [Hpri|Hnot]; [discriminate|].
      split; [exact Hpk|]. intros n' Hn'.
      apply elem_of_cons in Hn' as [->|Hn']; [exact Hnot | auto].
Qed.

(** X20: for a row naming a table, when every row the server answers to
    the column statement has the fields Null, Field, Type and Key, the body
    of the loop of [setup_db_tree_leaves] sends that one statement and adds
    after the objects of the store the table, child of the root alone, and
    one column per row in order, each with the row's attributes, group
    Undefined and the table as only parent; the table's primary key is the
    last column whose Key is PRI, and is not set when there is none. *)
Theorem leaf_table_builds (hd : MySQLConnectionHandler) (st : state)
    (d : addr) (dn : Node) (row : row) (name : string) (cols : list Node) :
  heap st !! d = Some dn →
  row_get row "TABLE_NAME" = Some (VStr name) →
  mapM (column_of_row (length (heap st))) (answer hd (column_query name))
    = Some cols →
  ∃ pk,
    leaf_table hd d row st =
    (Ok tt,
     mkState
       (<[d := set_children dn (children dn ++ [length (heap st)])]> (heap st)
        ++ mkNode name [d]
             (seq (S (length (heap st))) (length cols)) (TableNode pk)
        :: cols)
       (sent st ++ [column_query name])) ∧
    last_primary (S (length (heap st))) cols pk.
Proof.
  intros Hd Hname Hcols. destruct st as [h s]. cbn [heap sent] in *.
  pose proof (lookup_lt_Some _ _ _ Hd) as Hlt.
  exists (primary_after (S (length h)) cols None). split.
  - unfold leaf_table.
    rewrite (bind_ok _ _ _ _ _ (gettext_run _ _ _ _ Hname)).
    unfold new_TableNode.
    rewrite (bind_ok (alloc _) _ (mkState h s) (length h) _ eq_refl).
    cbn [heap sent]. unfold add_table.
    rewrite (bind_ok _ _ _ _ _ (add_child_fresh_run h s d dn _ Hd)).
    cbn [set_parents parents id children cls app].
    rewrite (bind_ok (execute_query hd (column_query name)) _ _ _ _ eq_refl).
    cbn [heap sent].
    match goal with
    | |- for_each _ _ (mkState (?h1 ++ [?n1]) ?s1) = _ =>
        rewrite (leaf_columns_run (length h) _ cols (h1 ++ [n1]) s1 n1 None
                   ltac:(rewrite lookup_app_r by (rewrite length_insert; lia);
                         rewrite length_insert, Nat.sub_diag; reflexivity)
                   eq_refl Hcols)
    end.
    cbn [id parents children app].
    rewrite length_app, length_insert. cbn [length].
    replace (length h + 1) with (S (length h)) by lia.
    rewrite insert_app_r_alt by (rewrite length_insert; lia).
    rewrite length_insert, Nat.sub_diag.
    cbn [insert list_insert set_parents id parents children cls app].
    rewrite <- app_assoc. reflexivity.
  - pose proof (primary_after_spec cols (S (length h)) None) as Hspec.
    destruct (primary_after (S (length h)) cols None) as [a|].
    + destruct Hspec as [?|[? _]]; [assumption | discriminate].
    + apply Hspec.
Qed.

(** ** The cardinality probe over the whole tree *)

Lemma ungrouped_lookup (h h' : list Node) (a : addr) (n : Node) :
  ungrouped <$> h' = ungrouped <$> h → h !! a = Some n →
  ∃ n', h' !! a = Some n' ∧ ungrouped n' = ungrouped n.
Proof.
  intros Heq Hn.
  assert (Hl : ungrouped <$> h' !! a = ungrouped <$> h !! a)
    by (rewrite <- !list_lookup_fmap, Heq; reflexivity).
  rewrite Hn in Hl. destruct (h' !! a) as [n'|]; [|discriminate].
  exists n'. split; [reflexivity|]. injection Hl as Hl. exact Hl.
Qed.

Lemma ungrouped_node n n' :
  ungrouped n' = ungrouped n →
  id n' = id n ∧ parents n' = parents n ∧ children n' = children n.
Proof.
  destruct n as [i ps cs []], n' as [i' ps' cs' []]; cbn;
    intros H; try discriminate; injection H; intros; subst; auto.
Qed.

Lemma ungrouped_column n n' ty nl k g :
  ungrouped n' = ungrouped n → cls n = ColumnNode ty nl k g →
  ∃ g', n' = mkNode (id n) (parents n) (children n) (ColumnNode ty nl k g').
Proof.
  destruct n as [i ps cs c], n' as [i' ps' cs' []]; cbn; intros H ->;
    cbn in H; try discriminate.
  injection H; intros; subst. eexists. reflexivity.
Qed.

Lemma type_of_Some h c raw :
  type_of h c = Some raw →
  ∃ n nl k g, h !! c = Some n ∧ cls n = ColumnNode (Some raw) nl k g.
Proof.
  unfold type_of. destruct (h !! c) as [[i ps cs [| | |[ty|] nl k g]]|];
    try discriminate.
  intros [= ->]. eexists _, nl, k, g. split; reflexivity.
Qed.

Lemma group_of_column h c n ty nl k g :
  h !! c = Some n → cls n = ColumnNode ty nl k g → group_of h c = Some g.
Proof.
  intros Hn Hk. unfold group_of. rewrite Hn.
  destruct n as [i ps cs c0]. cbn in Hk. subst c0. reflexivity.
Qed.

Lemma passes_snoc counts c done t c' raw g0 :
  passes counts c (done ++ [(t, c')]) raw g0 =
  if decide (c' = c)
  then classified raw (counts t c) (passes counts c done raw g0)
  else passes counts c done raw g0.
Proof.
  unfold passes. rewrite filter_app, foldl_app.
  rewrite filter_cons, filter_nil. cbn [snd].
  destruct (decide (c' = c)); reflexivity.
Qed.

Lemma group_column_step hd counts d st0 done st1 t c :
  classifiable hd (heap st0) d counts →
  t ∈ kids (heap st0) d → c ∈ kids (heap st0) t →
  classified_through counts st0 done st1 →
  ∃ st2, group_column hd t c st1 = (Ok tt, st2) ∧
         classified_through counts st0 (done ++ [(t, c)]) st2.
Proof.
  intros Hcl Ht Hc (Hsent & Hframe & Hgroups).
  destruct (cl_columns _ _ _ _ Hcl t c Ht Hc) as (raw & Htype & Hne & Hsize).
  destruct (type_of_Some _ _ _ Htype) as (cn0 & nl & k & g0 & Hcn0 & Hk0).
  pose proof (group_of_column _ _ _ _ _ _ _ Hcn0 Hk0) as Hg0.
  destruct (ungrouped_lookup _ _ _ _ Hframe Hcn0) as (cn1 & Hcn1 & Hu1).
  destruct (ungrouped_column _ _ _ _ _ _ Hu1 Hk0) as (g1 & Hshape).
  assert (Hk1 : cls cn1 = ColumnNode (Some raw) nl k g1)
    by (rewrite Hshape; reflexivity).
  assert (Hid1 : id cn1 = id cn0) by (rewrite Hshape; reflexivity).
  assert (Hg1 : g1 = passes counts c done raw g0).
  { pose proof (Hgroups c raw g0 Htype Hg0) as Hg.
    rewrite (group_of_column _ _ _ _ _ _ _ Hcn1 Hk1) in Hg. congruence. }
  destruct (cl_tables _ _ _ _ Hcl t Ht) as [tn0 Htn0].
  destruct (ungrouped_lookup _ _ _ _ Hframe Htn0) as (tn1 & Htn1 & Hut).
  destruct (ungrouped_node _ _ Hut) as (Hidt & _ & _).
  assert (Hname_t : name_of (heap st0) t = Some (id tn0))
    by (unfold name_of; rewrite Htn0; reflexivity).
  assert (Hname_c : name_of (heap st0) c = Some (id cn0))
    by (unfold name_of; rewrite Hcn0; reflexivity).
  eexists. split.
  { apply (group_column_pass hd st1 t c cn1 raw nl k g1 (counts t c)
             Hcn1 Hk1 Hne Hsize).
    intros Hcounted.
    destruct (cl_answers _ _ _ _ Hcl t c (id tn0) (id cn0) raw Ht Hc
                Hname_t Hname_c Htype Hcounted) as (r & rest & Hans & Hrow).
    exists tn1, r, rest. rewrite Hid1, Hidt. auto. }
  split; [|split]; cbn [heap sent].
  - rewrite Hsent, flat_map_app, <- app_assoc. f_equal. cbn [flat_map].
    rewrite app_nil_r. unfold probe_of. cbn [fst snd].
    rewrite Hname_t, Hname_c, Htype, Hid1.
    unfold name_of. rewrite Htn1.
    cbn [fmap option_fmap option_map default]. rewrite Hidt. reflexivity.
  - rewrite list_fmap_insert, <- Hframe. apply list_insert_id.
    rewrite list_lookup_fmap, Hcn1. cbn [fmap option_fmap option_map].
    f_equal. rewrite Hshape. reflexivity.
  - intros c' raw' g0' Htype' Hg0'. rewrite passes_snoc.
    destruct (decide (c = c')) as [<-|Hdiff].
    + assert (raw' = raw) by congruence. assert (g0' = g0) by congruence.
      subst raw' g0'. unfold group_of.
      rewrite list_lookup_insert_eq by (eapply lookup_lt_Some; eassumption).
      rewrite Hg1. reflexivity.
    + unfold group_of. rewrite list_lookup_insert_ne by exact Hdiff.
      apply (Hgroups c' raw' g0' Htype' Hg0').
Qed.

Lemma group_columns_run hd counts d st0 t :
  classifiable hd (heap st0) d counts → t ∈ kids (heap st0) d →
  ∀ cols done st1,
    (∀ c, c ∈ cols → c ∈ kids (heap st0) t) →
    classified_through counts st0 done st1 →
    ∃ st2, for_each cols (group_column hd t) st1 = (Ok tt, st2) ∧
           classified_through counts st0 (done ++ (pair t <$> cols)) st2.
Proof.
  intros Hcl Ht. induction cols as [|c cols IH]; intros done st1 Hin Hinv.
  - exists st1. split; [reflexivity|]. cbn. rewrite app_nil_r. exact Hinv.
  - destruct (group_column_step hd counts d st0 done st1 t c Hcl Ht
                (Hin c ltac:(left)) Hinv) as (st2 & Hrun & Hinv2).
    destruct (IH (done ++ [(t, c)]) st2) as (st3 & Hrun3 & Hinv3).
    + intros c' Hc'. apply Hin. right. exact Hc'.
    + exact Hinv2.
    + exists st3. cbn [for_each].
      rewrite (bind_ok _ _ _ _ _ Hrun). split; [exact Hrun3|].
      rewrite <- app_assoc in Hinv3. exact Hinv3.
Qed.

Lemma group_tables_run hd counts d st0 :
  classifiable hd (heap st0) d counts →
  ∀ tabs done st1,
    (∀ t, t ∈ tabs → t ∈ kids (heap st0) d) →
    classified_through counts st0 done st1 →
    ∃ st2, for_each tabs (group_table hd) st1 = (Ok tt, st2) ∧
           classified_through counts st0
             (done ++ flat_map (λ t, pair t <$> kids (heap st0) t) tabs) st2.
Proof.
  intros Hcl. induction tabs as [|t tabs IH]; intros done st1 Hin Hinv.
  - exists st1. split; [reflexivity|]. cbn. rewrite app_nil_r. exact Hinv.
  - pose proof (Hin t ltac:(left)) as Ht.
    destruct (cl_tables _ _ _ _ Hcl t Ht) as [tn0 Htn0].
    pose proof Hinv as (_ & Hframe & _).
    destruct (ungrouped_lookup _ _ _ _ Hframe Htn0) as (tn1 & Htn1 & Hut).
    destruct (ungrouped_node _ _ Hut) as (_ & _ & Hkids).
    destruct (group_columns_run hd counts d st0 t Hcl Ht (children tn1)
                done st1) as (st2 & Hrun & Hinv2).
    { intros c Hc. rewrite Hkids in Hc.
      rewrite (kids_lookup _ _ _ Htn0). exact Hc. }
    { exact Hinv. }
    destruct (IH (done ++ (pair t <$> children tn1)) st2)
      as (st3 & Hrun3 & Hinv3).
    + intros t' Ht'. apply Hin. right. exact Ht'.
    + exact Hinv2.
    + assert (Hgt : group_table hd t st1 = (Ok tt, st2)).
      { unfold group_table.
        rewrite (bind_ok _ _ _ _ _ (load_ok _ _ _ Htn1)). exact Hrun. }
      exists st3. cbn [for_each]. rewrite (bind_ok _ _ _ _ _ Hgt).
      split; [exact Hrun3|].
      cbn [flat_map]. rewrite (kids_lookup _ _ _ Htn0), <- Hkids, app_assoc.
      exact Hinv3.
Qed.

Lemma base_group_counted raw g :
  counted raw = true →
  base_group raw g = if small_text raw then "str_set" else g.
Proof.
  unfold counted, base_group. destruct (small_text raw) eqn:Hsmall.
  - intros _. unfold small_text in Hsmall.
    apply andb_true_iff in Hsmall as [Hv _].
    apply bool_decide_eq_true in Hv. rewrite Hv. reflexivity.
  - cbn [orb]. intros Hin. apply bool_decide_eq_true in Hin.
    repeat (apply elem_of_cons in Hin as [->|Hin]); [..|inversion Hin];
      reflexivity.
Qed.

(** C8: on a tree whose tables list typed columns, with a server that
    answers every probe, [setup_grouping_options] returns having sent one
    COUNT(DISTINCT column) statement over the table for every listing of a
    counted column (varchar of declared size at most 15, enum, char,
    tinyint) among the children of a table of the root, in the order of the
    tables and of their children, so as many for a column as tables list
    it; nothing but groups changes; the group of a column is that of its
    passes in turn, each giving [limited_set] when the count answered for
    that table is below 150 (zero included) and otherwise the text group to
    a small varchar and the group the pass found to enum, char and tinyint;
    for a counted column listed once this is [limited_set] when the count
    is below 150, and otherwise the text group for a small varchar and the
    group it had for enum, char and tinyint. *)
Theorem grouping_probes (hd : MySQLConnectionHandler) (st : state)
    (d : addr) (counts : addr → addr → Z) :
  classifiable hd (heap st) d counts →
  ∃ st',
    setup_grouping_options hd d st = (Ok tt, st') ∧
    sent st' =
      sent st ++ flat_map (probe_of (heap st)) (listings (heap st) d) ∧
    ungrouped <$> heap st' = ungrouped <$> heap st ∧
    (∀ c raw g0,
       type_of (heap st) c = Some raw → group_of (heap st) c = Some g0 →
       group_of (heap st') c =
       Some (passes counts c (listings (heap st) d) raw g0)) ∧
    (∀ t c raw g0,
       type_of (heap st) c = Some raw → group_of (heap st) c = Some g0 →
       counted raw = true →
       filter (λ p, p.2 = c) (listings (heap st) d) = [(t, c)] →
       group_of (heap st') c =
       Some (if (counts t c <? 150)%Z then "limited_set"
             else if small_text raw then "str_set" else g0)).
Proof.
  intros Hcl. destruct (cl_root _ _ _ _ Hcl) as [dn Hdn].
  destruct (group_tables_run hd counts d st Hcl (children dn) [] st)
    as (st' & Hrun & Hsent & Hframe & Hgroups).
  - intros t Ht. rewrite (kids_lookup _ _ _ Hdn). exact Ht.
  - split; [cbn; rewrite app_nil_r; reflexivity|].
    split; [reflexivity|]. intros c raw g0 _ Hg. exact Hg.
  - cbn [app] in Hsent, Hgroups.
    assert (Hlist : flat_map (λ t, pair t <$> kids (heap st) t) (children dn)
                    = listings (heap st) d)
      by (unfold listings; rewrite (kids_lookup _ _ _ Hdn); reflexivity).
    rewrite Hlist in Hsent, Hgroups.
    exists st'. split.
    { unfold setup_grouping_options.
      rewrite (bind_ok _ _ _ _ _ (load_ok _ _ _ Hdn)). exact Hrun. }
    split; [exact Hsent|]. split; [exact Hframe|]. split; [exact Hgroups|].
    intros t c raw g0 Htype Hg0 Hcounted Hone.
    rewrite (Hgroups c raw g0 Htype Hg0). unfold passes. rewrite Hone.
    cbn [foldl fst]. unfold classified. rewrite Hcounted. cbn [andb].
    rewrite (base_group_counted _ _ Hcounted). reflexivity.
Qed.

(** C8, as worded, fails where a counted column is shared: the key Cluster
    of [cluster], which [gene] references, is counted once over [gene] and
    once over [cluster]. *)
Lemma probes_as_claimed_fails :
  ¬ probes_as_claimed clusters (built_state clusters) 0.
Proof.
  intros Hclaim.
  destruct (Hclaim (setup_grouping_options clusters 0
                      (built_state clusters)).2
              ltac:(vm_compute; reflexivity) 5 "Cluster" "char(2)")
    as (table & r & rest & z & Hone & _).
  - by_compute.
  - vm_compute. reflexivity.
  - vm_compute. reflexivity.
  - vm_compute. reflexivity.
  - apply (f_equal length) in Hone. vm_compute in Hone. discriminate.
Qed.

Ltac cases_of H :=
  vm_compute in H;
  repeat (apply elem_of_cons in H as [->|H]); try solve [inversion H].

Lemma grouping_probes_witness :
  ∃ st',
    setup_grouping_options (actino_with_clusters 0) 0 (built_state actino) =
      (Ok tt, st') ∧
    sent st' = sent (built_state actino) ++ [probe_text "Cluster" "phage"] ∧
    group_of (heap st') 6 = Some "limited_set".
Proof.
  destruct (grouping_probes (actino_with_clusters 0) (built_state actino) 0
              (λ _ _, 0%Z)) as (st' & Hrun & Hsent & _ & Hgroups & _).
  - constructor.
    + allocated.
    + intros t Ht. cases_of Ht; allocated.
    + intros t c Ht Hc. cases_of Ht; cases_of Hc;
        (eexists; split; [vm_compute; reflexivity|]; split;
         [intros Hv; vm_compute in Hv; discriminate
         |intros Hv; vm_compute in Hv; try discriminate;
          eexists; vm_compute; reflexivity]).
    + intros t c table column raw Ht Hc Htable Hcolumn Hraw Hcounted.
      cases_of Ht; cases_of Hc;
        vm_compute in Htable; injection Htable as <-;
        vm_compute in Hcolumn; injection Hcolumn as <-;
        vm_compute in Hraw; injection Hraw as <-;
        vm_compute in Hcounted; try discriminate;
        eexists _, _; split; vm_compute; reflexivity.
  - exists st'. split; [exact Hrun|]. split.
    + rewrite Hsent. f_equal.
    + rewrite (Hgroups 6 "varchar(5)" "Undefined");
        [|vm_compute; reflexivity..]. reflexivity.
Defined.

(** ** The paths find_path finds *)

Lemma hops_from_ends h t hops B :
  hops_from h t hops B →
  ∀ w x pre, name_of h t = Some w →
    ∃ hp, last (pre ++ (w, x) :: hops) = Some hp ∧ name_of h B = Some hp.1.
Proof.
  induction 1 as [t|t l t' tid lid rest B _ _ _ Ht' _ _ IH];
    intros w x pre Hw.
  - exists (w, x). split; [apply last_snoc | exact Hw].
  - destruct (IH tid lid (pre ++ [(w, x)]) Ht') as (hp & Hlast & Hname).
    exists hp. split; [|exact Hname].
    rewrite <- Hlast, <- app_assoc. reflexivity.
Qed.

Lemma linked_candidate h t l :
  paired h → keyed_table h t →
  1 < length (pars h l) → t ∈ pars h l → l ∈ link_candidates h t.
Proof.
  intros Hp (n & pk & Hn & Hcls & _) Hlen Hin.
  unfold link_candidates. rewrite (primary_key_of_table _ _ _ _ Hn Hcls).
  assert (Hkid : l ∈ kids h t).
  { apply list_elem_of_In, (count_occ_In Nat.eq_dec). rewrite Hp.
    apply (count_occ_In Nat.eq_dec), list_elem_of_In, Hin. }
  destruct (decide (l = pk)) as [->|Hne].
  - rewrite decide_True by exact Hlen. left.
  - assert (Hfk : l ∈ filter (foreign_key_role h (Some pk)) (kids h t)).
    { apply (list_elem_of_filter (foreign_key_role h (Some pk))).
      split; [|exact Hkid]. split; [congruence | exact Hlen]. }
    destruct (decide (1 < length (pars h pk))); [right|]; exact Hfk.
Qed.

Lemma walk_tables_hit recur curr B p prev st link ln tables :
  heap st !! link = Some ln → is_Some (heap st !! B) →
  Forall (λ t, is_Some (heap st !! t)) tables →
  (∀ t tn, t ∈ tables → heap st !! t = Some tn → id tn ∉ prev → t ≠ curr →
     ∃ r, recur t (Some (p ++ [(id tn, id ln)])) st = (Ok r, st) ∧
          ∀ q, r = Some q →
            ∃ hops, q = (p ++ [(id tn, id ln)]) ++ hops ∧
                    hops_from (heap st) t hops B) →
  (∃ t tn q, t ∈ tables ∧ heap st !! t = Some tn ∧ (id tn ∉ prev) ∧
             t ≠ curr ∧
             recur t (Some (p ++ [(id tn, id ln)])) st = (Ok (Some q), st)) →
  ∃ q, walk_tables recur curr B p prev link tables st = (Ok (Some q), st).
Proof.
  intros Hl [bn HB] Hall Hrec. induction Hall as [|t tables [tn Ht] _ IH];
    intros (t0 & tn0 & q0 & Hin0 & Ht0 & Hnew0 & Hne0 & Hrun0).
  { inversion Hin0. }
  assert (Htail : t0 ≠ t →
            ∃ q, walk_tables recur curr B p prev link tables st
                 = (Ok (Some q), st)).
  { intros Hdiff. apply IH.
    - intros t' tn' Hin. apply Hrec. right. exact Hin.
    - exists t0, tn0, q0. apply elem_of_cons in Hin0 as [?|Hin0];
        [contradiction|]. repeat split; assumption. }
  assert (Hsame : t0 = t → tn0 = tn) by (intros ->; congruence).
  cbn [walk_tables]. rewrite (bind_ok _ _ _ _ _ (load_ok _ _ _ Ht)).
  destruct (decide (id tn ∈ prev)) as [Hin|Hnot].
  { rewrite (mem_str_true _ _ Hin). apply Htail. intros Heq.
    rewrite (Hsame Heq) in Hnew0. contradiction. }
  rewrite (mem_str_false _ _ Hnot). cbn [negb andb].
  destruct (decide (t = curr)) as [Heq|Hne].
  { rewrite bool_decide_eq_true_2 by exact Heq. apply Htail. congruence. }
  rewrite bool_decide_eq_false_2 by exact Hne. cbn [negb].
  rewrite (bind_ok _ _ _ _ _ (load_ok _ _ _ Hl)).
  destruct (Hrec t tn ltac:(left) Ht Hnot Hne) as (r & Hrun & Hr).
  rewrite (bind_ok _ _ _ _ _ Hrun).
  destruct r as [q|].
  - destruct (Hr q eq_refl) as (hops & Hq & Hhops).
    destruct (hops_from_ends _ _ _ _ Hhops (id tn) (id ln) p) as
      (hp & Hlast & Hname).
    { unfold name_of. rewrite Ht. reflexivity. }
    rewrite <- app_assoc in Hq. cbn [app] in Hq. rewrite <- Hq in Hlast.
    rewrite Hlast. cbn match.
    rewrite (bind_ok _ _ _ _ _ (load_ok _ _ _ HB)).
    unfold name_of in Hname. rewrite HB in Hname. injection Hname as Hname.
    rewrite decide_True by (symmetry; exact Hname).
    exists q. reflexivity.
  - apply Htail. intros Heq. subst t0. rewrite (Hsame eq_refl) in Hrun0.
    rewrite Hrun in Hrun0. discriminate.
Qed.

Lemma walk_links_hit recur curr B p prev st links :
  closed (heap st) → is_Some (heap st !! B) →
  Forall (λ l, is_Some (heap st !! l)) links →
  (∀ l ln t tn, l ∈ links → heap st !! l = Some ln → t ∈ parents ln →
     heap st !! t = Some tn → id tn ∉ prev → t ≠ curr →
     ∃ r, recur t (Some (p ++ [(id tn, id ln)])) st = (Ok r, st) ∧
          ∀ q, r = Some q →
            ∃ hops, q = (p ++ [(id tn, id ln)]) ++ hops ∧
                    hops_from (heap st) t hops B) →
  (∃ l ln, l ∈ links ∧ heap st !! l = Some ln ∧
     (B ∈ parents ln ∨
      ∃ t tn q, t ∈ parents ln ∧ heap st !! t = Some tn ∧ (id tn ∉ prev) ∧
                t ≠ curr ∧
                recur t (Some (p ++ [(id tn, id ln)])) st
                = (Ok (Some q), st))) →
  ∃ q, walk_links recur curr B p prev links st = (Ok (Some q), st).
Proof.
  intros Hc HB Hall Hrec. induction Hall as [|l links [ln Hl] _ IH];
    intros (l0 & ln0 & Hin0 & Hl0 & Hhit).
  { inversion Hin0. }
  assert (Htail : l0 ≠ l →
            ∃ q, walk_links recur curr B p prev links st
                 = (Ok (Some q), st)).
  { intros Hdiff. apply IH.
    - intros l' ln' t tn Hin. apply Hrec. right. exact Hin.
    - exists l0, ln0. apply elem_of_cons in Hin0 as [?|Hin0];
        [contradiction|]. repeat split; assumption. }
  assert (Hsame : l0 = l → ln0 = ln) by (intros ->; congruence).
  cbn [walk_links]. rewrite (bind_ok _ _ _ _ _ (load_ok _ _ _ Hl)).
  unfold mem_addr. destruct (decide (B ∈ parents ln)) as [Hin|Hnot].
  - rewrite bool_decide_eq_true_2 by exact Hin.
    destruct HB as [bn HB]. rewrite (bind_ok _ _ _ _ _ (load_ok _ _ _ HB)).
    eexists. reflexivity.
  - rewrite bool_decide_eq_false_2 by exact Hnot.
    assert (Hrec' : ∀ t tn, t ∈ parents ln → heap st !! t = Some tn →
              id tn ∉ prev → t ≠ curr →
              ∃ r, recur t (Some (p ++ [(id tn, id ln)])) st = (Ok r, st) ∧
                   ∀ q, r = Some q →
                     ∃ hops, q = (p ++ [(id tn, id ln)]) ++ hops ∧
                             hops_from (heap st) t hops B).
    { intros t tn Hin Ht. eapply Hrec; [left|exact Hl|exact Hin|exact Ht]. }
    destruct (walk_tables_chain recur curr B p prev st l ln (parents ln)
                Hl HB (closed_pars _ _ _ Hc Hl) Hrec') as (r & Hrun & _).
    rewrite (bind_ok _ _ _ _ _ Hrun). destruct r as [q|].
    + exists q. reflexivity.
    + apply Htail. intros Heq. pose proof (Hsame Heq) as Hln. subst l0 ln0.
      destruct Hhit as [?|Hhit]; [contradiction|].
      destruct (walk_tables_hit recur curr B p prev st l ln (parents ln)
                  Hl HB (closed_pars _ _ _ Hc Hl) Hrec' Hhit) as (q & Hq).
      rewrite Hq in Hrun. discriminate.
Qed.

Lemma find_path_route st A B :
  closed (heap st) → paired (heap st) → is_Some (heap st !! B) →
  (∀ t, connected (heap st) A t → keyed_table (heap st) t) →
  ∀ prev curr, route (heap st) B prev curr →
  ∀ fuel p,
    map fst p = prev → connected (heap st) A curr →
    unvisited (heap st) prev < fuel →
    ∃ q, find_path fuel curr B (Some p) st = (Ok (Some q), st).
Proof.
  intros Hc Hp HB Hkeyed prev curr Hroute.
  induction Hroute as [prev t l Hlen Ht HBl
                      |prev t l t' w Hlen Ht Ht' Hne Hw Hnew _ IH];
    intros [|fuel] p Hprev Hconn Hfuel; try lia; subst prev;
    cbn [find_path default];
    (destruct (decide (t = B)) as [->|HneB]; [eexists; reflexivity|]);
    pose proof (Hkeyed t Hconn) as Hk;
    rewrite (bind_ok _ _ _ _ _ (table_links_keyed _ _ Hc Hk));
    pose proof (linked_candidate _ _ _ Hp Hk Hlen Ht) as Hcand;
    destruct (link_candidates_linked _ _ _ Hc Hk Hcand) as ([ln Hln] & _ & _);
    (apply (walk_links_hit (λ t q, find_path fuel t B q) t B p (map fst p) st
              (link_candidates (heap st) t) Hc HB);
     [ apply Forall_forall; intros l' Hl';
       apply (link_candidates_linked _ _ _ Hc Hk Hl')
     | intros l' ln' t0 tn0 Hl' Hln' Hin0 Htn0 Hnot0 Hne0;
       destruct (link_candidates_linked _ _ _ Hc Hk Hl') as (_ & Hlen' & Hcurr');
       apply (find_path_chain st A B Hc HB Hkeyed);
       [ eapply rtc_r; [exact Hconn|]; exists l'; split; [exact Hlen'|];
         split; [exact Hcurr'|]; rewrite (pars_lookup _ _ _ Hln'); exact Hin0
       | rewrite map_app; simpl;
         pose proof (unvisited_extend _ _ _ _ Htn0 Hnot0); lia ]
     | exists l, ln; split; [exact Hcand|]; split; [exact Hln|] ]).
  - left. rewrite <- (pars_lookup _ _ _ Hln). exact HBl.
  - right. apply name_of_Some in Hw as Hw'. destruct Hw' as (tn' & Htn' & <-).
    destruct (IH fuel (p ++ [(id tn', id ln)])) as (q & Hq).
    + rewrite map_app. reflexivity.
    + eapply rtc_r; [exact Hconn|]. exists l. split; [exact Hlen|].
      split; [exact Ht | exact Ht'].
    + pose proof (unvisited_extend _ _ _ _ Htn' Hnew). lia.
    + exists t', tn', q. split.
      { rewrite <- (pars_lookup _ _ _ Hln). exact Ht'. }
      repeat split; assumption.
Qed.

Lemma owns_key_keyed h t : paired h → owns_key h t → keyed_table h t.
Proof.
  intros Hp (n & pk & Hn & Hcls & Hpk & Hshared).
  exists n, pk. repeat split; try assumption.
  intros c Hc. rewrite <- (kids_lookup _ _ _ Hn) in Hc.
  apply list_elem_of_In, (count_occ_In Nat.eq_dec). rewrite <- Hp.
  apply (count_occ_In Nat.eq_dec), list_elem_of_In, Hc.
Qed.

(** X21: on a graph whose references designate objects and whose edges are
    paired, when every table connected to [A] has its primary key set and
    is listed as a parent by that key once the key is shared, and there is
    a route from [A] to [B] through shared columns and tables whose ids are
    new at each hop, [find_path(A, B)] returns a path, and that path is a
    join path from [A] to [B]. *)
Theorem find_path_finds_route (st : state) (A B : addr) (fuel : nat) :
  closed (heap st) → paired (heap st) → is_Some (heap st !! B) →
  (∀ t, connected (heap st) A t → owns_key (heap st) t) →
  route (heap st) B [] A →
  length (heap st) < fuel →
  ∃ q, find_path fuel A B None st = (Ok (Some q), st) ∧
       hops_from (heap st) A q B.
Proof.
  intros Hc Hp HB Howns Hroute Hfuel.
  assert (Hkeyed : ∀ t, connected (heap st) A t → keyed_table (heap st) t)
    by (intros t Ht; apply owns_key_keyed; auto).
  pose proof (unvisited_le (heap st) []) as Hle.
  destruct (find_path_route st A B Hc Hp HB Hkeyed [] A Hroute fuel []
              eq_refl (rtc_refl _ _) ltac:(lia)) as (q & Hq).
  assert (Hnone : find_path fuel A B None st = find_path fuel A B (Some []) st)
    by (destruct fuel; reflexivity).
  exists q. split; [rewrite Hnone; exact Hq|].
  destruct (find_path_chain st A B Hc HB Hkeyed fuel A []
              (rtc_refl _ _) ltac:(simpl; lia)) as (r & Hrun & Hr).
  rewrite Hq in Hrun. injection Hrun as <-.
  destruct (Hr q eq_refl) as (hops & -> & Hhops). exact Hhops.
Qed.

Lemma route_mono h B prev' t :
  route h B prev' t → ∀ prev, (∀ w, w ∈ prev → w ∈ prev') → route h B prev t.
Proof.
  induction 1 as [prev' t l Hlen Ht HB
                 |prev' t l t' w Hlen Ht Ht' Hne Hw Hnew _ IH];
    intros prev Hsub.
  - eapply route_last; eassumption.
  - eapply (route_step _ _ _ t l t' w); try eassumption.
    + intros Hin. apply Hnew, Hsub, Hin.
    + apply IH. intros w' [Hin| ->%list_elem_of_singleton]%elem_of_app;
        apply elem_of_app; [left; apply Hsub, Hin | right; left].
Qed.

Lemma linked_named h t t' :
  closed h → linked h t t' → ∃ w, name_of h t' = Some w.
Proof.
  intros Hc (c & _ & _ & Hin).
  pose proof (proj1 (closed_views h) Hc c t' (or_introl Hin)) as Hlt.
  destruct (lookup_lt_is_Some_2 _ _ Hlt) as [n Hn].
  exists (id n). unfold name_of. rewrite Hn. reflexivity.
Qed.

Lemma connected_reach h A B :
  closed h → connected h A B → reach h B [] A.
Proof.
  intros Hc Hconn. induction Hconn as [x|x y z Hxy _ IH].
  - apply reach_here.
  - destruct (linked_named _ _ _ Hc Hxy) as [w Hw].
    eapply reach_step; [exact Hxy | exact Hw | | exact IH].
    intros Hin. inversion Hin.
Qed.

Lemma reach_avoid h A B prev s :
  distinct_ids h A → reach h B prev s → connected h A s →
  ∀ x w, connected h A x → name_of h x = Some w →
    reach h B (prev ++ [w]) s ∨ reach h B (prev ++ [w]) x.
Proof.
  intros Huniq Hreach.
  induction Hreach as [prev|prev s s' w' Hlink Hw' Hnew _ IH];
    intros Hconn x w Hx Hw.
  - left. apply reach_here.
  - assert (Hconn' : connected h A s')
      by (eapply rtc_r; [exact Hconn | exact Hlink]).
    destruct (IH Hconn' x w Hx Hw) as [Hs'|Hright]; [|right; exact Hright].
    destruct (decide (w' = w)) as [->|Hne].
    + right. rewrite <- (Huniq s' x Hconn' Hx) by congruence. exact Hs'.
    + left. eapply reach_step; [exact Hlink | exact Hw' | | exact Hs'].
      intros [Hin|Hin%list_elem_of_singleton]%elem_of_app;
        [contradiction | congruence].
Qed.

Lemma reach_route h A B :
  closed h → distinct_ids h A →
  ∀ n prev t,
    unvisited h prev ≤ n → connected h A t →
    (∃ w, name_of h t = Some w ∧ w ∈ prev) →
    reach h B prev t → t ≠ B → route h B prev t.
Proof.
  intros Hc Huniq. induction n as [|n IH];
    intros prev t Hn Hconn (w & Hw & Hin) Hreach HneB;
    (inversion Hreach as [|prev0 t0 t' w' Hlink Hw' Hnew Hrest];
     subst; [contradiction|]);
    apply name_of_Some in Hw' as Hn'; destruct Hn' as (tn' & Htn' & <-);
    pose proof (unvisited_extend _ _ _ _ Htn' Hnew) as Hless; [lia|].
  assert (Hconn' : connected h A t')
    by (eapply rtc_r; [exact Hconn | exact Hlink]).
  assert (Hne : t' ≠ t) by (intros ->; congruence).
  pose proof Hlink as (l & Hlen & Ht & Ht').
  destruct (decide (t' = B)) as [->|HneB'].
  { eapply route_last; eassumption. }
  eapply (route_step _ _ _ t l t' (id tn')); try eassumption.
  apply IH.
  - lia.
  - exact Hconn'.
  - exists (id tn'). split; [exact Hw'|]. apply elem_of_app. right. left.
  - destruct (reach_avoid h A B prev t' Huniq Hrest Hconn' t' (id tn')
                Hconn' Hw') as [?|?]; assumption.
  - exact HneB'.
Qed.

(** X22: on a graph whose references designate objects and whose edges are
    paired, when the tables connected to [A] have pairwise different ids,
    have their primary key set and are listed as a parent by that key once
    the key is shared, [find_path(A, B)] finds a join path from [A] to [B]
    whenever [B] is connected to [A] through shared columns. *)
Theorem find_path_complete (st : state) (A B : addr) (fuel : nat) :
  closed (heap st) → paired (heap st) → is_Some (heap st !! A) →
  (∀ t, connected (heap st) A t → owns_key (heap st) t) →
  distinct_ids (heap st) A →
  connected (heap st) A B →
  length (heap st) < fuel →
  ∃ q, find_path fuel A B None st = (Ok (Some q), st) ∧
       hops_from (heap st) A q B.
Proof.
  intros Hc Hp [an HA] Howns Huniq Hconn Hfuel.
  assert (Hkeyed : ∀ t, connected (heap st) A t → keyed_table (heap st) t)
    by (intros t Ht; apply owns_key_keyed; auto).
  destruct (decide (A = B)) as [<-|Hne].
  { exists []. split; [|apply hops_done].
    destruct fuel as [|fuel]; [lia|]. cbn [find_path default].
    rewrite decide_True by reflexivity. reflexivity. }
  assert (HB : is_Some (heap st !! B)).
  { destruct (Hkeyed B Hconn) as (n & _ & Hn & _). eauto. }
  assert (HwA : name_of (heap st) A = Some (id an))
    by (unfold name_of; rewrite HA; reflexivity).
  assert (Hroute : route (heap st) B [] A).
  { apply (route_mono _ _ [id an]); [|intros w Hw; inversion Hw].
    apply (reach_route (heap st) A B Hc Huniq
             (unvisited (heap st) [id an]) [id an] A (le_n _)
             (rtc_refl _ _)); [| |exact Hne].
    - exists (id an). split; [exact HwA | left].
    - destruct (reach_avoid (heap st) A B [] A Huniq
                  (connected_reach _ _ _ Hc Hconn) (rtc_refl _ _) A (id an)
                  (rtc_refl _ _) HwA) as [?|?]; assumption. }
  pose proof (unvisited_le (heap st) []) as Hle.
  destruct (find_path_route st A B Hc Hp HB Hkeyed [] A Hroute fuel []
              eq_refl (rtc_refl _ _) ltac:(lia)) as (q & Hq).
  assert (Hnone : find_path fuel A B None st = find_path fuel A B (Some []) st)
    by (destruct fuel; reflexivity).
  exists q. split; [rewrite Hnone; exact Hq|].
  destruct (find_path_chain st A B Hc HB Hkeyed fuel A []
              (rtc_refl _ _) ltac:(simpl; lia)) as (r & Hrun & Hr).
  rewrite Hq in Hrun. injection Hrun as <-.
  destruct (Hr q eq_refl) as (hops & -> & Hhops). exact Hhops.
Qed.

(** ** The further properties at work on the Actino_Draft cut *)

Lemma get_child_finds_last_witness :
  ∃ r,
    get_child 0 "phage" (built_state actino) = (Ok r, built_state actino) ∧
    has_child 0 "phage" (built_state actino) =
      (Ok (bool_decide (is_Some r)), built_state actino).
Proof.
  destruct (get_child_finds_last (built_state actino) 0
              (mkNode "Actino_Draft" [] [1; 4; 7] DatabaseNode) "phage")
    as (r & Hget & Hhas & _).
  - closed_by_compute.
  - vm_compute. reflexivity.
  - exists r. split; [exact Hget | exact Hhas].
Defined.

Lemma show_foreign_keys_names_witness :
  ∃ fks names,
    get_foreign_keys 1 (built_state actino) = (Ok fks, built_state actino) ∧
    show_foreign_keys 1 (built_state actino) =
      (Ok names, built_state actino) ∧
    Forall2 (λ a w, name_of (heap (built_state actino)) a = Some w) fks names.
Proof.
  apply (show_foreign_keys_names (built_state actino) 1
           (mkNode "gene" [0] [2; 5] (TableNode (Some 2))) (Some 2)).
  - closed_by_compute.
  - vm_compute. reflexivity.
  - reflexivity.
Defined.

Lemma add_child_then_lookup_witness :
  ∃ st',
    add_child 7 6 (built_state actino) = (Ok tt, st') ∧
    get_child 7 "Cluster" st' = (Ok (Some 6), st') ∧
    has_child 7 "Cluster" st' = (Ok true, st') ∧
    get_parent 6 "version" st' = (Ok (Some 7), st') ∧
    has_parent 6 "version" st' = (Ok true, st').
Proof.
  apply (add_child_then_lookup (built_state actino) 7 6 "version" "Cluster").
  - closed_by_compute.
  - vm_compute. reflexivity.
  - vm_compute. reflexivity.
Defined.

Lemma add_child_then_remove_child_witness :
  (add_child 7 6;; remove_child 7 (Some 6)) (built_state actino) =
  (Ok (Some 6), built_state actino).
Proof.
  apply (add_child_then_remove_child (built_state actino) 7 6).
  - vm_compute. lia.
  - vm_compute. lia.
  - by_compute.
  - by_compute.
Defined.

Lemma remove_child_absent_witness :
  remove_child 7 None (built_state actino) = (Ok None, built_state actino) ∧
  remove_child 7 (Some 6) (built_state actino) =
  (Raise ValueError, built_state actino).
Proof.
  destruct (remove_child_absent (built_state actino) 7 6) as (H1 & H2 & _).
  - vm_compute. lia.
  - split; [exact H1|]. apply H2. by_compute.
Defined.

Lemma parse_type_shape_witness :
  ∃ t rest,
    parse_type 6 (built_state actino) = (Ok t, built_state actino) ∧
    "varchar(5)" = t +:+ rest ∧
    ("("%char ∉ chars t) ∧ (" "%char ∉ chars t) ∧
    (("("%char ∉ chars "varchar(5)") → (" "%char ∉ chars "varchar(5)") →
     t = "varchar(5)").
Proof.
  apply (parse_type_shape (built_state actino) 6 cluster_column
           (Some "varchar(5)") (Some true) (Some "") "Undefined").
  - vm_compute. reflexivity.
  - reflexivity.
Defined.

Lemma group_column_unprobed_witness :
  group_column actino 7 8 (built_state actino) =
  (Ok tt,
   mkState
     (<[8 := mkNode "Version" [7] []
               (ColumnNode (Some "int(11)") (Some false) (Some "")
                  "num_set")]>
        (heap (built_state actino)))
     (sent (built_state actino))).
Proof.
  apply (group_column_unprobed actino (built_state actino) 7 8
           (mkNode "Version" [7] []
              (ColumnNode (Some "int(11)") (Some false) (Some "")
                 "Undefined"))
           "int(11)" (Some false) (Some "") "Undefined").
  - vm_compute. reflexivity.
  - reflexivity.
  - intros Hv. vm_compute in Hv. discriminate.
  - intros Hv. vm_compute in Hv. discriminate.
  - vm_compute. reflexivity.
Defined.

Lemma group_column_failures_witness :
  group_column actino 4 6 (built_state actino) =
  (Raise IndexError,
   mkState
     (<[6 := set_node_group cluster_column
               (group_before_probe "varchar(5)" "Undefined")]>
        (heap (built_state actino)))
     (sent (built_state actino) ++ [count_query "Cluster" "phage"])).
Proof.
  destruct (group_column_failures actino (built_state actino) 4 6
              phage_table cluster_column (Some "varchar(5)") (Some true)
              (Some "") "Undefined") as (_ & _ & H3).
  - vm_compute. reflexivity.
  - reflexivity.
  - vm_compute. reflexivity.
  - apply (H3 "varchar(5)" eq_refl); vm_compute; reflexivity.
Defined.

Lemma find_path_returns_join_path_witness :
  ∃ r,
    find_path 11 1 4 None (built_state actino) = (Ok r, built_state actino) ∧
    ∀ q, r = Some q → hops_from (heap (built_state actino)) 1 q 4.
Proof.
  apply (find_path_returns_join_path (built_state actino) 1 4 11).
  - closed_by_compute.
  - allocated.
  - intros t Ht.
    apply (component_closed_sound _ [1; 4]) in Ht;
      [|vm_compute; reflexivity | by_compute].
    apply elem_of_cons in Ht as [->|Ht];
      [|apply list_elem_of_singleton in Ht as ->].
    + exists (mkNode "gene" [0] [2; 5] (TableNode (Some 2))), 2.
      split; [vm_compute; reflexivity|]. split; [reflexivity|].
      split; [allocated|]. split; [vm_compute; lia|].
      intros c Hc. apply elem_of_cons in Hc as [->|Hc];
        [|apply list_elem_of_singleton in Hc as ->]; by_compute.
    + exists (mkNode "phage" [0] [5; 6] (TableNode (Some 5))), 5.
      split; [vm_compute; reflexivity|]. split; [reflexivity|].
      split; [allocated|]. split; [intros _; by_compute|].
      intros c Hc. apply elem_of_cons in Hc as [->|Hc];
        [|apply list_elem_of_singleton in Hc as ->]; by_compute.
  - vm_compute. lia.
Defined.

Lemma build_values_failures_witness :
  build_values (mkTree actino 0) "version" "Version" None [] ["1"]
    (built_state actino) = (Raise AttributeError, built_state actino) ∧
  build_values (mkTree actino 0) "x" "c" None [] []
    ((d ← new_DatabaseNode "db"; create_table d "x") empty_state).2 =
  (Raise AttributeError,
   ((d ← new_DatabaseNode "db"; create_table d "x") empty_state).2).
Proof.
  split.
  - destruct (build_values_failures (mkTree actino 0) "version" "Version"
                None [] ["1"] (built_state actino) 7) as (_ & H2 & _).
    + closed_by_compute.
    + allocated.
    + vm_compute. reflexivity.
    + apply H2.
      * eexists _, _. split; vm_compute; reflexivity.
      * allocated.
      * discriminate.
      * reflexivity.
      * vm_compute. reflexivity.
  - destruct (build_values_failures (mkTree actino 0) "x" "c" None [] []
                ((d ← new_DatabaseNode "db"; create_table d "x")
                   empty_state).2 1) as (H1 & _).
    + closed_by_compute.
    + allocated.
    + vm_compute. reflexivity.
    + apply H1. intros (n & pk & Hn & Hcls). vm_compute in Hn.
      injection Hn as <-. discriminate.
Defined.

Lemma webs_without_constraints_witness :
  setup_db_tree_webs 4 (mkHandle "Actino_Draft" (λ _, [])) 0
    (built_state actino) =
  (Ok tt,
   mkState (heap (built_state actino))
     (sent (built_state actino) ++
      constraint_queries (mkHandle "Actino_Draft" (λ _, []))
        (heap (built_state actino))
        (kids (heap (built_state actino)) 0))).
Proof.
  apply (webs_without_constraints (mkHandle "Actino_Draft" (λ _, []))
           (built_state actino) 0 4).
  - closed_by_compute.
  - allocated.
  - apply Forall_forall. intros t _ w _. reflexivity.
  - vm_compute. lia.
Defined.

Lemma webs_unplaced_constraint_witness :
  setup_db_tree_webs 1
    (with_rows actino (foreign_key_query actino "gene")
       [fk_row (mkFk "host" "HostID" "gene")]) 0 (built_state actino) =
  (Raise AttributeError,
   mkState (heap (built_state actino))
     (sent (built_state actino) ++
      constraint_queries
        (with_rows actino (foreign_key_query actino "gene")
           [fk_row (mkFk "host" "HostID" "gene")])
        (heap (built_state actino)) ([] ++ [1]))).
Proof.
  apply (webs_unplaced_constraint
           (with_rows actino (foreign_key_query actino "gene")
              [fk_row (mkFk "host" "HostID" "gene")])
           (built_state actino) 0 1 "gene" [] [4; 7]
           (fk_row (mkFk "host" "HostID" "gene")) []
           (mkFk "host" "HostID" "gene") 1).
  - closed_by_compute.
  - allocated.
  - vm_compute. reflexivity.
  - constructor.
  - vm_compute. reflexivity.
  - vm_compute. reflexivity.
  - split; vm_compute; reflexivity.
  - left. vm_compute. reflexivity.
  - simpl. lia.
Defined.

Lemma webs_keeps_graph_linked_witness :
  let st' := (setup_db_tree_webs 4 actino 0 (leaves_state actino)).2 in
  length (heap st') = length (heap (leaves_state actino)) ∧
  (∀ a, name_of (heap st') a = name_of (heap (leaves_state actino)) a) ∧
  closed (heap st') ∧ paired (heap st').
Proof.
  apply (webs_keeps_graph_linked 4 actino 0 (leaves_state actino)).
  - closed_by_compute.
  - apply pairedb_sound; [closed_by_compute | vm_compute; reflexivity].
Defined.

Lemma init_keeps_graph_linked_witness :
  let st' := (DatabaseTree_init 4 actino empty_state).2 in
  closed (heap st') ∧ paired (heap st') ∧
  length (heap empty_state) ≤ length (heap st') ∧
  ∀ a, a < length (heap empty_state) →
       name_of (heap st') a = name_of (heap empty_state) a.
Proof.
  apply (init_keeps_graph_linked 4 actino empty_state).
  - closed_by_compute.
  - apply pairedb_sound; [closed_by_compute | vm_compute; reflexivity].
Defined.

Lemma create_column_untyped_witness :
  ∃ st',
    create_column 7 "Date" (built_state actino) =
      (Ok (length (heap (built_state actino))), st') ∧
    parse_type (length (heap (built_state actino))) st' =
      (Raise AttributeError, st').
Proof.
  destruct (create_column_untyped actino (built_state actino) 7 "Date")
    as (st' & Hrun & _ & _ & _ & Hparse & _).
  - closed_by_compute.
  - allocated.
  - exists st'. split; [exact Hrun | exact Hparse].
Defined.

Lemma leaf_table_builds_witness :
  ∃ pk,
    leaf_table actino 0 [("TABLE_NAME", VStr "gene")]
      (mkState [mkNode "Actino_Draft" [] [] DatabaseNode] []) =
    (Ok tt,
     mkState
       ([mkNode "Actino_Draft" [] [1] DatabaseNode;
         mkNode "gene" [0] [2; 3] (TableNode pk);
         mkNode "GeneID" [1] []
           (ColumnNode (Some "varchar(35)") (Some false) (Some "PRI")
              "Undefined");
         mkNode "PhageID" [1] []
           (ColumnNode (Some "varchar(25)") (Some false) (Some "MUL")
              "Undefined")])
       [column_query "gene"]) ∧
    last_primary 2
      [mkNode "GeneID" [1] []
         (ColumnNode (Some "varchar(35)") (Some false) (Some "PRI")
            "Undefined");
       mkNode "PhageID" [1] []
         (ColumnNode (Some "varchar(25)") (Some false) (Some "MUL")
            "Undefined")] pk.
Proof.
  apply (leaf_table_builds actino
           (mkState [mkNode "Actino_Draft" [] [] DatabaseNode] []) 0
           (mkNode "Actino_Draft" [] [] DatabaseNode)
           [("TABLE_NAME", VStr "gene")] "gene"
           [mkNode "GeneID" [1] []
              (ColumnNode (Some "varchar(35)") (Some false) (Some "PRI")
                 "Undefined");
            mkNode "PhageID" [1] []
              (ColumnNode (Some "varchar(25)") (Some false) (Some "MUL")
                 "Undefined")]).
  - reflexivity.
  - reflexivity.
  - vm_compute. reflexivity.
Defined.

Lemma find_path_finds_route_witness :
  ∃ q,
    find_path 11 1 4 None (built_state actino) =
      (Ok (Some q), built_state actino) ∧
    hops_from (heap (built_state actino)) 1 q 4.
Proof.
  apply (find_path_finds_route (built_state actino) 1 4 11).
  - closed_by_compute.
  - apply pairedb_sound; [closed_by_compute | vm_compute; reflexivity].
  - allocated.
  - intros t Ht.
    apply (component_closed_sound _ [1; 4]) in Ht;
      [|vm_compute; reflexivity | by_compute].
    apply elem_of_cons in Ht as [->|Ht];
      [|apply list_elem_of_singleton in Ht as ->].
    + exists (mkNode "gene" [0] [2; 5] (TableNode (Some 2))), 2.
      split; [vm_compute; reflexivity|]. split; [reflexivity|].
      split; [allocated | vm_compute; lia].
    + exists (mkNode "phage" [0] [5; 6] (TableNode (Some 5))), 5.
      split; [vm_compute; reflexivity|]. split; [reflexivity|].
      split; [allocated | intros _; by_compute].
  - apply (route_last _ _ [] 1 5); [vm_compute; lia | by_compute | by_compute].
  - vm_compute. lia.
Defined.

Lemma find_path_complete_witness :
  ∃ q,
    find_path 11 1 4 None (built_state actino) =
      (Ok (Some q), built_state actino) ∧
    hops_from (heap (built_state actino)) 1 q 4.
Proof.
  assert (Hcomp : ∀ t, connected (heap (built_state actino)) 1 t →
                       t = 1 ∨ t = 4).
  { intros t Ht.
    apply (component_closed_sound _ [1; 4]) in Ht;
      [|vm_compute; reflexivity | by_compute].
    apply elem_of_cons in Ht as [->|Ht]; [left; reflexivity|].
    apply list_elem_of_singleton in Ht as ->. right. reflexivity. }
  apply (find_path_complete (built_state actino) 1 4 11).
  - closed_by_compute.
  - apply pairedb_sound; [closed_by_compute | vm_compute; reflexivity].
  - allocated.
  - intros t Ht. destruct (Hcomp t Ht) as [->| ->].
    + exists (mkNode "gene" [0] [2; 5] (TableNode (Some 2))), 2.
      split; [vm_compute; reflexivity|]. split; [reflexivity|].
      split; [allocated | vm_compute; lia].
    + exists (mkNode "phage" [0] [5; 6] (TableNode (Some 5))), 5.
      split; [vm_compute; reflexivity|]. split; [reflexivity|].
      split; [allocated | intros _; by_compute].
  - intros a b Ha Hb Hname.
    destruct (Hcomp a Ha) as [->| ->], (Hcomp b Hb) as [->| ->];
      try reflexivity; vm_compute in Hname; discriminate.
  - apply rtc_once. exists 5.
    split; [vm_compute; lia|]. split; by_compute.
  - vm_compute. lia.
Defined.
